(** * paramguard: the rule evaluation engine

    A shallow embedding of [scanner/parser.go] (the Config model),
    the rule and finding types, [scanner/rules.go] (the nine check
    predicates and [CheckRule]) and [Scanner.ScanConfig], followed by the
    properties of the evaluator.

    Conventions.
    - A Go [map[string]interface{}] is the sequence of its entries in the
      order one [range] over it yields them.  Go leaves that order
      unspecified; every theorem below quantifies over all sequences, hence
      over every iteration order, and states its conclusion in terms that
      do not mention the order (a key is present, some candidate
      satisfies a test).
    - [float64] is Rocq's primitive binary64 float, compared with the IEEE
      comparisons the Go operators denote.
    - A [for ... range] loop whose body may [return] is [range_return]:
      the body answers [Some r] to return [r] and [None] to go on.
    - [regexp.MatchString] and [fmt.Sprintf("%v", _)] belong to the Go
      standard library; the evaluator is parameterised by them. *)

From Stdlib Require Import ZArith String Ascii List Bool Floats Lia.
From Stdlib Require Import Permutation.
Import ListNotations.
Open Scope string_scope.
Set Warnings "-register-all,-notation-for-abbreviation".

(* ================================================================== *)
(** ** Go runtime values *)
(* ================================================================== *)

(** [float64(v)] for an integer [v]: round to nearest, ties to even. *)
Definition float64_of_Z (z : Z) : float :=
  SF2Prim (binary_normalize prec emax z 0%Z false).

(** The Go operators [<], [>] and [!=] on [float64]. *)
Definition f64_lt (x y : float) : bool := PrimFloat.ltb x y.
Definition f64_gt (x y : float) : bool := PrimFloat.ltb y x.
Definition f64_ne (x y : float) : bool := negb (PrimFloat.eqb x y).

(** The dynamic values an [interface{}] of a parsed configuration holds.
    A [float32] is carried by its exact [float64] image, which is all the
    evaluator ever looks at. *)
Inductive Value : Type :=
| VNil
| VBool (b : bool)
| VString (s : string)
| VInt (n : Z)
| VInt64 (n : Z)
| VFloat32 (f : float)
| VFloat64 (f : float)
| VSeq (items : list Value)
| VMap (m : Entries)
with Entries : Type :=
| ENil
| ECons (key : string) (val : Value) (rest : Entries).

Scheme Value_mut := Induction for Value Sort Prop
  with Entries_mut := Induction for Entries Sort Prop.

(** A mapping from the list of its entries, and back. *)
Fixpoint Entries_of_list (l : list (string * Value)) : Entries :=
  match l with
  | [] => ENil
  | (key, val) :: rest => ECons key val (Entries_of_list rest)
  end.

Fixpoint entries_list (m : Entries) : list (string * Value) :=
  match m with
  | ENil => []
  | ECons key val rest => (key, val) :: entries_list rest
  end.

(** [for _, x := range l { body }] with [return] inside the body. *)
Fixpoint range_return {A R : Type} (body : A -> option R) (l : list A) : option R :=
  match l with
  | [] => None
  | x :: rest =>
      match body x with
      | Some r => Some r
      | None => range_return body rest
      end
  end.

(** The value a function returns when its loop ran to the end. *)
Definition or_else {R : Type} (o : option R) (fallthrough : R) : R :=
  match o with
  | Some r => r
  | None => fallthrough
  end.

(** [strings.Join(elems, sep)]. *)
Definition strings_Join (elems : list string) (sep : string) : string :=
  String.concat sep elems.

(** [len(s)] of a string or a slice, a Go [int]. *)
Definition len_string (s : string) : Z := Z.of_nat (String.length s).
Definition len_slice {A : Type} (l : list A) : Z := Z.of_nat (List.length l).

(* ================================================================== *)
(** ** The rule, finding and config types *)
(* ================================================================== *)

Record Condition : Type := mkCondition {
  Condition_Parameter : string;
  Condition_Operator : string;
  Condition_Value : Value
}.

Record Check : Type := mkCheck {
  Check_Type : string;
  Check_Parameter : string;
  Check_Parameters : list string;
  Check_Field : string;
  Check_Fields : list string;
  Check_Patterns : list string;
  Check_Operator : string;
  Check_Value : Value;
  Check_Min : float;
  Check_Max : float;
  Check_Condition : string;
  Check_Conditions : list Condition;
  Check_Require : string;
  Check_HasAny : list string;
  Check_MissingAll : list string;
  Check_Values : list Value;
  Check_MaxSequences : Z;
  Check_MaxLength : Z
}.

Record Rule : Type := mkRule {
  Rule_ID : string;
  Rule_Name : string;
  Rule_Severity : string;
  Rule_Category : string;
  Rule_Description : string;
  Rule_Check : Check;
  Rule_Recommendation : string;
  Rule_References : list string;
  Rule_Fields : list string
}.

Record RulesFile : Type := mkRulesFile {
  RulesFile_Version : string;
  RulesFile_Rules : list Rule;
  RulesFile_Categories : list string
}.

Record Finding : Type := mkFinding {
  Finding_RuleID : string;
  Finding_Name : string;
  Finding_Severity : string;
  Finding_Category : string;
  Finding_Description : string;
  Finding_Location : string;
  Finding_Recommendation : string;
  Finding_References : list string
}.

Record Config : Type := mkConfig {
  Config_Data : Entries;
  Config_FilePath : string
}.

Record Scanner : Type := mkScanner {
  Scanner_rules : RulesFile
}.

(* ================================================================== *)
(** ** The Config model (parser.go) *)
(* ================================================================== *)

Fixpoint hasFieldRecursive (data : Entries) (field : string) : bool :=
  match data with
  | ENil => false
  | ECons key val rest =>
      if key =? field then true
      else
        match val with
        | VMap nested =>
            if hasFieldRecursive nested field then true
            else hasFieldRecursive rest field
        | _ => hasFieldRecursive rest field
        end
  end.

(** HasField checks if a field exists anywhere in the config. *)
Definition HasField (c : Config) (field : string) : bool :=
  hasFieldRecursive (Config_Data c) field.

(** [values] is the slice behind the pointer the Go function appends to;
    the function returns the slice as it leaves it. *)
Fixpoint collectFieldValues (data : Entries) (field : string)
  (values : list Value) : list Value :=
  match data with
  | ENil => values
  | ECons key val rest =>
      let values := if key =? field then (values ++ [val])%list else values in
      let values :=
        match val with
        | VMap nested => collectFieldValues nested field values
        | _ => values
        end in
      collectFieldValues rest field values
  end.

(** GetAllFieldValues returns all values for a given field name. *)
Definition GetAllFieldValues (c : Config) (field : string) : list Value :=
  collectFieldValues (Config_Data c) field [].

(** The inner loop of [collectContent] over a sequence value. *)
Fixpoint collectContent_items (items : list Value) (content : string) : string :=
  match items with
  | [] => content
  | VString str :: rest => collectContent_items rest ((content ++ str) ++ " ")
  | _ :: rest => collectContent_items rest content
  end.

(** [content] is the text written to the [strings.Builder] so far. *)
Fixpoint collectContent (data : Entries) (content : string) : string :=
  match data with
  | ENil => content
  | ECons _ val rest =>
      let content :=
        match val with
        | VString v => (content ++ v) ++ " "
        | VMap v => collectContent v content
        | VSeq v => collectContent_items v content
        | _ => content
        end in
      collectContent rest content
  end.

(** GetAllContent returns all string content from the config. *)
Definition GetAllContent (c : Config) : string :=
  collectContent (Config_Data c) "".

(** [val, ok := m[key]]: [None] when the key is absent. *)
Fixpoint map_index (m : Entries) (key : string) : option Value :=
  match m with
  | ENil => None
  | ECons k val rest => if k =? key then Some val else map_index rest key
  end.

(** [strings.Split(s, sep)] for a separator of one byte. *)
Fixpoint strings_Split (s : string) (sep : ascii) : list string :=
  match s with
  | EmptyString => [""]
  | String c rest =>
      if Ascii.eqb c sep then "" :: strings_Split rest sep
      else
        match strings_Split rest sep with
        | part :: parts => String c part :: parts
        | [] => [String c ""]
        end
  end.

(** The loop of [GetValue] from one part on; [rest = []] is the test
    [i == len(parts)-1], and the empty list the [return nil, false]
    after the loop. *)
Fixpoint GetValue_loop (parts : list string) (current : Entries)
  : option Value :=
  match parts with
  | [] => None
  | part :: rest =>
      match map_index current part with
      | Some val =>
          match rest with
          | [] => Some val
          | _ :: _ =>
              match val with
              | VMap nested => GetValue_loop rest nested
              | _ => None
              end
          end
      | None => None
      end
  end.

(** GetValue retrieves a value from nested config; [None] is
    [(nil, false)]. *)
Definition GetValue (c : Config) (path : string) : option Value :=
  GetValue_loop (strings_Split path ".") (Config_Data c).

(* ================================================================== *)
(** ** The rule evaluator (rules.go) *)
(* ================================================================== *)

(** Each predicate that starts with [values := config.GetAllFieldValues(f)]
    is split at that call: [foo_values] is the rest of the function, run
    on the slice the call returned. *)

Definition toFloat (val : Value) : option float :=
  match val with
  | VFloat64 v => Some v
  | VFloat32 v => Some v
  | VInt v => Some (float64_of_Z v)
  | VInt64 v => Some (float64_of_Z v)
  | _ => None
  end.

(** The two tests [checkSingleNumeric] makes on a candidate once it is a
    [float64]. *)
Definition checkSingleNumeric_num (param : string) (check : Check)
  (num : float) : option (bool * string) :=
  if (f64_ne (Check_Min check) 0 || f64_ne (Check_Max check) 0)
     && (f64_lt num (Check_Min check) || f64_gt num (Check_Max check))
  then Some (true, param)
  else if (Check_Condition check =? "any_value_exceeds")
          && (f64_lt num (Check_Min check) || f64_gt num (Check_Max check))
  then Some (true, param)
  else None.

(** One iteration of the loop of [checkSingleNumeric]; the [default] case
    of the type switch is [continue]. *)
Definition checkSingleNumeric_body (param : string) (check : Check)
  (val : Value) : option (bool * string) :=
  match val with
  | VFloat64 v => checkSingleNumeric_num param check v
  | VFloat32 v => checkSingleNumeric_num param check v
  | VInt v => checkSingleNumeric_num param check (float64_of_Z v)
  | VInt64 v => checkSingleNumeric_num param check (float64_of_Z v)
  | _ => None
  end.

Definition checkSingleNumeric_values (param : string) (check : Check)
  (values : list Value) : bool * string :=
  if (len_slice values =? 0)%Z then (false, "")
  else or_else (range_return (checkSingleNumeric_body param check) values)
               (false, "").

Definition checkSingleNumeric (param : string) (check : Check)
  (config : Config) : bool * string :=
  checkSingleNumeric_values param check (GetAllFieldValues config param).

(** One iteration of the loop of [checkNumericRange] over [Parameters]. *)
Definition checkNumericRange_body (r : bool * string) : option (bool * string) :=
  let '(violated, loc) := r in
  if violated then Some (true, loc) else None.

Definition checkNumericRange (rule : Rule) (config : Config) : bool * string :=
  let check := Rule_Check rule in
  if negb (Check_Parameter check =? "") then
    checkSingleNumeric (Check_Parameter check) check config
  else
    or_else
      (if (len_slice (Check_Parameters check) >? 0)%Z then
         range_return
           (fun param =>
              checkNumericRange_body (checkSingleNumeric param check config))
           (Check_Parameters check)
       else None)
      (false, "").

Definition checkMissingField (rule : Rule) (config : Config) : bool * string :=
  let field := Check_Field (Rule_Check rule) in
  if negb (HasField config field) then (true, field) else (false, "").

Definition checkMissingFields (rule : Rule) (config : Config) : bool * string :=
  or_else
    (range_return
       (fun field => if HasField config field then Some (false, "") else None)
       (Check_Fields (Rule_Check rule)))
    (true, strings_Join (Check_Fields (Rule_Check rule)) ", ").

Definition checkFieldExists (rule : Rule) (config : Config) : bool * string :=
  let field := Check_Field (Rule_Check rule) in
  if HasField config field then (true, field) else (false, "").

Definition checkConditionalMissing (rule : Rule) (config : Config)
  : bool * string :=
  let hasAny :=
    or_else
      (range_return
         (fun field => if HasField config field then Some true else None)
         (Check_HasAny (Rule_Check rule)))
      false in
  if negb hasAny then (false, "")
  else
    or_else
      (range_return
         (fun field => if HasField config field then Some (false, "") else None)
         (Check_MissingAll (Rule_Check rule)))
      (true, strings_Join (Check_MissingAll (Rule_Check rule)) ", ").

(** The loop of [checkStopSequenceComplexity] over the items of a
    sequence candidate. *)
Definition checkStopSequence_items (field : string) (MaxLength : Z)
  (v : list Value) : option (bool * string) :=
  range_return
    (fun item =>
       match item with
       | VString str =>
           if (len_string str >? MaxLength)%Z then Some (true, field) else None
       | _ => None
       end) v.

(** One iteration of the loop of [checkStopSequenceComplexity]. *)
Definition checkStopSequence_body (field : string) (check : Check)
  (val : Value) : option (bool * string) :=
  match val with
  | VSeq v =>
      if (Check_MaxSequences check >? 0)%Z
         && (len_slice v >? Check_MaxSequences check)%Z
      then Some (true, field)
      else if (Check_MaxLength check >? 0)%Z
      then checkStopSequence_items field (Check_MaxLength check) v
      else None
  | VString v =>
      if (Check_MaxLength check >? 0)%Z
         && (len_string v >? Check_MaxLength check)%Z
      then Some (true, field)
      else None
  | _ => None
  end.

Definition checkStopSequenceComplexity_values (rule : Rule)
  (values : list Value) : bool * string :=
  let field := Check_Field (Rule_Check rule) in
  or_else (range_return (checkStopSequence_body field (Rule_Check rule)) values)
          (false, "").

Definition checkStopSequenceComplexity (rule : Rule) (config : Config)
  : bool * string :=
  checkStopSequenceComplexity_values rule
    (GetAllFieldValues config (Check_Field (Rule_Check rule))).

(** The nine check kinds [CheckRule] dispatches on. *)
Definition recognized_types : list string :=
  [ "pattern_match"; "numeric_range"; "missing_field"; "missing_fields";
    "field_exists"; "combined_conditions"; "conditional_missing";
    "field_check"; "stop_sequence_complexity" ].

(** The Finding [CheckRule] builds for a violated rule. *)
Definition finding_of (rule : Rule) (location : string) : Finding :=
  {| Finding_RuleID := Rule_ID rule;
     Finding_Name := Rule_Name rule;
     Finding_Severity := Rule_Severity rule;
     Finding_Category := Rule_Category rule;
     Finding_Description := Rule_Description rule;
     Finding_Location := location;
     Finding_Recommendation := Rule_Recommendation rule;
     Finding_References := Rule_References rule |}.

(** The end of [CheckRule], after the switch: [None] is Go's [nil]. *)
Definition CheckRule_result (rule : Rule) (r : option (bool * string))
  : option Finding :=
  match r with
  | None => None
  | Some (violated, location) =>
      if negb violated then None else Some (finding_of rule location)
  end.

(** One iteration of the loop of [ScanConfig]. *)
Definition ScanConfig_step (findings : list Finding) (finding : option Finding)
  : list Finding :=
  match finding with
  | Some f => (findings ++ [f])%list
  | None => findings
  end.

Section Evaluator.

(** [regexp.MatchString(pattern, s)]: the [matched] result; the error is
    dropped by every caller, and [matched] is false when there is one. *)
Variable regexp_MatchString : string -> string -> bool.

(** [fmt.Sprintf("%v", val)]. *)
Variable fmt_Sprintv : Value -> string.

(** The loop of [checkPatternMatch] over the candidates of one field. *)
Definition checkPatternMatch_values (field : string) (patterns : list string)
  (values : list Value) : option (bool * string) :=
  range_return
    (fun val =>
       match val with
       | VString str =>
           range_return
             (fun pattern =>
                if regexp_MatchString pattern str
                then Some (true, field) else None)
             patterns
       | _ => None
       end) values.

Definition checkPatternMatch_content (patterns : list string)
  (content : string) : bool * string :=
  or_else
    (range_return
       (fun pattern =>
          if regexp_MatchString pattern content
          then Some (true, "config content") else None)
       patterns)
    (false, "").

Definition checkPatternMatch (rule : Rule) (config : Config) : bool * string :=
  let patterns := Check_Patterns (Rule_Check rule) in
  if (len_slice (Rule_Fields rule) >? 0)%Z then
    or_else
      (range_return
         (fun field =>
            checkPatternMatch_values field patterns
              (GetAllFieldValues config field))
         (Rule_Fields rule))
      (false, "")
  else checkPatternMatch_content patterns (GetAllContent config).

(** One iteration of the loop of [checkCondition]: [Some true] returns. *)
Definition checkCondition_body (condition : Condition) (val : Value)
  : option bool :=
  let operator := Condition_Operator condition in
  if operator =? "greater_than" then
    match toFloat val with
    | Some num =>
        match toFloat (Condition_Value condition) with
        | Some threshold => if f64_gt num threshold then Some true else None
        | None => None
        end
    | None => None
    end
  else if operator =? "not_equals" then
    if negb (fmt_Sprintv val =? fmt_Sprintv (Condition_Value condition))
    then Some true else None
  else if operator =? "equals" then
    if fmt_Sprintv val =? fmt_Sprintv (Condition_Value condition)
    then Some true else None
  else None.

Definition checkCondition_values (condition : Condition)
  (values : list Value) : bool :=
  if (len_slice values =? 0)%Z then false
  else or_else (range_return (checkCondition_body condition) values) false.

Definition checkCondition (condition : Condition) (config : Config) : bool :=
  checkCondition_values condition
    (GetAllFieldValues config (Condition_Parameter condition)).

(** One iteration of the loop of [checkCombinedConditions], on its state
    [(metCount, locations)]; [met] is what [checkCondition] answered.
    [metCount] never exceeds [len(Conditions)], a Go [int], so the
    increment does not wrap. *)
Definition checkCombinedConditions_step (st : Z * list string)
  (condition : Condition) (met : bool) : Z * list string :=
  let '(metCount, locations) := st in
  if met
  then ((metCount + 1)%Z, (locations ++ [Condition_Parameter condition])%list)
  else (metCount, locations).

(** The switch on [Require] that ends [checkCombinedConditions]. *)
Definition checkCombinedConditions_require (rule : Rule)
  (st : Z * list string) : bool * string :=
  let '(metCount, locations) := st in
  let require := Check_Require (Rule_Check rule) in
  if require =? "all" then
    if (metCount =? len_slice (Check_Conditions (Rule_Check rule)))%Z
    then (true, strings_Join locations ", ") else (false, "")
  else if require =? "at_least_two" then
    if (metCount >=? 2)%Z
    then (true, strings_Join locations ", ") else (false, "")
  else if require =? "both" then
    if (metCount =? 2)%Z
    then (true, strings_Join locations ", ") else (false, "")
  else if require =? "any" then
    if (metCount >? 0)%Z
    then (true, strings_Join locations ", ") else (false, "")
  else (false, "").

Definition checkCombinedConditions (rule : Rule) (config : Config)
  : bool * string :=
  checkCombinedConditions_require rule
    (fold_left
       (fun st condition =>
          checkCombinedConditions_step st condition
            (checkCondition condition config))
       (Check_Conditions (Rule_Check rule)) (0%Z, [])).

(** The loop of [checkFieldCheck] over the candidates of one field. *)
Definition checkFieldCheck_values (field : string) (checkValues : list Value)
  (values : list Value) : option (bool * string) :=
  range_return
    (fun val =>
       let valStr := fmt_Sprintv val in
       range_return
         (fun checkVal =>
            if valStr =? fmt_Sprintv checkVal
            then Some (true, field) else None)
         checkValues)
    values.

Definition checkFieldCheck (rule : Rule) (config : Config) : bool * string :=
  or_else
    (range_return
       (fun field =>
          checkFieldCheck_values field (Check_Values (Rule_Check rule))
            (GetAllFieldValues config field))
       (Check_Fields (Rule_Check rule)))
    (false, "").

(** CheckRule evaluates a rule against the config.  The switch answers
    [None] in its [default] case, which returns [nil] at once. *)
Definition CheckRule (rule : Rule) (config : Config) : option Finding :=
  let type := Check_Type (Rule_Check rule) in
  CheckRule_result rule
    (if type =? "pattern_match" then Some (checkPatternMatch rule config)
     else if type =? "numeric_range" then Some (checkNumericRange rule config)
     else if type =? "missing_field" then Some (checkMissingField rule config)
     else if type =? "missing_fields"
     then Some (checkMissingFields rule config)
     else if type =? "field_exists" then Some (checkFieldExists rule config)
     else if type =? "combined_conditions"
     then Some (checkCombinedConditions rule config)
     else if type =? "conditional_missing"
     then Some (checkConditionalMissing rule config)
     else if type =? "field_check" then Some (checkFieldCheck rule config)
     else if type =? "stop_sequence_complexity"
     then Some (checkStopSequenceComplexity rule config)
     else None).

(** ScanConfig scans a parsed configuration. *)
Definition ScanConfig (s : Scanner) (config : Config) : list Finding :=
  fold_left
    (fun findings rule => ScanConfig_step findings (CheckRule rule config))
    (RulesFile_Rules (Scanner_rules s)) [].

End Evaluator.

(* ================================================================== *)
(** ** Evaluation over the Go heap *)
(* ================================================================== *)

(** The same functions over the objects they reach through references.
    A Go map value is a reference to the map's table and a slice value a
    reference to its backing array, so the tree of a [Config] and the
    slices of a [Rule] are objects of the heap that a store can change;
    a [*Config], a [*Scanner] and a [*Finding] are addresses, and so are
    the [*[]interface{}] that [collectFieldValues] appends to and the
    [*strings.Builder] that [collectContent] writes to.  Strings are
    immutable in Go and stay values.  A computation answers [None] where
    Go panics: a dangling or ill-typed reference, an index out of range,
    a recursion deeper than the stack. *)
Module Heap.

Definition Ptr : Type := nat.

(** A map or slice value: [None] is [nil].  A slice is its whole backing
    array, the evaluator never reslices one. *)
Definition Ref : Type := option Ptr.

(** The dynamic values of an [interface{}]. *)
Inductive Interface : Type :=
| INil
| IBool (b : bool)
| IString (s : string)
| IInt (n : Z)
| IInt64 (n : Z)
| IFloat32 (f : float)
| IFloat64 (f : float)
| ISlice (items : Ref)
| IMap (m : Ref).

Record Condition : Type := mkCondition {
  Condition_Parameter : string;
  Condition_Operator : string;
  Condition_Value : Interface
}.

Record Check : Type := mkCheck {
  Check_Type : string;
  Check_Parameter : string;
  Check_Parameters : Ref;
  Check_Field : string;
  Check_Fields : Ref;
  Check_Patterns : Ref;
  Check_Operator : string;
  Check_Value : Interface;
  Check_Min : float;
  Check_Max : float;
  Check_Condition : string;
  Check_Conditions : Ref;
  Check_Require : string;
  Check_HasAny : Ref;
  Check_MissingAll : Ref;
  Check_Values : Ref;
  Check_MaxSequences : Z;
  Check_MaxLength : Z
}.

Record Rule : Type := mkRule {
  Rule_ID : string;
  Rule_Name : string;
  Rule_Severity : string;
  Rule_Category : string;
  Rule_Description : string;
  Rule_Check : Check;
  Rule_Recommendation : string;
  Rule_References : Ref;
  Rule_Fields : Ref
}.

Record RulesFile : Type := mkRulesFile {
  RulesFile_Version : string;
  RulesFile_Rules : Ref;
  RulesFile_Categories : Ref
}.

Record Finding : Type := mkFinding {
  Finding_RuleID : string;
  Finding_Name : string;
  Finding_Severity : string;
  Finding_Category : string;
  Finding_Description : string;
  Finding_Location : string;
  Finding_Recommendation : string;
  Finding_References : Ref
}.

Record Config : Type := mkConfig {
  Config_Data : Ref;
  Config_FilePath : string
}.

Record Scanner : Type := mkScanner {
  Scanner_rules : RulesFile
}.

(** The table of a [map[string]interface{}] lists its entries in the
    order a [range] yields them. *)
Inductive Object : Type :=
| OMap (table : list (string * Interface))
| OInterfaces (array : list Interface)
| OStrings (array : list string)
| OConditions (array : list Condition)
| ORules (array : list Rule)
| OConfig (c : Config)
| OScanner (s : Scanner)
| OFinding (f : Finding)
| OBuilder (content : string).

Definition heap : Type := list Object.
Definition Run (A : Type) : Type := heap -> option (A * heap).

Definition ret {A : Type} (a : A) : Run A := fun h => Some (a, h).

Definition bind {A B : Type} (m : Run A) (k : A -> Run B) : Run B :=
  fun h =>
    match m h with
    | Some (a, h') => k a h'
    | None => None
    end.

Definition panic {A : Type} : Run A := fun _ => None.

Declare Scope run_scope.
Delimit Scope run_scope with run.
Notation "x <- m ;; k" := (bind m (fun x => k))
  (at level 61, m at next level, right associativity) : run_scope.
Open Scope run_scope.

(** Allocation of a fresh object. *)
Definition new (o : Object) : Run Ptr :=
  fun h => Some (List.length h, (h ++ [o])%list).

Definition load (p : Ptr) : Run Object :=
  fun h =>
    match nth_error h p with
    | Some o => Some (o, h)
    | None => None
    end.

Definition update (h : heap) (p : Ptr) (o : Object) : heap :=
  (firstn p h ++ o :: skipn (S p) h)%list.

Definition store (p : Ptr) (o : Object) : Run unit :=
  fun h =>
    match nth_error h p with
    | Some _ => Some (tt, update h p o)
    | None => None
    end.

(** What an object holds when it is read as a table or as an array of
    elements of one type. *)
Definition View (X : Type) : Type := Object -> option (list X).

Definition entries : View (string * Interface) :=
  fun o => match o with OMap table => Some table | _ => None end.

Definition interfaces : View Interface :=
  fun o => match o with OInterfaces array => Some array | _ => None end.

Definition strings : View string :=
  fun o => match o with OStrings array => Some array | _ => None end.

Definition conditions : View Condition :=
  fun o => match o with OConditions array => Some array | _ => None end.

Definition rules : View Rule :=
  fun o => match o with ORules array => Some array | _ => None end.

(** The elements a map or slice value holds now: none when it is nil. *)
Definition elements {X : Type} (view : View X) (r : Ref) : Run (list X) :=
  match r with
  | None => ret []
  | Some p =>
      o <- load p ;;
      match view o with
      | Some l => ret l
      | None => panic
      end
  end.

(** [len(r)]. *)
Definition len {X : Type} (view : View X) (r : Ref) : Run Z :=
  l <- elements view r ;; ret (len_slice l).

(** The element a [range] over [r] yields at its iteration [i]. *)
Definition index {X : Type} (view : View X) (r : Ref) (i : nat) : Run X :=
  l <- elements view r ;;
  match nth_error l i with
  | Some x => ret x
  | None => panic
  end.

(** [strings.Join(r, sep)]. *)
Definition Join (r : Ref) (sep : string) : Run string :=
  elems <- elements strings r ;; ret (strings_Join elems sep).

Fixpoint for_return {R : Type} (body : nat -> Run (option R))
  (indices : list nat) : Run (option R) :=
  match indices with
  | [] => ret None
  | i :: rest =>
      r <- body i ;;
      match r with
      | Some r => ret (Some r)
      | None => for_return body rest
      end
  end.

Fixpoint for_fold {S : Type} (step : S -> nat -> Run S) (indices : list nat)
  (st : S) : Run S :=
  match indices with
  | [] => ret st
  | i :: rest => st' <- step st i ;; for_fold step rest st'
  end.

(** [for _, x := range r { body }] with [return] inside the body.  The
    range expression is evaluated once, which fixes the number of
    iterations; each element is read from the heap when its iteration
    starts, so a store the body made is seen by the iterations after
    it. *)
Definition range_return {X R : Type} (view : View X) (r : Ref)
  (body : X -> Run (option R)) : Run (option R) :=
  l <- elements view r ;;
  for_return (fun i => x <- index view r i ;; body x)
    (seq 0 (List.length l)).

(** A [for ... range] loop that updates local variables [st]. *)
Definition range_fold {X S : Type} (view : View X) (r : Ref)
  (step : S -> X -> Run S) (st : S) : Run S :=
  l <- elements view r ;;
  for_fold (fun st i => x <- index view r i ;; step st x)
    (seq 0 (List.length l)) st.

(** A [for ... range] loop run for its effects. *)
Definition range {X : Type} (view : View X) (r : Ref) (body : X -> Run unit)
  : Run unit :=
  range_fold view r (fun _ x => body x) tt.

Definition load_Config (p : Ptr) : Run Config :=
  o <- load p ;;
  match o with OConfig c => ret c | _ => panic end.

Definition load_Scanner (p : Ptr) : Run Scanner :=
  o <- load p ;;
  match o with OScanner s => ret s | _ => panic end.

Definition load_Finding (p : Ptr) : Run Finding :=
  o <- load p ;;
  match o with OFinding f => ret f | _ => panic end.

Definition load_interfaces (p : Ptr) : Run (list Interface) :=
  o <- load p ;;
  match o with OInterfaces array => ret array | _ => panic end.

Definition load_builder (p : Ptr) : Run string :=
  o <- load p ;;
  match o with OBuilder content => ret content | _ => panic end.

(** [*values = append( *values, val)]: the slice variable and its array
    are one object, which grows in place. *)
Definition append (values : Ptr) (val : Interface) : Run unit :=
  vs <- load_interfaces values ;;
  store values (OInterfaces (vs ++ [val])).

(** [content.WriteString(s)]. *)
Definition WriteString (content : Ptr) (s : string) : Run unit :=
  written <- load_builder content ;;
  store content (OBuilder (written ++ s)).

(** *** parser.go *)

(** [stack] is the number of nested calls the stack has room for. *)
Fixpoint hasFieldRecursive (stack : nat) (data : Ref) (field : string)
  : Run bool :=
  match stack with
  | O => panic
  | S stack =>
      r <- range_return entries data
             (fun '(key, val) =>
                if key =? field then ret (Some true)
                else
                  match val with
                  | IMap nested =>
                      found <- hasFieldRecursive stack nested field ;;
                      ret (if found then Some true else None)
                  | _ => ret None
                  end) ;;
      ret (or_else r false)
  end.

Definition HasField (stack : nat) (c : Ptr) (field : string) : Run bool :=
  cfg <- load_Config c ;;
  hasFieldRecursive stack (Config_Data cfg) field.

Fixpoint collectFieldValues (stack : nat) (data : Ref) (field : string)
  (values : Ptr) : Run unit :=
  match stack with
  | O => panic
  | S stack =>
      range entries data
        (fun '(key, val) =>
           _ <- (if key =? field then append values val else ret tt) ;;
           match val with
           | IMap nested => collectFieldValues stack nested field values
           | _ => ret tt
           end)
  end.

(** The slice returned is the one the walk appended to. *)
Definition GetAllFieldValues (stack : nat) (c : Ptr) (field : string)
  : Run Ref :=
  cfg <- load_Config c ;;
  values <- new (OInterfaces []) ;;
  _ <- collectFieldValues stack (Config_Data cfg) field values ;;
  ret (Some values).

Fixpoint collectContent (stack : nat) (data : Ref) (content : Ptr)
  : Run unit :=
  match stack with
  | O => panic
  | S stack =>
      range entries data
        (fun '(_, val) =>
           match val with
           | IString v =>
               _ <- WriteString content v ;; WriteString content " "
           | IMap v => collectContent stack v content
           | ISlice v =>
               range interfaces v
                 (fun item =>
                    match item with
                    | IString str =>
                        _ <- WriteString content str ;;
                        WriteString content " "
                    | _ => ret tt
                    end)
           | _ => ret tt
           end)
  end.

Definition GetAllContent (stack : nat) (c : Ptr) : Run string :=
  cfg <- load_Config c ;;
  content <- new (OBuilder "") ;;
  _ <- collectContent stack (Config_Data cfg) content ;;
  load_builder content.

(** *** rules.go *)

Definition toFloat (val : Interface) : option float :=
  match val with
  | IFloat64 v => Some v
  | IFloat32 v => Some v
  | IInt v => Some (float64_of_Z v)
  | IInt64 v => Some (float64_of_Z v)
  | _ => None
  end.

Definition checkSingleNumeric_num (param : string) (check : Check)
  (num : float) : option (bool * string) :=
  if (f64_ne (Check_Min check) 0 || f64_ne (Check_Max check) 0)
     && (f64_lt num (Check_Min check) || f64_gt num (Check_Max check))
  then Some (true, param)
  else if (Check_Condition check =? "any_value_exceeds")
          && (f64_lt num (Check_Min check) || f64_gt num (Check_Max check))
  then Some (true, param)
  else None.

Definition checkSingleNumeric_body (param : string) (check : Check)
  (val : Interface) : option (bool * string) :=
  match val with
  | IFloat64 v => checkSingleNumeric_num param check v
  | IFloat32 v => checkSingleNumeric_num param check v
  | IInt v => checkSingleNumeric_num param check (float64_of_Z v)
  | IInt64 v => checkSingleNumeric_num param check (float64_of_Z v)
  | _ => None
  end.

Definition checkSingleNumeric (stack : nat) (param : string) (check : Check)
  (config : Ptr) : Run (bool * string) :=
  values <- GetAllFieldValues stack config param ;;
  n <- len interfaces values ;;
  if (n =? 0)%Z then ret (false, "")
  else
    r <- range_return interfaces values
           (fun val => ret (checkSingleNumeric_body param check val)) ;;
    ret (or_else r (false, "")).

Definition checkNumericRange (stack : nat) (rule : Rule) (config : Ptr)
  : Run (bool * string) :=
  let check := Rule_Check rule in
  if negb (Check_Parameter check =? "") then
    checkSingleNumeric stack (Check_Parameter check) check config
  else
    n <- len strings (Check_Parameters check) ;;
    r <- (if (n >? 0)%Z then
            range_return strings (Check_Parameters check)
              (fun param =>
                 r <- checkSingleNumeric stack param check config ;;
                 ret (checkNumericRange_body r))
          else ret None) ;;
    ret (or_else r (false, "")).

Definition checkMissingField (stack : nat) (rule : Rule) (config : Ptr)
  : Run (bool * string) :=
  let field := Check_Field (Rule_Check rule) in
  present <- HasField stack config field ;;
  ret (if negb present then (true, field) else (false, "")).

Definition checkMissingFields (stack : nat) (rule : Rule) (config : Ptr)
  : Run (bool * string) :=
  r <- range_return strings (Check_Fields (Rule_Check rule))
         (fun field =>
            present <- HasField stack config field ;;
            ret (if present then Some (false, "") else None)) ;;
  match r with
  | Some r => ret r
  | None =>
      location <- Join (Check_Fields (Rule_Check rule)) ", " ;;
      ret (true, location)
  end.

Definition checkFieldExists (stack : nat) (rule : Rule) (config : Ptr)
  : Run (bool * string) :=
  let field := Check_Field (Rule_Check rule) in
  present <- HasField stack config field ;;
  ret (if present then (true, field) else (false, "")).

Definition checkConditionalMissing (stack : nat) (rule : Rule) (config : Ptr)
  : Run (bool * string) :=
  r <- range_return strings (Check_HasAny (Rule_Check rule))
         (fun field =>
            present <- HasField stack config field ;;
            ret (if present then Some true else None)) ;;
  let hasAny := or_else r false in
  if negb hasAny then ret (false, "")
  else
    r <- range_return strings (Check_MissingAll (Rule_Check rule))
           (fun field =>
              present <- HasField stack config field ;;
              ret (if present then Some (false, "") else None)) ;;
    match r with
    | Some r => ret r
    | None =>
        location <- Join (Check_MissingAll (Rule_Check rule)) ", " ;;
        ret (true, location)
    end.

(** One iteration of the loop of [checkStopSequenceComplexity]. *)
Definition checkStopSequence_body (field : string) (check : Check)
  (val : Interface) : Run (option (bool * string)) :=
  match val with
  | ISlice v =>
      exceeded <- (if (Check_MaxSequences check >? 0)%Z then
                     n <- len interfaces v ;;
                     ret (n >? Check_MaxSequences check)%Z
                   else ret false) ;;
      if exceeded then ret (Some (true, field))
      else if (Check_MaxLength check >? 0)%Z then
        range_return interfaces v
          (fun item =>
             ret match item with
                 | IString str =>
                     if (len_string str >? Check_MaxLength check)%Z
                     then Some (true, field) else None
                 | _ => None
                 end)
      else ret None
  | IString v =>
      ret (if (Check_MaxLength check >? 0)%Z
              && (len_string v >? Check_MaxLength check)%Z
           then Some (true, field)
           else None)
  | _ => ret None
  end.

Definition checkStopSequenceComplexity (stack : nat) (rule : Rule)
  (config : Ptr) : Run (bool * string) :=
  let field := Check_Field (Rule_Check rule) in
  values <- GetAllFieldValues stack config field ;;
  r <- range_return interfaces values
         (checkStopSequence_body field (Rule_Check rule)) ;;
  ret (or_else r (false, "")).

Definition finding_of (rule : Rule) (location : string) : Finding :=
  {| Finding_RuleID := Rule_ID rule;
     Finding_Name := Rule_Name rule;
     Finding_Severity := Rule_Severity rule;
     Finding_Category := Rule_Category rule;
     Finding_Description := Rule_Description rule;
     Finding_Location := location;
     Finding_Recommendation := Rule_Recommendation rule;
     Finding_References := Rule_References rule |}.

Definition checkCombinedConditions_step (st : Z * list string)
  (condition : Condition) (met : bool) : Z * list string :=
  let '(metCount, locations) := st in
  if met
  then ((metCount + 1)%Z, (locations ++ [Condition_Parameter condition])%list)
  else (metCount, locations).

Section Evaluator.

Variable regexp_MatchString : string -> string -> bool.
Variable fmt_Sprintv : Value -> string.

(** The value an [interface{}] reaches, read off the heap through its
    references. *)
Fixpoint read_value (stack : nat) (val : Interface) : Run Value :=
  match stack with
  | O => panic
  | S stack =>
      match val with
      | INil => ret VNil
      | IBool b => ret (VBool b)
      | IString s => ret (VString s)
      | IInt n => ret (VInt n)
      | IInt64 n => ret (VInt64 n)
      | IFloat32 f => ret (VFloat32 f)
      | IFloat64 f => ret (VFloat64 f)
      | ISlice r =>
          items <- range_fold interfaces r
                     (fun read item =>
                        v <- read_value stack item ;;
                        ret (read ++ [v])%list)
                     [] ;;
          ret (VSeq items)
      | IMap r =>
          table <- range_fold entries r
                     (fun read '(key, item) =>
                        v <- read_value stack item ;;
                        ret (read ++ [(key, v)])%list)
                     [] ;;
          ret (VMap (Entries_of_list table))
      end
  end.

(** [fmt.Sprintf("%v", val)] formats the value [val] reaches. *)
Definition Sprintv (stack : nat) (val : Interface) : Run string :=
  v <- read_value stack val ;; ret (fmt_Sprintv v).

Definition checkPatternMatch (stack : nat) (rule : Rule) (config : Ptr)
  : Run (bool * string) :=
  let patterns := Check_Patterns (Rule_Check rule) in
  n <- len strings (Rule_Fields rule) ;;
  if (n >? 0)%Z then
    r <- range_return strings (Rule_Fields rule)
           (fun field =>
              values <- GetAllFieldValues stack config field ;;
              range_return interfaces values
                (fun val =>
                   match val with
                   | IString str =>
                       range_return strings patterns
                         (fun pattern =>
                            ret (if regexp_MatchString pattern str
                                 then Some (true, field) else None))
                   | _ => ret None
                   end)) ;;
    ret (or_else r (false, ""))
  else
    content <- GetAllContent stack config ;;
    r <- range_return strings patterns
           (fun pattern =>
              ret (if regexp_MatchString pattern content
                   then Some (true, "config content") else None)) ;;
    ret (or_else r (false, "")).

(** One iteration of the loop of [checkCondition]. *)
Definition checkCondition_body (stack : nat) (condition : Condition)
  (val : Interface) : Run (option bool) :=
  let operator := Condition_Operator condition in
  if operator =? "greater_than" then
    ret match toFloat val with
        | Some num =>
            match toFloat (Condition_Value condition) with
            | Some threshold => if f64_gt num threshold then Some true else None
            | None => None
            end
        | None => None
        end
  else if operator =? "not_equals" then
    valStr <- Sprintv stack val ;;
    wanted <- Sprintv stack (Condition_Value condition) ;;
    ret (if negb (valStr =? wanted) then Some true else None)
  else if operator =? "equals" then
    valStr <- Sprintv stack val ;;
    wanted <- Sprintv stack (Condition_Value condition) ;;
    ret (if valStr =? wanted then Some true else None)
  else ret None.

Definition checkCondition (stack : nat) (condition : Condition)
  (config : Ptr) : Run bool :=
  values <- GetAllFieldValues stack config (Condition_Parameter condition) ;;
  n <- len interfaces values ;;
  if (n =? 0)%Z then ret false
  else
    r <- range_return interfaces values (checkCondition_body stack condition) ;;
    ret (or_else r false).

Definition checkCombinedConditions (stack : nat) (rule : Rule) (config : Ptr)
  : Run (bool * string) :=
  st <- range_fold conditions (Check_Conditions (Rule_Check rule))
          (fun st condition =>
             met <- checkCondition stack condition config ;;
             ret (checkCombinedConditions_step st condition met))
          (0%Z, []) ;;
  let '(metCount, locations) := st in
  let require := Check_Require (Rule_Check rule) in
  if require =? "all" then
    n <- len conditions (Check_Conditions (Rule_Check rule)) ;;
    ret (if (metCount =? n)%Z
         then (true, strings_Join locations ", ") else (false, ""))
  else if require =? "at_least_two" then
    ret (if (metCount >=? 2)%Z
         then (true, strings_Join locations ", ") else (false, ""))
  else if require =? "both" then
    ret (if (metCount =? 2)%Z
         then (true, strings_Join locations ", ") else (false, ""))
  else if require =? "any" then
    ret (if (metCount >? 0)%Z
         then (true, strings_Join locations ", ") else (false, ""))
  else ret (false, "").

Definition checkFieldCheck (stack : nat) (rule : Rule) (config : Ptr)
  : Run (bool * string) :=
  r <- range_return strings (Check_Fields (Rule_Check rule))
         (fun field =>
            values <- GetAllFieldValues stack config field ;;
            range_return interfaces values
              (fun val =>
                 valStr <- Sprintv stack val ;;
                 range_return interfaces (Check_Values (Rule_Check rule))
                   (fun checkVal =>
                      wanted <- Sprintv stack checkVal ;;
                      ret (if valStr =? wanted
                           then Some (true, field) else None)))) ;;
  ret (or_else r (false, "")).

(** A case of the switch of [CheckRule]. *)
Definition case (m : Run (bool * string)) : Run (option (bool * string)) :=
  r <- m ;; ret (Some r).

(** The [*Finding] returned is the address of a fresh object, [None]
    is [nil]. *)
Definition CheckRule (stack : nat) (rule : Rule) (config : Ptr)
  : Run (option Ptr) :=
  let type := Check_Type (Rule_Check rule) in
  r <- (if type =? "pattern_match"
        then case (checkPatternMatch stack rule config)
        else if type =? "numeric_range"
        then case (checkNumericRange stack rule config)
        else if type =? "missing_field"
        then case (checkMissingField stack rule config)
        else if type =? "missing_fields"
        then case (checkMissingFields stack rule config)
        else if type =? "field_exists"
        then case (checkFieldExists stack rule config)
        else if type =? "combined_conditions"
        then case (checkCombinedConditions stack rule config)
        else if type =? "conditional_missing"
        then case (checkConditionalMissing stack rule config)
        else if type =? "field_check"
        then case (checkFieldCheck stack rule config)
        else if type =? "stop_sequence_complexity"
        then case (checkStopSequenceComplexity stack rule config)
        else ret None) ;;
  match r with
  | None => ret None
  | Some (violated, location) =>
      if negb violated then ret None
      else
        finding <- new (OFinding (finding_of rule location)) ;;
        ret (Some finding)
  end.

Definition ScanConfig (stack : nat) (s : Ptr) (config : Ptr)
  : Run (list Finding) :=
  sc <- load_Scanner s ;;
  range_fold rules (RulesFile_Rules (Scanner_rules sc))
    (fun findings rule =>
       finding <- CheckRule stack rule config ;;
       match finding with
       | Some p =>
           f <- load_Finding p ;;
           ret (findings ++ [f])%list
       | None => ret findings
       end)
    [].

End Evaluator.

End Heap.

(* ================================================================== *)
(** ** Scanning files (scanner.go, main.go) *)
(* ================================================================== *)

(** A Go result [(a, err)]: [Err msg] is a non-nil error whose
    [Error()] is [msg]. *)
Inductive result (A : Type) : Type :=
| Ok (a : A)
| Err (msg : string).

Arguments Ok {A} a.
Arguments Err {A} msg.

Record ScanResult : Type := mkScanResult {
  ScanResult_File : string;
  ScanResult_Findings : list Finding
}.

(** The flags [runScan] reads from its arguments. *)
Record Flags : Type := mkFlags {
  Flags_rulesFile : string;
  Flags_outputFormat : string;
  Flags_configFiles : list string
}.

(** The report [runScan] asks for. *)
Inductive Output : Type :=
| outputJSON (results : list ScanResult)
| outputText (results : list ScanResult).

(** What a run leaves behind: the text written to standard error, the
    report asked for, and the exit code. *)
Record Outcome : Type := mkOutcome {
  Outcome_stderr : string;
  Outcome_output : option Output;
  Outcome_exit : Z
}.

Definition newline : string := String (ascii_of_nat 10) "".

(** A message on standard error followed by [os.Exit(1)]. *)
Definition exit_with_error (message : string) : Outcome :=
  {| Outcome_stderr := message; Outcome_output := None; Outcome_exit := 1 |}.

(** The flag loop of [runScan]: [rest = []] after a flag is the test
    [i+1 >= len(args)], and skipping the value is the [i++]. *)
Fixpoint runScan_flags (args : list string) (flags : Flags) : result Flags :=
  match args with
  | [] => Ok flags
  | arg :: rest =>
      if arg =? "--rules" then
        match rest with
        | [] => Err ("Error: --rules requires a file path" ++ newline)
        | value :: rest' =>
            runScan_flags rest'
              (mkFlags value (Flags_outputFormat flags)
                 (Flags_configFiles flags))
        end
      else if arg =? "--format" then
        match rest with
        | [] =>
            Err ("Error: --format requires a value (text or json)" ++ newline)
        | value :: rest' =>
            runScan_flags rest'
              (mkFlags (Flags_rulesFile flags) value
                 (Flags_configFiles flags))
        end
      else
        runScan_flags rest
          (mkFlags (Flags_rulesFile flags) (Flags_outputFormat flags)
             (Flags_configFiles flags ++ [arg])%list)
  end.

Section Orchestration.

Variable regexp_MatchString : string -> string -> bool.
Variable fmt_Sprintv : Value -> string.

(** [ParseConfigFile] and [NewScanner] read files and call the JSON, YAML
    and TOML decoders. *)
Variable ParseConfigFile : string -> result Config.
Variable NewScanner : string -> result Scanner.

(** [encoder.Encode(output)] of [outputJSON], writing to standard
    output. *)
Variable json_Encode : list ScanResult -> result unit.

(** ScanFile scans a configuration file. *)
Definition ScanFile (s : Scanner) (filePath : string) : result ScanResult :=
  match ParseConfigFile filePath with
  | Err err => Err ("failed to parse config file: " ++ err)
  | Ok config =>
      Ok {| ScanResult_File := filePath;
            ScanResult_Findings :=
              fold_left
                (fun findings rule =>
                   ScanConfig_step findings
                     (CheckRule regexp_MatchString fmt_Sprintv rule config))
                (RulesFile_Rules (Scanner_rules s)) [] |}
  end.

(** The loop of [runScan] over the config files, on its state
    [(allResults, hasIssues)]; [Err] carries what is written to standard
    error before [os.Exit(1)]. *)
Fixpoint runScan_files (s : Scanner) (configFiles : list string)
  (allResults : list ScanResult) (hasIssues : bool)
  : result (list ScanResult * bool) :=
  match configFiles with
  | [] => Ok (allResults, hasIssues)
  | configFile :: rest =>
      match ScanFile s configFile with
      | Err err =>
          Err ("Error scanning " ++ configFile ++ ": " ++ err ++ newline)
      | Ok result =>
          runScan_files s rest (allResults ++ [result])%list
            (if (len_slice (ScanResult_Findings result) >? 0)%Z then true
             else hasIssues)
      end
  end.

(** [runScan], on [args = os.Args[2:]].  The call of a report writer is
    kept as the request [Outcome_output]; of what the writers do only
    the failure of the JSON encoder, which ends the run, is modelled. *)
Definition runScan (args : list string) : Outcome :=
  if (len_slice args =? 0)%Z then
    exit_with_error
      ("Error: No config files specified" ++ newline
       ++ "Usage: paramguard scan <config-file> [config-file...]" ++ newline)
  else
    match runScan_flags args (mkFlags "" "" []) with
    | Err message => exit_with_error message
    | Ok flags =>
        if (len_slice (Flags_configFiles flags) =? 0)%Z then
          exit_with_error ("Error: No config files specified" ++ newline)
        else
          let rulesFile :=
            if Flags_rulesFile flags =? "" then "rules.yaml"
            else Flags_rulesFile flags in
          let outputFormat :=
            if Flags_outputFormat flags =? "" then "text"
            else Flags_outputFormat flags in
          match NewScanner rulesFile with
          | Err err =>
              exit_with_error ("Error loading rules: " ++ err ++ newline)
          | Ok s =>
              match runScan_files s (Flags_configFiles flags) [] false with
              | Err message => exit_with_error message
              | Ok (allResults, hasIssues) =>
                  if outputFormat =? "json" then
                    match json_Encode allResults with
                    | Err err =>
                        {| Outcome_stderr :=
                             "Error encoding JSON: " ++ err ++ newline;
                           Outcome_output := Some (outputJSON allResults);
                           Outcome_exit := 1 |}
                    | Ok _ =>
                        {| Outcome_stderr := "";
                           Outcome_output := Some (outputJSON allResults);
                           Outcome_exit := if hasIssues then 1 else 0 |}
                    end
                  else
                    {| Outcome_stderr := "";
                       Outcome_output := Some (outputText allResults);
                       Outcome_exit := if hasIssues then 1 else 0 |}
              end
          end
    end.

End Orchestration.

(* ================================================================== *)
(** ** Vocabulary of the properties *)
(* ================================================================== *)

(** [name] is a key of the root mapping or of a mapping reached from it
    through mapping values only. *)
Inductive KeyInMaps (name : string) : Entries -> Prop :=
| KeyInMaps_here : forall val rest, KeyInMaps name (ECons name val rest)
| KeyInMaps_nested : forall key nested rest,
    KeyInMaps name nested -> KeyInMaps name (ECons key (VMap nested) rest)
| KeyInMaps_later : forall key val rest,
    KeyInMaps name rest -> KeyInMaps name (ECons key val rest).

(** [name] is a key of some mapping of the tree, at any depth, a mapping
    that is an element of a sequence included. *)
Inductive KeyInValue (name : string) : Value -> Prop :=
| KeyInValue_map : forall m, KeyInTree name m -> KeyInValue name (VMap m)
| KeyInValue_seq : forall items item,
    In item items -> KeyInValue name item -> KeyInValue name (VSeq items)
with KeyInTree (name : string) : Entries -> Prop :=
| KeyInTree_here : forall val rest, KeyInTree name (ECons name val rest)
| KeyInTree_below : forall key val rest,
    KeyInValue name val -> KeyInTree name (ECons key val rest)
| KeyInTree_later : forall key val rest,
    KeyInTree name rest -> KeyInTree name (ECons key val rest).


Definition is_string (val : Value) : bool :=
  match val with
  | VString _ => true
  | _ => false
  end.

Definition is_numeric (val : Value) : bool :=
  match toFloat val with
  | Some _ => true
  | None => false
  end.

(** The parameters a numeric_range check resolves to. *)
Definition numeric_targets (check : Check) : list string :=
  if Check_Parameter check =? "" then Check_Parameters check
  else [Check_Parameter check].

(** A candidate that makes a stop_sequence_complexity check violate. *)
Definition too_complex (check : Check) (val : Value) : Prop :=
  match val with
  | VSeq items =>
      (0 < Check_MaxSequences check < len_slice items)%Z
      \/ exists str, In (VString str) items
                     /\ (0 < Check_MaxLength check < len_string str)%Z
  | VString str => (0 < Check_MaxLength check < len_string str)%Z
  | _ => False
  end.

(** A candidate satisfies a sub-condition of a combined_conditions check,
    under the rendering [Sprintv] of values. *)
Definition candidate_satisfies (Sprintv : Value -> string)
  (condition : Condition) (val : Value) : Prop :=
  (Condition_Operator condition = "greater_than"
   /\ exists num threshold,
        toFloat val = Some num
        /\ toFloat (Condition_Value condition) = Some threshold
        /\ f64_gt num threshold = true)
  \/ (Condition_Operator condition = "not_equals"
      /\ Sprintv val <> Sprintv (Condition_Value condition))
  \/ (Condition_Operator condition = "equals"
      /\ Sprintv val = Sprintv (Condition_Value condition)).

(** The aggregation policy: [k] conditions satisfied out of [n]. *)
Definition aggregate (require : string) (k n : nat) : Prop :=
  (require = "all" /\ k = n)
  \/ (require = "at_least_two" /\ 2 <= k)
  \/ (require = "both" /\ k = 2)
  \/ (require = "any" /\ 1 <= k).

(** Every object of [h] is still in [h'], at the same address and
    unchanged. *)
Definition preserved (h h' : Heap.heap) : Prop :=
  forall p o, nth_error h p = Some o -> nth_error h' p = Some o.

(** [h'] is [h] followed by the objects allocated since. *)
Definition extends (h h' : Heap.heap) : Prop :=
  exists fresh, h' = (h ++ fresh)%list.

(** In [h] the map or slice value [r] holds the elements [l]. *)
Definition holds {X : Type} (view : Heap.View X) (h : Heap.heap)
  (r : Heap.Ref) (l : list X) : Prop :=
  match r with
  | None => l = []
  | Some p => exists o, nth_error h p = Some o /\ view o = Some l
  end.

(** In [h] the [interface{}] reaches the value [val]: its scalars are
    those of [val], its slices and maps are references to objects of
    [h] that hold the items and the entries of [val] in order. *)
Inductive repr_value (h : Heap.heap) : Heap.Interface -> Value -> Prop :=
| repr_VNil : repr_value h Heap.INil VNil
| repr_VBool : forall b, repr_value h (Heap.IBool b) (VBool b)
| repr_VString : forall s, repr_value h (Heap.IString s) (VString s)
| repr_VInt : forall n, repr_value h (Heap.IInt n) (VInt n)
| repr_VInt64 : forall n, repr_value h (Heap.IInt64 n) (VInt64 n)
| repr_VFloat32 : forall f, repr_value h (Heap.IFloat32 f) (VFloat32 f)
| repr_VFloat64 : forall f, repr_value h (Heap.IFloat64 f) (VFloat64 f)
| repr_VSeq : forall r array items,
    holds Heap.interfaces h r array ->
    repr_items h array items ->
    repr_value h (Heap.ISlice r) (VSeq items)
| repr_VMap : forall r table m,
    holds Heap.entries h r table ->
    repr_entries h table m ->
    repr_value h (Heap.IMap r) (VMap m)
with repr_items (h : Heap.heap) : list Heap.Interface -> list Value -> Prop :=
| repr_items_nil : repr_items h [] []
| repr_items_cons : forall item val array items,
    repr_value h item val ->
    repr_items h array items ->
    repr_items h (item :: array) (val :: items)
with repr_entries (h : Heap.heap)
  : list (string * Heap.Interface) -> Entries -> Prop :=
| repr_ENil : repr_entries h [] ENil
| repr_ECons : forall key item val table rest,
    repr_value h item val ->
    repr_entries h table rest ->
    repr_entries h ((key, item) :: table) (ECons key val rest).

Scheme repr_value_ind' := Induction for repr_value Sort Prop
  with repr_items_ind' := Induction for repr_items Sort Prop
  with repr_entries_ind' := Induction for repr_entries Sort Prop.

Combined Scheme repr_mutind
  from repr_value_ind', repr_items_ind', repr_entries_ind'.

Definition repr_strings (h : Heap.heap) (r : Heap.Ref) (l : list string)
  : Prop :=
  holds Heap.strings h r l.

Definition repr_values (h : Heap.heap) (r : Heap.Ref) (l : list Value)
  : Prop :=
  exists array, holds Heap.interfaces h r array /\ repr_items h array l.

Definition repr_condition (h : Heap.heap) (hc : Heap.Condition)
  (c : Condition) : Prop :=
  Heap.Condition_Parameter hc = Condition_Parameter c
  /\ Heap.Condition_Operator hc = Condition_Operator c
  /\ repr_value h (Heap.Condition_Value hc) (Condition_Value c).

Definition repr_conditions (h : Heap.heap) (r : Heap.Ref)
  (l : list Condition) : Prop :=
  exists array,
    holds Heap.conditions h r array /\ Forall2 (repr_condition h) array l.

Definition repr_check (h : Heap.heap) (hc : Heap.Check) (c : Check) : Prop :=
  Heap.Check_Type hc = Check_Type c
  /\ Heap.Check_Parameter hc = Check_Parameter c
  /\ repr_strings h (Heap.Check_Parameters hc) (Check_Parameters c)
  /\ Heap.Check_Field hc = Check_Field c
  /\ repr_strings h (Heap.Check_Fields hc) (Check_Fields c)
  /\ repr_strings h (Heap.Check_Patterns hc) (Check_Patterns c)
  /\ Heap.Check_Operator hc = Check_Operator c
  /\ repr_value h (Heap.Check_Value hc) (Check_Value c)
  /\ Heap.Check_Min hc = Check_Min c
  /\ Heap.Check_Max hc = Check_Max c
  /\ Heap.Check_Condition hc = Check_Condition c
  /\ repr_conditions h (Heap.Check_Conditions hc) (Check_Conditions c)
  /\ Heap.Check_Require hc = Check_Require c
  /\ repr_strings h (Heap.Check_HasAny hc) (Check_HasAny c)
  /\ repr_strings h (Heap.Check_MissingAll hc) (Check_MissingAll c)
  /\ repr_values h (Heap.Check_Values hc) (Check_Values c)
  /\ Heap.Check_MaxSequences hc = Check_MaxSequences c
  /\ Heap.Check_MaxLength hc = Check_MaxLength c.

(** The Rule [hr], whose slices are references into [h], is the rule
    [rule]. *)
Definition repr_rule (h : Heap.heap) (hr : Heap.Rule) (rule : Rule) : Prop :=
  Heap.Rule_ID hr = Rule_ID rule
  /\ Heap.Rule_Name hr = Rule_Name rule
  /\ Heap.Rule_Severity hr = Rule_Severity rule
  /\ Heap.Rule_Category hr = Rule_Category rule
  /\ Heap.Rule_Description hr = Rule_Description rule
  /\ repr_check h (Heap.Rule_Check hr) (Rule_Check rule)
  /\ Heap.Rule_Recommendation hr = Rule_Recommendation rule
  /\ repr_strings h (Heap.Rule_References hr) (Rule_References rule)
  /\ repr_strings h (Heap.Rule_Fields hr) (Rule_Fields rule).

Definition repr_finding (h : Heap.heap) (hf : Heap.Finding) (f : Finding)
  : Prop :=
  Heap.Finding_RuleID hf = Finding_RuleID f
  /\ Heap.Finding_Name hf = Finding_Name f
  /\ Heap.Finding_Severity hf = Finding_Severity f
  /\ Heap.Finding_Category hf = Finding_Category f
  /\ Heap.Finding_Description hf = Finding_Description f
  /\ Heap.Finding_Location hf = Finding_Location f
  /\ Heap.Finding_Recommendation hf = Finding_Recommendation f
  /\ repr_strings h (Heap.Finding_References hf) (Finding_References f).

(** The [*Finding] a call returned: [nil] for no Finding, else the
    address of an object that is the Finding. *)
Definition repr_outcome (h : Heap.heap) (o : option Heap.Ptr)
  (finding : option Finding) : Prop :=
  match o, finding with
  | None, None => True
  | Some p, Some f =>
      exists hf, nth_error h p = Some (Heap.OFinding hf) /\ repr_finding h hf f
  | _, _ => False
  end.

(** The object at [config] is a Config whose [Data] is the root of the
    tree [Config_Data cfg]. *)
Definition repr_config (h : Heap.heap) (config : Heap.Ptr) (cfg : Config)
  : Prop :=
  exists hc table,
    nth_error h config = Some (Heap.OConfig hc)
    /\ Heap.Config_FilePath hc = Config_FilePath cfg
    /\ holds Heap.entries h (Heap.Config_Data hc) table
    /\ repr_entries h table (Config_Data cfg).

(** The object at [s] is a Scanner whose rules are those of [sc]. *)
Definition repr_scanner (h : Heap.heap) (s : Heap.Ptr) (sc : Scanner)
  : Prop :=
  exists hs array,
    nth_error h s = Some (Heap.OScanner hs)
    /\ Heap.RulesFile_Version (Heap.Scanner_rules hs)
       = RulesFile_Version (Scanner_rules sc)
    /\ holds Heap.rules h (Heap.RulesFile_Rules (Heap.Scanner_rules hs)) array
    /\ Forall2 (repr_rule h) array (RulesFile_Rules (Scanner_rules sc))
    /\ repr_strings h (Heap.RulesFile_Categories (Heap.Scanner_rules hs))
         (RulesFile_Categories (Scanner_rules sc)).

(** How deep the sequences and mappings of a value nest. *)
Fixpoint depth (val : Value) : nat :=
  match val with
  | VSeq items => S (list_max (map depth items))
  | VMap m => S (depth_entries m)
  | _ => 0
  end
with depth_entries (m : Entries) : nat :=
  match m with
  | ENil => 0
  | ECons _ val rest => Nat.max (depth val) (depth_entries rest)
  end.

(** How deep the values nest that a rule has formatted: those of its
    conditions and its forbidden values. *)
Definition depth_rule (rule : Rule) : nat :=
  Nat.max
    (list_max
       (map (fun c => depth (Condition_Value c))
          (Check_Conditions (Rule_Check rule))))
    (list_max (map depth (Check_Values (Rule_Check rule)))).

(** Run from [h] or from [h] with more objects allocated, the
    computation [m] does not panic, leaves every object it found where
    and as it was, and answers some [a] with [Q a] of the heap it
    leaves. *)
Definition reads (h : Heap.heap) {A : Type} (m : Heap.Run A)
  (Q : A -> Heap.heap -> Prop) : Prop :=
  forall h1, extends h h1 ->
    exists a h2, m h1 = Some (a, h2) /\ extends h1 h2 /\ Q a h2.

(** The same, with the answer [a]. *)
Definition returns (h : Heap.heap) {A : Type} (m : Heap.Run A) (a : A)
  : Prop :=
  reads h m (fun a' _ => a' = a).

(** [val] is stored under the key [name] in the root mapping or in a
    mapping reached from it through mapping values only. *)
Inductive StoredUnder (name : string) (val : Value) : Entries -> Prop :=
| StoredUnder_here : forall rest, StoredUnder name val (ECons name val rest)
| StoredUnder_nested : forall key nested rest,
    StoredUnder name val nested ->
    StoredUnder name val (ECons key (VMap nested) rest)
| StoredUnder_later : forall key v rest,
    StoredUnder name val rest -> StoredUnder name val (ECons key v rest).

(** The two sequences list the entries of the same tree of mappings, the
    entries of each mapping (the root, or one reached through mapping
    values) in a different order. *)
Inductive Reorder : Entries -> Entries -> Prop :=
| Reorder_refl : forall m, Reorder m m
| Reorder_swap : forall k1 v1 k2 v2 rest,
    Reorder (ECons k1 v1 (ECons k2 v2 rest)) (ECons k2 v2 (ECons k1 v1 rest))
| Reorder_rest : forall key val m m',
    Reorder m m' -> Reorder (ECons key val m) (ECons key val m')
| Reorder_nested : forall key m m' rest,
    Reorder m m' -> Reorder (ECons key (VMap m) rest) (ECons key (VMap m') rest)
| Reorder_trans : forall m1 m2 m3,
    Reorder m1 m2 -> Reorder m2 m3 -> Reorder m1 m3.

(** Two candidates are the same up to the order of visit: equal, or two
    mappings that list the same tree in two orders. *)
Inductive SameCandidate : Value -> Value -> Prop :=
| SameCandidate_eq : forall val, SameCandidate val val
| SameCandidate_map : forall m m',
    Reorder m m' -> SameCandidate (VMap m) (VMap m').

(** Two slices of candidates are the same up to their own order and to
    the order of visit inside each candidate: some rearrangement of the
    first matches the second position by position. *)
Definition SameCandidates (values values' : list Value) : Prop :=
  exists rearranged,
    Permutation values rearranged
    /\ Forall2 SameCandidate rearranged values'.

(** The keys of a mapping, in iteration order. *)
Fixpoint keys (m : Entries) : list string :=
  match m with
  | ENil => []
  | ECons key _ rest => key :: keys rest
  end.

(** A numeric candidate a numeric_range check reports. *)
Definition out_of_range (check : Check) (val : Value) : Prop :=
  exists num,
    toFloat val = Some num
    /\ (f64_lt num (Check_Min check) = true
        \/ f64_gt num (Check_Max check) = true)
    /\ (f64_ne (Check_Min check) 0 = true
        \/ f64_ne (Check_Max check) 0 = true
        \/ Check_Condition check = "any_value_exceeds").

(** The check kinds whose predicate asks nothing of the Config but
    [HasField]. *)
Definition presence_types : list string :=
  ["missing_field"; "missing_fields"; "field_exists"; "conditional_missing"].

(** The byte [sep] occurs in [s]. *)
Fixpoint has_byte (sep : ascii) (s : string) : bool :=
  match s with
  | EmptyString => false
  | String c rest => Ascii.eqb c sep || has_byte sep rest
  end.

(** *** Inputs of the examples *)

(** A rule around a check, scoped to [fields]. *)
Definition rule_with (check : Check) (fields : list string) : Rule :=
  {| Rule_ID := "RULE_001"; Rule_Name := "Example"; Rule_Severity := "HIGH";
     Rule_Category := "example"; Rule_Description := "";
     Rule_Check := check; Rule_Recommendation := "";
     Rule_References := []; Rule_Fields := fields |}.

Definition config_of (data : Entries) : Config :=
  {| Config_Data := data; Config_FilePath := "config.json" |}.

(** Go literals of the check kinds, the fields they do not name zero. *)
Definition check_of_type (type : string) : Check :=
  {| Check_Type := type; Check_Parameter := ""; Check_Parameters := [];
     Check_Field := ""; Check_Fields := []; Check_Patterns := [];
     Check_Operator := ""; Check_Value := VNil;
     Check_Min := 0; Check_Max := 0; Check_Condition := "";
     Check_Conditions := []; Check_Require := "";
     Check_HasAny := []; Check_MissingAll := []; Check_Values := [];
     Check_MaxSequences := 0; Check_MaxLength := 0 |}.

Definition numeric_range_check (parameter : string) (min max : float)
  (condition : string) : Check :=
  {| Check_Type := "numeric_range"; Check_Parameter := parameter;
     Check_Parameters := [];
     Check_Field := ""; Check_Fields := []; Check_Patterns := [];
     Check_Operator := ""; Check_Value := VNil;
     Check_Min := min; Check_Max := max; Check_Condition := condition;
     Check_Conditions := []; Check_Require := "";
     Check_HasAny := []; Check_MissingAll := []; Check_Values := [];
     Check_MaxSequences := 0; Check_MaxLength := 0 |}.

Definition field_check_of (type field : string) : Check :=
  {| Check_Type := type; Check_Parameter := ""; Check_Parameters := [];
     Check_Field := field; Check_Fields := []; Check_Patterns := [];
     Check_Operator := ""; Check_Value := VNil;
     Check_Min := 0; Check_Max := 0; Check_Condition := "";
     Check_Conditions := []; Check_Require := "";
     Check_HasAny := []; Check_MissingAll := []; Check_Values := [];
     Check_MaxSequences := 0; Check_MaxLength := 0 |}.

Definition missing_fields_check (fields : list string) : Check :=
  {| Check_Type := "missing_fields"; Check_Parameter := "";
     Check_Parameters := [];
     Check_Field := ""; Check_Fields := fields; Check_Patterns := [];
     Check_Operator := ""; Check_Value := VNil;
     Check_Min := 0; Check_Max := 0; Check_Condition := "";
     Check_Conditions := []; Check_Require := "";
     Check_HasAny := []; Check_MissingAll := []; Check_Values := [];
     Check_MaxSequences := 0; Check_MaxLength := 0 |}.

Definition combined_conditions_check (conditions : list Condition)
  (require : string) : Check :=
  {| Check_Type := "combined_conditions"; Check_Parameter := "";
     Check_Parameters := [];
     Check_Field := ""; Check_Fields := []; Check_Patterns := [];
     Check_Operator := ""; Check_Value := VNil;
     Check_Min := 0; Check_Max := 0; Check_Condition := "";
     Check_Conditions := conditions; Check_Require := require;
     Check_HasAny := []; Check_MissingAll := []; Check_Values := [];
     Check_MaxSequences := 0; Check_MaxLength := 0 |}.

Definition pattern_match_check (patterns : list string) : Check :=
  {| Check_Type := "pattern_match"; Check_Parameter := "";
     Check_Parameters := [];
     Check_Field := ""; Check_Fields := []; Check_Patterns := patterns;
     Check_Operator := ""; Check_Value := VNil;
     Check_Min := 0; Check_Max := 0; Check_Condition := "";
     Check_Conditions := []; Check_Require := "";
     Check_HasAny := []; Check_MissingAll := []; Check_Values := [];
     Check_MaxSequences := 0; Check_MaxLength := 0 |}.

Definition stop_sequence_check (field : string) (maxSequences maxLength : Z)
  : Check :=
  {| Check_Type := "stop_sequence_complexity"; Check_Parameter := "";
     Check_Parameters := [];
     Check_Field := field; Check_Fields := []; Check_Patterns := [];
     Check_Operator := ""; Check_Value := VNil;
     Check_Min := 0; Check_Max := 0; Check_Condition := "";
     Check_Conditions := []; Check_Require := "";
     Check_HasAny := []; Check_MissingAll := []; Check_Values := [];
     Check_MaxSequences := maxSequences; Check_MaxLength := maxLength |}.

(** The configurations and rules of the examples. *)

(** [{"temperature": 1.5}] *)
Definition temperature_config : Config :=
  config_of (ECons "temperature" (VFloat64 1.5) ENil).


(** [{"temperature": 1.5, "top_p": 0.9375, "top_k": 100}] *)
Definition sampling_config : Config :=
  config_of
    (ECons "temperature" (VFloat64 1.5)
       (ECons "top_p" (VFloat64 0.9375) (ECons "top_k" (VInt 100) ENil))).

(** [{"seed": 12345}] *)
Definition seed_config : Config :=
  config_of (ECons "seed" (VInt 12345) ENil).

(** [{"model": "gpt-4"}] *)
Definition model_config : Config :=
  config_of (ECons "model" (VString "gpt-4") ENil).

(** [{"api_key": 12345}] *)
Definition numeric_key_config : Config :=
  config_of (ECons "api_key" (VInt 12345) ENil).

(** [{"api_key": 12345, "backup": {"api_key": "key-one"}}]: an integer
    candidate beside a string one. *)
Definition mixed_key_config : Config :=
  config_of
    (ECons "api_key" (VInt 12345)
       (ECons "backup"
          (VMap (ECons "api_key" (VString "key-one") ENil)) ENil)).

(** [{"backup": {"api_key": "key-one"}}] *)
Definition text_key_config : Config :=
  config_of
    (ECons "backup" (VMap (ECons "api_key" (VString "key-one") ENil)) ENil).

(** [{"messages": [{"role": "user"}]}] *)
Definition messages_config : Config :=
  config_of
    (ECons "messages"
       (VSeq [VMap (ECons "role" (VString "user") ENil)]) ENil).

(** [{"stop": ["END", "STOP"]}] *)
Definition stop_config : Config :=
  config_of (ECons "stop" (VSeq [VString "END"; VString "STOP"]) ENil).

Definition zero_bounds_rule (condition : string) : Rule :=
  rule_with (numeric_range_check "temperature" 0 0 condition) [].

Definition sampling_rule : Rule :=
  rule_with
    (combined_conditions_check
       [ mkCondition "temperature" "greater_than" (VFloat64 0.75);
         mkCondition "top_p" "greater_than" (VFloat64 0.875);
         mkCondition "top_k" "greater_than" (VInt 80) ]
       "at_least_two") [].

Definition stop_rule (maxSequences maxLength : Z) : Rule :=
  rule_with (stop_sequence_check "stop" maxSequences maxLength) [].

Definition api_key_rule : Rule :=
  rule_with (pattern_match_check ["[0-9]+"]) ["api_key"].

Definition example_scanner : Scanner :=
  mkScanner (mkRulesFile "1.0" [sampling_rule; stop_rule 1 0] []).

(** [{"temperature": 1.5, "sampling": {"top_p": 0.9375, "top_k": 100}}] *)
Definition nested_sampling_config : Config :=
  config_of
    (ECons "temperature" (VFloat64 1.5)
       (ECons "sampling"
          (VMap (ECons "top_p" (VFloat64 0.9375)
                   (ECons "top_k" (VInt 100) ENil)))
          ENil)).

(** The Rule with the scalars of [rule], the array of its conditions at
    [conditions] and its other slices nil. *)
Definition heap_rule_of (rule : Rule) (conditions : Heap.Ref) : Heap.Rule :=
  let check := Rule_Check rule in
  {| Heap.Rule_ID := Rule_ID rule;
     Heap.Rule_Name := Rule_Name rule;
     Heap.Rule_Severity := Rule_Severity rule;
     Heap.Rule_Category := Rule_Category rule;
     Heap.Rule_Description := Rule_Description rule;
     Heap.Rule_Check :=
       {| Heap.Check_Type := Check_Type check;
          Heap.Check_Parameter := Check_Parameter check;
          Heap.Check_Parameters := None;
          Heap.Check_Field := Check_Field check;
          Heap.Check_Fields := None;
          Heap.Check_Patterns := None;
          Heap.Check_Operator := Check_Operator check;
          Heap.Check_Value := Heap.INil;
          Heap.Check_Min := Check_Min check;
          Heap.Check_Max := Check_Max check;
          Heap.Check_Condition := Check_Condition check;
          Heap.Check_Conditions := conditions;
          Heap.Check_Require := Check_Require check;
          Heap.Check_HasAny := None;
          Heap.Check_MissingAll := None;
          Heap.Check_Values := None;
          Heap.Check_MaxSequences := Check_MaxSequences check;
          Heap.Check_MaxLength := Check_MaxLength check |};
     Heap.Rule_Recommendation := Rule_Recommendation rule;
     Heap.Rule_References := None;
     Heap.Rule_Fields := None |}.

(** A heap that holds [nested_sampling_config] and [example_scanner]:
    at 0 the table of the mapping under "sampling", at 1 the table of
    the root, at 2 the Config, at 3 the array of the conditions of the
    sampling rule, at 4 the array of the rules and at 5 the Scanner. *)
Definition example_heap : Heap.heap :=
  [ Heap.OMap [("top_p", Heap.IFloat64 0.9375); ("top_k", Heap.IInt 100)];
    Heap.OMap [("temperature", Heap.IFloat64 1.5);
               ("sampling", Heap.IMap (Some 0))];
    Heap.OConfig (Heap.mkConfig (Some 1) "config.json");
    Heap.OConditions
      [ Heap.mkCondition "temperature" "greater_than" (Heap.IFloat64 0.75);
        Heap.mkCondition "top_p" "greater_than" (Heap.IFloat64 0.875);
        Heap.mkCondition "top_k" "greater_than" (Heap.IInt 80) ];
    Heap.ORules
      [ heap_rule_of sampling_rule (Some 3);
        heap_rule_of (stop_rule 1 0) None ];
    Heap.OScanner
      (Heap.mkScanner (Heap.mkRulesFile "1.0" (Some 4) None)) ].

(** [{"temperature": 0.75, "nested": {"api_key": "sk-test"}}], and the
    same mapping visited in the other order. *)
Definition nested_data : Entries :=
  ECons "temperature" (VFloat64 0.75)
    (ECons "nested" (VMap (ECons "api_key" (VString "sk-test") ENil)) ENil).

Definition nested_data_reordered : Entries :=
  ECons "nested" (VMap (ECons "api_key" (VString "sk-test") ENil))
    (ECons "temperature" (VFloat64 0.75) ENil).

(** [{"limits": {"rpm": 60, "tpm": 1000}, "model": "gpt-4"}], and the
    same tree with both mappings visited in the other order. *)
Definition limits_data : Entries :=
  ECons "limits"
    (VMap (ECons "rpm" (VInt 60) (ECons "tpm" (VInt 1000) ENil)))
    (ECons "model" (VString "gpt-4") ENil).

Definition limits_data_reordered : Entries :=
  ECons "model" (VString "gpt-4")
    (ECons "limits"
       (VMap (ECons "tpm" (VInt 1000) (ECons "rpm" (VInt 60) ENil)))
       ENil).

Definition conditional_missing_check (hasAny missingAll : list string)
  : Check :=
  {| Check_Type := "conditional_missing"; Check_Parameter := "";
     Check_Parameters := [];
     Check_Field := ""; Check_Fields := []; Check_Patterns := [];
     Check_Operator := ""; Check_Value := VNil;
     Check_Min := 0; Check_Max := 0; Check_Condition := "";
     Check_Conditions := []; Check_Require := "";
     Check_HasAny := hasAny; Check_MissingAll := missingAll;
     Check_Values := [];
     Check_MaxSequences := 0; Check_MaxLength := 0 |}.

Definition forbidden_values_check (fields : list string)
  (values : list Value) : Check :=
  {| Check_Type := "field_check"; Check_Parameter := "";
     Check_Parameters := [];
     Check_Field := ""; Check_Fields := fields; Check_Patterns := [];
     Check_Operator := ""; Check_Value := VNil;
     Check_Min := 0; Check_Max := 0; Check_Condition := "";
     Check_Conditions := []; Check_Require := "";
     Check_HasAny := []; Check_MissingAll := []; Check_Values := values;
     Check_MaxSequences := 0; Check_MaxLength := 0 |}.

(** [fmt.Sprintf("%v", _)] on strings, booleans and nil, the only values
    the examples that use it render. *)
Definition Sprintv_scalars (val : Value) : string :=
  match val with
  | VString s => s
  | VBool true => "true"
  | VBool false => "false"
  | VNil => "<nil>"
  | _ => ""
  end.

(** A file system with one readable config file, and a rules file that
    always loads. *)
Definition example_ParseConfigFile (filePath : string) : result Config :=
  if filePath =? "good.json"
  then Ok (mkConfig (Config_Data model_config) filePath)
  else Err "failed to read file: no such file or directory".

Definition example_NewScanner (rulesFile : string) : result Scanner :=
  Ok example_scanner.

Definition example_json_Encode (results : list ScanResult) : result unit :=
  Ok tt.

(** Instances of the two library functions for the examples: a matcher
    that accepts every string, and a [Sprintf] for inputs whose evaluation
    never formats a value. *)
Definition match_everything (pattern s : string) : bool := true.

Definition Sprintv_unused (val : Value) : string := "".

(** A matcher that accepts the strings made of decimal digits only, for
    the pattern [[0-9]+] anchored at both ends. *)
Fixpoint all_digits (s : string) : bool :=
  match s with
  | EmptyString => true
  | String c rest =>
      ((48 <=? nat_of_ascii c) && (nat_of_ascii c <=? 57))%nat
      && all_digits rest
  end.

Definition match_digits (pattern s : string) : bool :=
  negb (s =? "") && all_digits s.

(* ================================================================== *)
(** ** Loops with an early return *)
(* ================================================================== *)

Lemma range_return_None {A R : Type} (body : A -> option R) (l : list A) :
  range_return body l = None <-> forall x, In x l -> body x = None.
Proof.
  induction l as [|a l IH]; simpl.
  - split; [intros _ x [] | reflexivity].
  - destruct (body a) eqn:Ea.
    + split; [discriminate |].
      intros H. rewrite <- Ea. apply H. now left.
    + rewrite IH. split.
      * intros H x [<- | Hx]; auto.
      * intros H x Hx. apply H. now right.
Qed.

Lemma range_return_Some {A R : Type} (body : A -> option R) (l : list A) r :
  range_return body l = Some r -> exists x, In x l /\ body x = Some r.
Proof.
  induction l as [|a l IH]; simpl; [discriminate |].
  destruct (body a) eqn:Ea.
  - intros [= <-]. exists a. split; [now left | assumption].
  - intros H. destruct (IH H) as (x & Hx & Hr).
    exists x. split; [now right | assumption].
Qed.

(** When every return of the body is the same value [r], the loop
    returns exactly when some element makes the body return. *)
Lemma range_return_const {A R : Type} (body : A -> option R) (l : list A) r :
  (forall x r', body x = Some r' -> r' = r) ->
  (range_return body l = Some r <-> exists x, In x l /\ body x = Some r).
Proof.
  intros Hconst. split; [apply range_return_Some |].
  intros (x & Hx & Hr).
  destruct (range_return body l) as [r'|] eqn:E.
  - apply range_return_Some in E. destruct E as (y & _ & Hy).
    now rewrite (Hconst _ _ Hy).
  - rewrite range_return_None in E. rewrite (E x Hx) in Hr. discriminate.
Qed.

(** Elements on which the body always goes on can be dropped. *)
Lemma range_return_filter {A R : Type} (body : A -> option R)
  (keep : A -> bool) (l : list A) :
  (forall x, keep x = false -> body x = None) ->
  range_return body l = range_return body (filter keep l).
Proof.
  intros Hskip. induction l as [|a l IH]; simpl; [reflexivity |].
  destruct (keep a) eqn:Ek; simpl.
  - now rewrite IH.
  - now rewrite (Hskip a Ek).
Qed.

Lemma filter_none {A : Type} (keep : A -> bool) (l : list A) :
  (forall x, In x l -> keep x = false) -> filter keep l = [].
Proof.
  induction l as [|a l IH]; simpl; intros H; [reflexivity |].
  rewrite (H a) by now left. apply IH. intros x Hx. apply H. now right.
Qed.

Lemma len_slice_zero {A : Type} (l : list A) :
  (len_slice l =? 0)%Z = true <-> l = [].
Proof.
  unfold len_slice. rewrite Z.eqb_eq. destruct l; simpl; split;
    try reflexivity; try discriminate; lia.
Qed.

Lemma len_slice_pos {A : Type} (l : list A) :
  (len_slice l >? 0)%Z = false <-> l = [].
Proof.
  unfold len_slice. rewrite Z.gtb_ltb, Z.ltb_ge.
  destruct l; simpl; split; try reflexivity; try discriminate; lia.
Qed.

(* ================================================================== *)
(** ** The tree walks *)
(* ================================================================== *)

(** Induction on a mapping that also covers the mappings nested in its
    values, the calls [hasFieldRecursive] and [collectFieldValues] make. *)
Lemma Entries_nested_ind (P : Entries -> Prop) :
  P ENil ->
  (forall key val rest,
      (forall nested, val = VMap nested -> P nested) ->
      P rest -> P (ECons key val rest)) ->
  forall data, P data.
Proof.
  intros HNil HCons.
  apply (Entries_mut (fun val => forall nested, val = VMap nested -> P nested) P);
    try discriminate; auto.
  intros m IH nested [= <-]. exact IH.
Qed.

Lemma hasFieldRecursive_KeyInMaps data field :
  hasFieldRecursive data field = true <-> KeyInMaps field data.
Proof.
  split.
  - induction data as [|key val rest IHval IHrest] using Entries_nested_ind;
      simpl; [discriminate |].
    destruct (key =? field) eqn:Ek.
    + apply String.eqb_eq in Ek. subst key. intros _. constructor.
    + destruct val; try solve [intros H; apply KeyInMaps_later; auto].
      destruct (hasFieldRecursive m field) eqn:Em.
      * intros _. apply KeyInMaps_nested. now apply (IHval m).
      * intros H. apply KeyInMaps_later; auto.
  - induction 1 as [val rest | key nested rest _ IH | key val rest _ IH]; simpl.
    + now rewrite String.eqb_refl.
    + rewrite IH. now destruct (key =? field).
    + rewrite IH. destruct (key =? field); [reflexivity |].
      destruct val; try reflexivity. now destruct (hasFieldRecursive m field).
Qed.

(** What the search finds is in the tree. *)
Lemma KeyInMaps_KeyInTree name data :
  KeyInMaps name data -> KeyInTree name data.
Proof.
  induction 1.
  - apply KeyInTree_here.
  - apply KeyInTree_below. now apply KeyInValue_map.
  - now apply KeyInTree_later.
Qed.

(** [collectFieldValues] only appends to the slice it is given. *)
Lemma collectFieldValues_app data field values :
  collectFieldValues data field values
  = (values ++ collectFieldValues data field [])%list.
Proof.
  revert values.
  induction data as [|key val rest IHval IHrest] using Entries_nested_ind;
    intros values; simpl.
  - now rewrite app_nil_r.
  - match goal with
    | |- collectFieldValues rest field ?a
         = (values ++ collectFieldValues rest field ?b)%list =>
        rewrite (IHrest a), (IHrest b)
    end.
    rewrite app_assoc. f_equal.
    assert (Hhere : (if key =? field then values ++ [val] else values)%list
                    = (values ++ (if key =? field then [val] else []))%list).
    { destruct (key =? field); [reflexivity | now rewrite app_nil_r]. }
    destruct val; try exact Hhere.
    match goal with
    | |- collectFieldValues ?n field ?a
         = (values ++ collectFieldValues ?n field ?b)%list =>
        rewrite (IHval n eq_refl a), (IHval n eq_refl b)
    end.
    rewrite Hhere. now rewrite app_assoc.
Qed.

Lemma hasFieldRecursive_collect data field :
  hasFieldRecursive data field = true <-> collectFieldValues data field [] <> [].
Proof.
  induction data as [|key val rest IHval IHrest] using Entries_nested_ind;
    simpl.
  - split; [discriminate | congruence].
  - rewrite collectFieldValues_app.
    destruct (key =? field).
    + split; [| reflexivity]. intros _.
      destruct val; simpl; try discriminate.
      rewrite collectFieldValues_app. simpl. discriminate.
    + destruct val; simpl; try exact IHrest.
      destruct (hasFieldRecursive m field) eqn:Em.
      * split; [| reflexivity]. intros _ H.
        apply app_eq_nil in H. destruct H as [H _].
        now apply (proj1 (IHval m eq_refl)).
      * assert (Hm : collectFieldValues m field [] = []).
        { destruct (collectFieldValues m field []) eqn:E; [reflexivity |].
          assert (Hne : collectFieldValues m field [] <> []) by (rewrite E; discriminate).
          apply (IHval m eq_refl) in Hne. congruence. }
        rewrite Hm. exact IHrest.
Qed.

(* ================================================================== *)
(** ** Properties of the evaluator *)
(* ================================================================== *)

Section Properties.

Variable regexp_MatchString : string -> string -> bool.
Variable fmt_Sprintv : Value -> string.

Notation CheckRule := (CheckRule regexp_MatchString fmt_Sprintv).
Notation checkCondition := (checkCondition fmt_Sprintv).

Lemma CheckRule_numeric_range rule config :
  Check_Type (Rule_Check rule) = "numeric_range" ->
  CheckRule rule config
  = CheckRule_result rule (Some (checkNumericRange rule config)).
Proof. intros Htype. unfold CheckRule. now rewrite Htype. Qed.

(** C5: a rule whose Check.Type is none of the nine recognized kinds
    yields no Finding; [CheckRule] has no other outcome to signal. *)
Theorem unrecognized_type_no_finding rule config :
  ~ In (Check_Type (Rule_Check rule)) recognized_types ->
  CheckRule rule config = None.
Proof.
  intros Hnot. unfold CheckRule.
  repeat match goal with
  | |- context [Check_Type (Rule_Check rule) =? ?kind] =>
      destruct (Check_Type (Rule_Check rule) =? kind) eqn:?E;
      [ apply String.eqb_eq in E; exfalso; apply Hnot; rewrite E;
        unfold recognized_types; simpl; tauto | clear E ]
  end.
  reflexivity.
Qed.

(** C3: on the same field name, the missing_field check violates exactly
    when the field_exists check does not, at the level of the two
    predicates and of the Findings [CheckRule] makes of them. *)
Theorem missing_field_negates_field_exists (missing present : Rule)
  (config : Config) :
  Check_Type (Rule_Check missing) = "missing_field" ->
  Check_Type (Rule_Check present) = "field_exists" ->
  Check_Field (Rule_Check missing) = Check_Field (Rule_Check present) ->
  fst (checkMissingField missing config)
  = negb (fst (checkFieldExists present config))
  /\ (CheckRule missing config <> None <-> CheckRule present config = None).
Proof.
  intros Hmissing Hpresent Hfield.
  unfold CheckRule. rewrite Hmissing, Hpresent. simpl.
  unfold checkMissingField, checkFieldExists. rewrite Hfield.
  destruct (HasField config (Check_Field (Rule_Check present))); simpl.
  - split; [reflexivity |]. split; [congruence | discriminate].
  - split; [reflexivity |]. split; [reflexivity | discriminate].
Qed.

(** C2, as the code has it: field-exists(name) is true exactly when the
    root mapping, or a mapping reached from it through mapping values
    only, has a key equal to name, which is also exactly when
    collect-values(name) is not empty.  A mapping that is an element of a
    sequence is not searched. *)
Theorem HasField_iff_key_in_nested_maps (config : Config) (name : string) :
  (HasField config name = true <-> KeyInMaps name (Config_Data config))
  /\ (HasField config name = true <-> GetAllFieldValues config name <> []).
Proof.
  split.
  - apply hasFieldRecursive_KeyInMaps.
  - apply hasFieldRecursive_collect.
Qed.

(** *** numeric_range *)

Lemma checkSingleNumeric_body_non_numeric param check val :
  is_numeric val = false -> checkSingleNumeric_body param check val = None.
Proof. destruct val; simpl; try reflexivity; discriminate. Qed.

(** Only the numerically-typed candidates take part in the range test. *)
Lemma checkSingleNumeric_values_numeric param check values :
  checkSingleNumeric_values param check values
  = or_else (range_return (checkSingleNumeric_body param check)
               (filter is_numeric values)) (false, "").
Proof.
  unfold checkSingleNumeric_values.
  rewrite <- (range_return_filter _ is_numeric)
    by apply checkSingleNumeric_body_non_numeric.
  destruct (len_slice values =? 0)%Z eqn:E; [| reflexivity].
  apply len_slice_zero in E. now subst values.
Qed.

(** [checkNumericRange] does not violate when no target parameter does. *)
Lemma checkNumericRange_no_violation rule config :
  (forall param, In param (numeric_targets (Rule_Check rule)) ->
     fst (checkSingleNumeric param (Rule_Check rule) config) = false) ->
  fst (checkNumericRange rule config) = false.
Proof.
  unfold checkNumericRange, numeric_targets.
  destruct (Check_Parameter (Rule_Check rule) =? ""); simpl; intros H.
  - destruct (len_slice (Check_Parameters (Rule_Check rule)) >? 0)%Z;
      [| reflexivity].
    replace (range_return _ _) with (@None (bool * string)); [reflexivity |].
    symmetry. apply range_return_None. intros param Hparam.
    specialize (H param Hparam).
    destruct (checkSingleNumeric param (Rule_Check rule) config) as [v loc].
    simpl in H. now subst v.
  - apply H. now left.
Qed.

Lemma CheckRule_numeric_range_None rule config :
  Check_Type (Rule_Check rule) = "numeric_range" ->
  fst (checkNumericRange rule config) = false ->
  CheckRule rule config = None.
Proof.
  intros Htype H. rewrite (CheckRule_numeric_range _ _ Htype).
  destruct (checkNumericRange rule config) as [v loc]. simpl in H. now subst v.
Qed.

(** C1, as the code has it: a numeric_range rule whose Min and Max are
    both zero and whose Condition is not "any_value_exceeds" yields no
    Finding. *)
Theorem numeric_range_zero_bounds_inactive rule config :
  Check_Type (Rule_Check rule) = "numeric_range" ->
  PrimFloat.eqb (Check_Min (Rule_Check rule)) 0 = true ->
  PrimFloat.eqb (Check_Max (Rule_Check rule)) 0 = true ->
  Check_Condition (Rule_Check rule) <> "any_value_exceeds" ->
  CheckRule rule config = None.
Proof.
  intros Htype Hmin Hmax Hcond.
  apply CheckRule_numeric_range_None; [assumption |].
  apply checkNumericRange_no_violation. intros param _.
  unfold checkSingleNumeric. rewrite checkSingleNumeric_values_numeric.
  replace (range_return _ _) with (@None (bool * string)); [reflexivity |].
  symmetry. apply range_return_None. intros val _.
  assert (Hnum : forall num,
             checkSingleNumeric_num param (Rule_Check rule) num = None).
  { intros num. unfold checkSingleNumeric_num, f64_ne.
    rewrite Hmin, Hmax. simpl.
    apply String.eqb_neq in Hcond. now rewrite Hcond. }
  destruct val; simpl; auto.
Qed.


(** *** pattern_match *)

Lemma checkPatternMatch_values_strings field patterns values :
  checkPatternMatch_values regexp_MatchString field patterns values
  = checkPatternMatch_values regexp_MatchString field patterns
      (filter is_string values).
Proof.
  unfold checkPatternMatch_values. apply range_return_filter.
  intros val Hval. destruct val; try reflexivity. discriminate.
Qed.

(** *** stop_sequence_complexity *)

Lemma checkStopSequence_items_spec field MaxLength items :
  (forall r, checkStopSequence_items field MaxLength items = Some r ->
     r = (true, field))
  /\ (checkStopSequence_items field MaxLength items = Some (true, field)
      <-> exists str, In (VString str) items /\ (MaxLength < len_string str)%Z).
Proof.
  unfold checkStopSequence_items.
  set (body := fun item : Value => _).
  assert (Hconst : forall x r, body x = Some r -> r = (true, field)).
  { intros x r. unfold body. destruct x; try discriminate.
    destruct (len_string s >? MaxLength)%Z; [congruence | discriminate]. }
  split.
  - intros r Hr. apply range_return_Some in Hr.
    destruct Hr as (x & _ & Hx). eauto.
  - rewrite (range_return_const body items (true, field) Hconst). split.
    + intros (x & Hin & Hx). unfold body in Hx. destruct x; try discriminate.
      destruct (len_string s >? MaxLength)%Z eqn:E; [| discriminate].
      exists s. split; [assumption |]. now apply Z.gtb_lt.
    + intros (str & Hin & Hlen). exists (VString str). split; [assumption |].
      unfold body. apply Z.gtb_lt in Hlen. now rewrite Hlen.
Qed.

Lemma checkStopSequence_body_spec field check val :
  (forall r, checkStopSequence_body field check val = Some r ->
     r = (true, field))
  /\ (checkStopSequence_body field check val = Some (true, field)
      <-> too_complex check val).
Proof.
  destruct val as [ | b | s | n | n | f | f | items | m ]; simpl;
    try (split; [discriminate | split; [discriminate | tauto]]).
  - (* a single string *)
    destruct (Z.gtb_spec (Check_MaxLength check) 0);
      destruct (Z.gtb_spec (len_string s) (Check_MaxLength check)); simpl;
      (split; [intros r Hr; now inversion Hr |]);
      (split; [intros Hr; first [discriminate | lia]
              | intros Hc; first [reflexivity | lia]]).
  - (* a sequence *)
    destruct (checkStopSequence_items_spec field (Check_MaxLength check) items)
      as [Hconst Hitems].
    destruct (Z.gtb_spec (Check_MaxSequences check) 0);
      destruct (Z.gtb_spec (len_slice items) (Check_MaxSequences check));
      simpl;
      try (split; [intros r Hr; now inversion Hr
                  | split; [intros _; left; lia | reflexivity]]);
      (destruct (Z.gtb_spec (Check_MaxLength check) 0);
       [ split; [exact Hconst |]; rewrite Hitems; split;
         [ intros (str & Hin & Hlen); right; exists str; split;
           [assumption | lia]
         | intros [Hseq | (str & Hin & Hlen)];
           [lia | exists str; split; [assumption | lia]] ]
       | split; [discriminate |]; split;
         [ discriminate | intros [Hseq | (str & _ & Hlen)]; lia ] ]).
Qed.

(** C8, as the code has it: a stop_sequence_complexity rule violates, at
    the named field, exactly when some candidate of that field is a
    sequence longer than a positive MaxSequences, or a sequence with a
    string element longer than a positive MaxLength, or a string longer
    than a positive MaxLength.  A bound that is zero (or negative) is not
    checked. *)
Theorem stop_sequence_complexity_guarded rule config :
  Check_Type (Rule_Check rule) = "stop_sequence_complexity" ->
  let check := Rule_Check rule in
  let complex :=
    exists val, In val (GetAllFieldValues config (Check_Field check))
                /\ too_complex check val in
  (complex -> CheckRule rule config = Some (finding_of rule (Check_Field check)))
  /\ (~ complex -> CheckRule rule config = None).
Proof.
  intros Htype check complex.
  unfold CheckRule. rewrite Htype. simpl.
  unfold checkStopSequenceComplexity, checkStopSequenceComplexity_values.
  fold check.
  set (values := GetAllFieldValues config (Check_Field check)).
  set (body := checkStopSequence_body (Check_Field check) check).
  assert (Hconst : forall x r, body x = Some r -> r = (true, Check_Field check)).
  { intros x r. apply (proj1 (checkStopSequence_body_spec _ _ x)). }
  pose proof (range_return_const body values _ Hconst) as Hloop.
  split.
  - intros (val & Hin & Hval).
    replace (range_return body values) with (Some (true, Check_Field check));
      [reflexivity |].
    symmetry. apply Hloop. exists val. split; [assumption |].
    now apply (proj2 (checkStopSequence_body_spec (Check_Field check) check val)).
  - intros Hnone.
    replace (range_return body values) with (@None (bool * string));
      [reflexivity |].
    symmetry. apply range_return_None. intros val Hin.
    destruct (body val) as [r|] eqn:E; [| reflexivity].
    exfalso. apply Hnone. exists val. split; [assumption |].
    apply (proj2 (checkStopSequence_body_spec (Check_Field check) check val)).
    fold body. now rewrite E, (Hconst _ _ E).
Qed.

(** *** combined_conditions *)

Lemma checkCondition_body_spec condition val :
  (forall r, checkCondition_body fmt_Sprintv condition val = Some r -> r = true)
  /\ (checkCondition_body fmt_Sprintv condition val = Some true
      <-> candidate_satisfies fmt_Sprintv condition val).
Proof.
  unfold checkCondition_body, candidate_satisfies.
  destruct (String.eqb_spec (Condition_Operator condition) "greater_than")
    as [Egt | Ngt].
  { rewrite Egt.
    destruct (toFloat val) as [num|];
      [destruct (toFloat (Condition_Value condition)) as [threshold|];
       [destruct (f64_gt num threshold) eqn:Ecmp |] |].
    all: split; [intros r Hr; now inversion Hr |].
    all: split;
      [ intros Hr; first [discriminate | left; split; [reflexivity | eauto]]
      | intros [[_ (n & t & Hn & Ht & Hc)] | [[H _] | [H _]]];
        try discriminate; congruence ]. }
  destruct (String.eqb_spec (Condition_Operator condition) "not_equals")
    as [Ene | Nne].
  { rewrite Ene.
    destruct (String.eqb_spec (fmt_Sprintv val)
                (fmt_Sprintv (Condition_Value condition))) as [E | N]; simpl.
    all: split; [intros r Hr; now inversion Hr |].
    all: split;
      [ intros Hr; first [discriminate | right; left; now split]
      | intros [[H _] | [[_ H] | [H _]]]; try discriminate;
        first [reflexivity | contradiction] ]. }
  destruct (String.eqb_spec (Condition_Operator condition) "equals")
    as [Eeq | Neq].
  { rewrite Eeq.
    destruct (String.eqb_spec (fmt_Sprintv val)
                (fmt_Sprintv (Condition_Value condition))) as [E | N]; simpl.
    all: split; [intros r Hr; now inversion Hr |].
    all: split;
      [ intros Hr; first [discriminate | right; right; now split]
      | intros [[H _] | [[H _] | [_ H]]]; try discriminate;
        first [reflexivity | contradiction] ]. }
  split; [discriminate |]. split; [discriminate | tauto].
Qed.

(** A condition is satisfied exactly when some candidate of its parameter
    satisfies it. *)
Lemma checkCondition_spec condition config :
  checkCondition condition config = true
  <-> exists val,
        In val (GetAllFieldValues config (Condition_Parameter condition))
        /\ candidate_satisfies fmt_Sprintv condition val.
Proof.
  unfold checkCondition, checkCondition_values.
  set (values := GetAllFieldValues config (Condition_Parameter condition)).
  set (body := checkCondition_body fmt_Sprintv condition).
  assert (Hconst : forall x r, body x = Some r -> r = true).
  { intros x. apply (proj1 (checkCondition_body_spec condition x)). }
  pose proof (range_return_const body values true Hconst) as Hloop.
  assert (Hbody : forall x, body x = Some true
                            <-> candidate_satisfies fmt_Sprintv condition x).
  { intros x. apply (proj2 (checkCondition_body_spec condition x)). }
  destruct (len_slice values =? 0)%Z eqn:Elen.
  - apply len_slice_zero in Elen. rewrite Elen. split; [discriminate |].
    now intros (val & [] & _).
  - split.
    + intros H. destruct (range_return body values) as [r|] eqn:E;
        [| discriminate].
      simpl in H. subst r. apply range_return_Some in E.
      destruct E as (x & Hin & Hx).
      exists x. split; [assumption | now apply Hbody].
    + intros (x & Hin & Hx).
      replace (range_return body values) with (Some true); [reflexivity |].
      symmetry. apply Hloop. exists x. split; [assumption | now apply Hbody].
Qed.

(** The loop of [checkCombinedConditions] counts the satisfied conditions
    and lists their parameters in declaration order. *)
Lemma checkCombinedConditions_loop config conditions metCount locations :
  let satisfied := filter (fun c => checkCondition c config) conditions in
  fold_left
    (fun st condition =>
       checkCombinedConditions_step st condition
         (checkCondition condition config))
    conditions (metCount, locations)
  = ((metCount + Z.of_nat (List.length satisfied))%Z,
     (locations ++ map Condition_Parameter satisfied)%list).
Proof.
  revert metCount locations.
  induction conditions as [|c conditions IH]; intros metCount locations; simpl.
  - now rewrite Z.add_0_r, app_nil_r.
  - destruct (checkCondition c config); simpl; rewrite IH; f_equal.
    + simpl. lia.
    + simpl. now rewrite <- app_assoc.
Qed.

Lemma checkCombinedConditions_require_spec rule k locations :
  let agg := aggregate (Check_Require (Rule_Check rule)) k
               (List.length (Check_Conditions (Rule_Check rule))) in
  (agg -> checkCombinedConditions_require rule (Z.of_nat k, locations)
          = (true, strings_Join locations ", "))
  /\ (~ agg -> checkCombinedConditions_require rule (Z.of_nat k, locations)
               = (false, "")).
Proof.
  unfold checkCombinedConditions_require, aggregate, len_slice.
  destruct (String.eqb_spec (Check_Require (Rule_Check rule)) "all") as [E|N1].
  { rewrite E.
    destruct (Z.eqb_spec (Z.of_nat k)
                (Z.of_nat (List.length (Check_Conditions (Rule_Check rule)))))
      as [Hcmp | Hcmp].
    - split; [reflexivity |]. intros H. exfalso. apply H. left. split; [reflexivity | lia].
    - split; [| reflexivity]. intros [[_ H] | [[H _] | [[H _] | [H _]]]];
        first [discriminate | lia]. }
  destruct (String.eqb_spec (Check_Require (Rule_Check rule)) "at_least_two")
    as [E|N2].
  { rewrite E. destruct (Z.geb_spec (Z.of_nat k) 2) as [Hcmp | Hcmp].
    - split; [reflexivity |]. intros H. exfalso. apply H. right. left.
      split; [reflexivity | lia].
    - split; [| reflexivity]. intros [[H _] | [[_ H] | [[H _] | [H _]]]];
        first [discriminate | lia]. }
  destruct (String.eqb_spec (Check_Require (Rule_Check rule)) "both") as [E|N3].
  { rewrite E. destruct (Z.eqb_spec (Z.of_nat k) 2) as [Hcmp | Hcmp].
    - split; [reflexivity |]. intros H. exfalso. apply H. right. right. left.
      split; [reflexivity | lia].
    - split; [| reflexivity]. intros [[H _] | [[H _] | [[_ H] | [H _]]]];
        first [discriminate | lia]. }
  destruct (String.eqb_spec (Check_Require (Rule_Check rule)) "any") as [E|N4].
  { rewrite E. destruct (Z.gtb_spec (Z.of_nat k) 0) as [Hcmp | Hcmp].
    - split; [reflexivity |]. intros H. exfalso. apply H. right. right. right.
      split; [reflexivity | lia].
    - split; [| reflexivity]. intros [[H _] | [[H _] | [[H _] | [_ H]]]];
        first [discriminate | lia]. }
  split; [| reflexivity]. intros [[H _] | [[H _] | [[H _] | [H _]]]]; contradiction.
Qed.

(** C6: a condition is satisfied exactly when some candidate of its
    parameter satisfies it; with n conditions declared and k of them
    satisfied, a combined_conditions rule violates exactly when Require is
    "all" and k = n, "at_least_two" and k >= 2, "both" and k = 2, or "any"
    and k >= 1; the location of the Finding is the comma-joined list of
    the parameters of the satisfied conditions. *)
Theorem combined_conditions_aggregation rule config :
  Check_Type (Rule_Check rule) = "combined_conditions" ->
  let conditions := Check_Conditions (Rule_Check rule) in
  let satisfied := filter (fun c => checkCondition c config) conditions in
  let agg := aggregate (Check_Require (Rule_Check rule))
               (List.length satisfied) (List.length conditions) in
  (forall c, checkCondition c config = true
             <-> exists val,
                   In val (GetAllFieldValues config (Condition_Parameter c))
                   /\ candidate_satisfies fmt_Sprintv c val)
  /\ (agg -> CheckRule rule config
             = Some (finding_of rule
                       (strings_Join (map Condition_Parameter satisfied) ", ")))
  /\ (~ agg -> CheckRule rule config = None).
Proof.
  intros Htype conditions satisfied agg.
  split; [intros c; apply checkCondition_spec |].
  assert (Hdispatch : CheckRule rule config
            = CheckRule_result rule
                (Some (checkCombinedConditions fmt_Sprintv rule config))).
  { unfold CheckRule. now rewrite Htype. }
  rewrite Hdispatch. unfold checkCombinedConditions.
  rewrite checkCombinedConditions_loop. cbv zeta.
  rewrite Z.add_0_l, app_nil_l.
  fold conditions. fold satisfied.
  destruct (checkCombinedConditions_require_spec rule (List.length satisfied)
              (map Condition_Parameter satisfied)) as [Hyes Hno].
  split; intros H.
  - now rewrite (Hyes H).
  - now rewrite (Hno H).
Qed.

(** *** Incomplete checks *)

(** C4, as the code has it: a numeric_range check that names no parameter
    and a combined_conditions check without conditions whose Require is
    not "all" yield no Finding; a combined_conditions check without
    conditions whose Require is "all" and a missing_fields check with an
    empty field list yield a Finding with an empty location; a
    missing_field check with an empty field name yields a Finding unless
    the empty string is a key the search finds.  [CheckRule] is total, so
    none of them raises. *)
Theorem incomplete_check_outcomes rule config :
  let check := Rule_Check rule in
  (Check_Type check = "numeric_range" ->
   Check_Parameter check = "" -> Check_Parameters check = [] ->
   CheckRule rule config = None)
  /\ (Check_Type check = "combined_conditions" ->
      Check_Conditions check = [] -> Check_Require check <> "all" ->
      CheckRule rule config = None)
  /\ (Check_Type check = "combined_conditions" ->
      Check_Conditions check = [] -> Check_Require check = "all" ->
      CheckRule rule config = Some (finding_of rule ""))
  /\ (Check_Type check = "missing_fields" -> Check_Fields check = [] ->
      CheckRule rule config = Some (finding_of rule ""))
  /\ (Check_Type check = "missing_field" -> Check_Field check = "" ->
      CheckRule rule config
      = if HasField config "" then None else Some (finding_of rule "")).
Proof.
  intros check. unfold CheckRule. fold check.
  repeat split.
  - intros Htype Hparam Hparams. rewrite Htype. simpl.
    unfold checkNumericRange. fold check. now rewrite Hparam, Hparams.
  - intros Htype Hconds Hreq. rewrite Htype. simpl.
    unfold checkCombinedConditions, checkCombinedConditions_require.
    fold check. rewrite Hconds. simpl.
    apply String.eqb_neq in Hreq. rewrite Hreq.
    now repeat match goal with
        | |- context [Check_Require check =? ?lit] =>
            destruct (Check_Require check =? lit)
        end.
  - intros Htype Hconds Hreq. rewrite Htype. simpl.
    unfold checkCombinedConditions, checkCombinedConditions_require.
    fold check. now rewrite Hconds, Hreq.
  - intros Htype Hfields. rewrite Htype. simpl.
    unfold checkMissingFields. fold check. now rewrite Hfields.
  - intros Htype Hfield. rewrite Htype. simpl.
    unfold checkMissingField. fold check. rewrite Hfield.
    now destruct (HasField config "").
Qed.

End Properties.

(* ================================================================== *)
(** ** The properties on concrete inputs *)
(* ================================================================== *)

(** With both bounds zero and no Condition, 1.5 is not reported. *)
Lemma numeric_range_zero_bounds_inactive_witness :
  CheckRule match_everything Sprintv_unused (zero_bounds_rule "")
    temperature_config = None.
Proof.
  apply numeric_range_zero_bounds_inactive.
  - reflexivity.
  - reflexivity.
  - reflexivity.
  - simpl. discriminate.
Defined.

(** With both bounds zero and Condition "any_value_exceeds", 1.5 is
    reported: such a rule does trigger. *)
Lemma numeric_range_zero_bounds_counterexample :
  let rule := zero_bounds_rule "any_value_exceeds" in
  Check_Type (Rule_Check rule) = "numeric_range"
  /\ Check_Min (Rule_Check rule) = 0%float
  /\ Check_Max (Rule_Check rule) = 0%float
  /\ CheckRule match_everything Sprintv_unused rule temperature_config
     = Some (finding_of rule "temperature").
Proof. repeat split. Qed.

(** The key "role" is in a mapping that is an element of a sequence: it
    is in the tree, and the search does not find it. *)
Lemma HasField_sequence_counterexample :
  KeyInTree "role" (Config_Data messages_config)
  /\ HasField messages_config "role" = false
  /\ GetAllFieldValues messages_config "role" = [].
Proof.
  split; [| split; reflexivity].
  apply KeyInTree_below.
  apply (KeyInValue_seq _ _ (VMap (ECons "role" (VString "user") ENil))).
  - now left.
  - apply KeyInValue_map. apply KeyInTree_here.
Qed.

Lemma missing_field_negates_field_exists_witness :
  fst (checkMissingField (rule_with (field_check_of "missing_field" "seed") [])
         seed_config)
  = negb (fst (checkFieldExists
                 (rule_with (field_check_of "field_exists" "seed") [])
                 seed_config))
  /\ (CheckRule match_everything Sprintv_unused
        (rule_with (field_check_of "missing_field" "seed") []) seed_config
      <> None
      <-> CheckRule match_everything Sprintv_unused
            (rule_with (field_check_of "field_exists" "seed") []) seed_config
          = None).
Proof.
  apply missing_field_negates_field_exists; reflexivity.
Defined.

(** The incomplete checks that do violate: an empty missing_fields list,
    an empty missing_field name, and no conditions under Require "all". *)
Lemma incomplete_check_counterexample :
  CheckRule match_everything Sprintv_unused
    (rule_with (missing_fields_check []) []) model_config
  = Some (finding_of (rule_with (missing_fields_check []) []) "")
  /\ CheckRule match_everything Sprintv_unused
       (rule_with (field_check_of "missing_field" "") []) model_config
     = Some (finding_of (rule_with (field_check_of "missing_field" "") []) "")
  /\ CheckRule match_everything Sprintv_unused
       (rule_with (combined_conditions_check [] "all") []) model_config
     = Some (finding_of (rule_with (combined_conditions_check [] "all") []) "").
Proof. repeat split. Qed.

Lemma incomplete_check_outcomes_witness :
  CheckRule match_everything Sprintv_unused
    (rule_with (numeric_range_check "" 0 1 "") []) temperature_config = None
  /\ CheckRule match_everything Sprintv_unused
       (rule_with (combined_conditions_check [] "any") []) temperature_config
     = None.
Proof.
  split.
  - destruct (incomplete_check_outcomes match_everything Sprintv_unused
                (rule_with (numeric_range_check "" 0 1 "") [])
                temperature_config) as (Hnumeric & _).
    apply Hnumeric; reflexivity.
  - destruct (incomplete_check_outcomes match_everything Sprintv_unused
                (rule_with (combined_conditions_check [] "any") [])
                temperature_config) as (_ & Hcombined & _).
    apply Hcombined; [reflexivity | reflexivity | simpl; discriminate].
Defined.

Lemma unrecognized_type_no_finding_witness :
  CheckRule match_everything Sprintv_unused
    (rule_with (check_of_type "entropy_check") []) model_config = None.
Proof.
  apply unrecognized_type_no_finding.
  simpl. intuition discriminate.
Defined.

(** Three conditions, all satisfied, under "at_least_two". *)
Lemma combined_conditions_aggregation_witness :
  CheckRule match_everything Sprintv_unused sampling_rule sampling_config
  = Some (finding_of sampling_rule "temperature, top_p, top_k").
Proof.
  apply (combined_conditions_aggregation match_everything Sprintv_unused
           sampling_rule sampling_config eq_refl).
  right. left. split; [reflexivity |]. vm_compute. lia.
Defined.

(** With three conditions declared and satisfied, "all" violates and
    "both" does not. *)
Example both_is_not_all :
  let rule require :=
    rule_with
      (combined_conditions_check
         (Check_Conditions (Rule_Check sampling_rule)) require) [] in
  CheckRule match_everything Sprintv_unused (rule "all") sampling_config
  = Some (finding_of (rule "all") "temperature, top_p, top_k")
  /\ CheckRule match_everything Sprintv_unused (rule "both") sampling_config
     = None.
Proof. split; reflexivity. Qed.


(** A sequence of two under MaxSequences = 1. *)
Lemma stop_sequence_complexity_guarded_witness :
  CheckRule match_everything Sprintv_unused (stop_rule 1 0) stop_config
  = Some (finding_of (stop_rule 1 0) "stop").
Proof.
  apply (stop_sequence_complexity_guarded match_everything Sprintv_unused
           (stop_rule 1 0) stop_config eq_refl).
  exists (VSeq [VString "END"; VString "STOP"]).
  split; [now left |]. left. vm_compute. split; reflexivity.
Defined.

(** With MaxSequences = 0 and MaxLength = 0 a non-empty sequence, whose
    length and whose elements' lengths exceed zero, is not reported. *)
Lemma stop_sequence_complexity_counterexample :
  In (VSeq [VString "END"; VString "STOP"])
     (GetAllFieldValues stop_config "stop")
  /\ (Check_MaxSequences (Rule_Check (stop_rule 0 0))
      < len_slice [VString "END"; VString "STOP"])%Z
  /\ (Check_MaxLength (Rule_Check (stop_rule 0 0)) < len_string "END")%Z
  /\ CheckRule match_everything Sprintv_unused (stop_rule 0 0) stop_config
     = None.
Proof.
  split; [now left |]. repeat split.
Qed.

(* ================================================================== *)
(** ** Further properties: the Config model *)
(* ================================================================== *)

Lemma range_return_ext {A R : Type} (body body' : A -> option R) (l : list A) :
  (forall x, In x l -> body x = body' x) ->
  range_return body l = range_return body' l.
Proof.
  induction l as [|a l IH]; simpl; intros H; [reflexivity |].
  rewrite <- (H a) by now left.
  destruct (body a); [reflexivity |].
  apply IH. intros x Hx. apply H. now right.
Qed.

Lemma range_return_map {A B R : Type} (g : A -> B) (body : B -> option R)
  (l : list A) :
  range_return (fun x => body (g x)) l = range_return body (map g l).
Proof.
  induction l as [|a l IH]; simpl; [reflexivity |].
  now destruct (body (g a)).
Qed.

(** A loop whose every return is the same value does not depend on the
    order of the elements. *)
Lemma range_return_Permutation {A R : Type} (body : A -> option R) r
  (l l' : list A) :
  (forall x r', body x = Some r' -> r' = r) ->
  Permutation l l' ->
  range_return body l = range_return body l'.
Proof.
  intros Hconst Hperm.
  destruct (range_return body l) as [r1|] eqn:E1.
  - apply range_return_Some in E1. destruct E1 as (x & Hx & Hr).
    assert (r1 = r) by eauto. subst r1. symmetry.
    apply (range_return_const body l' r Hconst).
    exists x. split; [| assumption].
    now apply (Permutation_in _ Hperm).
  - symmetry. apply range_return_None. intros x Hx.
    rewrite range_return_None in E1. apply E1.
    now apply (Permutation_in _ (Permutation_sym Hperm)).
Qed.

(** The two walks, one entry at a time. *)
Lemma hasFieldRecursive_cons key val rest field :
  hasFieldRecursive (ECons key val rest) field
  = (key =? field)
    || match val with
       | VMap nested => hasFieldRecursive nested field
       | _ => false
       end
    || hasFieldRecursive rest field.
Proof.
  simpl. destruct (key =? field); [reflexivity |].
  destruct val; reflexivity.
Qed.

Lemma collectFieldValues_cons key val rest field :
  collectFieldValues (ECons key val rest) field []
  = ((if key =? field then [val] else [])
     ++ match val with
        | VMap nested => collectFieldValues nested field []
        | _ => []
        end
     ++ collectFieldValues rest field [])%list.
Proof.
  simpl. rewrite collectFieldValues_app.
  destruct val; try (now rewrite app_nil_l || (destruct (key =? field); reflexivity)).
  rewrite collectFieldValues_app. now rewrite app_assoc.
Qed.

Lemma collectFieldValues_StoredUnder data name val :
  In val (collectFieldValues data name []) <-> StoredUnder name val data.
Proof.
  split.
  - induction data as [|key v rest IHval IHrest] using Entries_nested_ind;
      [intros [] |].
    rewrite collectFieldValues_cons. rewrite !in_app_iff.
    intros [Hhere | [Hnested | Hrest]].
    + destruct (String.eqb_spec key name) as [-> | _]; [| destruct Hhere].
      destruct Hhere as [<- | []]. apply StoredUnder_here.
    + destruct v; try destruct Hnested.
      apply StoredUnder_nested. now apply (IHval m).
    + apply StoredUnder_later. now apply IHrest.
  - induction 1 as [rest | key nested rest _ IH | key v rest _ IH];
      rewrite collectFieldValues_cons, !in_app_iff.
    + left. rewrite String.eqb_refl. now left.
    + right. left. exact IH.
    + right. right. exact IH.
Qed.

(** X1: collect-values(name) returns exactly the values stored under a
    key equal to name in the root mapping or in a mapping reached
    through mapping values. *)
Theorem GetAllFieldValues_stored_under (config : Config) (name : string)
  (val : Value) :
  In val (GetAllFieldValues config name)
  <-> StoredUnder name val (Config_Data config).
Proof. apply collectFieldValues_StoredUnder. Qed.

Lemma hasFieldRecursive_Reorder (m m' : Entries) (field : string) :
  Reorder m m' -> hasFieldRecursive m field = hasFieldRecursive m' field.
Proof.
  induction 1 as
    [ m | k1 v1 k2 v2 rest | key val m m' _ IH | key m m' rest _ IH
    | m1 m2 m3 _ IH1 _ IH2 ].
  - reflexivity.
  - rewrite !hasFieldRecursive_cons.
    destruct (k1 =? field), (k2 =? field);
      destruct (match v1 with VMap n => hasFieldRecursive n field | _ => false end);
      destruct (match v2 with VMap n => hasFieldRecursive n field | _ => false end);
      reflexivity.
  - rewrite !hasFieldRecursive_cons. now rewrite IH.
  - rewrite !hasFieldRecursive_cons. now rewrite IH.
  - congruence.
Qed.

(** X2: field-exists does not depend on the order in which the entries
    of the mappings are visited. *)
Theorem HasField_order_independent (m m' : Entries) (path path' field : string) :
  Reorder m m' ->
  HasField (mkConfig m path) field = HasField (mkConfig m' path') field.
Proof. apply hasFieldRecursive_Reorder. Qed.

Lemma SameCandidate_trans v1 v2 v3 :
  SameCandidate v1 v2 -> SameCandidate v2 v3 -> SameCandidate v1 v3.
Proof.
  intros H12 H23. destruct H12 as [val | m m' Hm]; [assumption |].
  inversion H23 as [val Hval | n n' Hn]; subst.
  - now apply SameCandidate_map.
  - apply SameCandidate_map. now apply (Reorder_trans _ _ _ Hm).
Qed.

Lemma Forall2_SameCandidate_refl values : Forall2 SameCandidate values values.
Proof.
  induction values; constructor; [apply SameCandidate_eq | assumption].
Qed.

Lemma Forall2_SameCandidate_trans l1 l2 l3 :
  Forall2 SameCandidate l1 l2 -> Forall2 SameCandidate l2 l3 ->
  Forall2 SameCandidate l1 l3.
Proof.
  intros H12. revert l3.
  induction H12 as [|v1 v2 l1 l2 Hv _ IH]; intros l3 H23;
    inversion H23; subst; constructor.
  - now apply (SameCandidate_trans _ _ _ Hv).
  - now apply IH.
Qed.

Lemma SameCandidates_Permutation values values' :
  Permutation values values' -> SameCandidates values values'.
Proof.
  intros Hperm. exists values'.
  split; [assumption | apply Forall2_SameCandidate_refl].
Qed.

Lemma SameCandidates_trans l1 l2 l3 :
  SameCandidates l1 l2 -> SameCandidates l2 l3 -> SameCandidates l1 l3.
Proof.
  intros (a & Hperm1 & Hsame1) (b & Hperm2 & Hsame2).
  apply Forall2_flip in Hsame1.
  destruct (Permutation_Forall2 Hperm2 Hsame1) as (a' & Hperm & Hsame).
  apply Forall2_flip in Hsame.
  exists a'. split.
  - now apply (Permutation_trans Hperm1).
  - now apply (Forall2_SameCandidate_trans _ b).
Qed.

Lemma SameCandidates_app l1 l1' l2 l2' :
  SameCandidates l1 l1' -> SameCandidates l2 l2' ->
  SameCandidates (l1 ++ l2)%list (l1' ++ l2')%list.
Proof.
  intros (a & Hperm1 & Hsame1) (b & Hperm2 & Hsame2).
  exists (a ++ b)%list. split.
  - now apply Permutation_app.
  - now apply Forall2_app.
Qed.

Lemma collectFieldValues_SameCandidates (m m' : Entries) (field : string) :
  Reorder m m' ->
  SameCandidates (collectFieldValues m field [])
                 (collectFieldValues m' field []).
Proof.
  induction 1 as
    [ m | k1 v1 k2 v2 rest | key val m m' _ IH | key m m' rest Hm IH
    | m1 m2 m3 _ IH1 _ IH2 ].
  - apply SameCandidates_Permutation, Permutation_refl.
  - apply SameCandidates_Permutation.
    rewrite !collectFieldValues_cons.
    rewrite !app_assoc.
    apply Permutation_app_tail.
    rewrite <- !app_assoc.
    rewrite (app_assoc (if k1 =? field then [v1] else [])).
    rewrite (app_assoc (if k2 =? field then [v2] else [])).
    apply Permutation_app_comm.
  - rewrite !collectFieldValues_cons.
    repeat apply SameCandidates_app; try assumption;
      apply SameCandidates_Permutation, Permutation_refl.
  - rewrite !collectFieldValues_cons.
    repeat apply SameCandidates_app.
    + destruct (key =? field).
      * exists [VMap m]. split; [apply Permutation_refl |].
        constructor; [now apply SameCandidate_map | constructor].
      * apply SameCandidates_Permutation, Permutation_refl.
    + assumption.
    + apply SameCandidates_Permutation, Permutation_refl.
  - now apply (SameCandidates_trans _ _ _ IH1).
Qed.

(** X3: the candidates GetAllFieldValues collects for a field are the
    same in every order of visit of the mappings, up to the order of the
    returned slice and to the inner order of the candidates that are
    themselves mappings: a rearrangement of one slice matches the other
    position by position, each pair being equal or two listings of the
    same mapping. *)
Theorem GetAllFieldValues_order_independent (m m' : Entries)
  (path path' field : string) :
  Reorder m m' ->
  SameCandidates (GetAllFieldValues (mkConfig m path) field)
                 (GetAllFieldValues (mkConfig m' path') field).
Proof. apply collectFieldValues_SameCandidates. Qed.

Lemma HasField_order_independent_witness :
  HasField (mkConfig nested_data "a.json") "api_key"
  = HasField (mkConfig nested_data_reordered "b.json") "api_key".
Proof. apply HasField_order_independent. apply Reorder_swap. Defined.

(** The candidate of "limits" is a mapping whose own entries are visited
    in the other order. *)
Lemma GetAllFieldValues_order_independent_witness :
  Reorder limits_data limits_data_reordered
  /\ SameCandidates
       (GetAllFieldValues (mkConfig limits_data "a.json") "limits")
       (GetAllFieldValues (mkConfig limits_data_reordered "b.json") "limits").
Proof.
  assert (Hreorder : Reorder limits_data limits_data_reordered).
  { apply (Reorder_trans _ _ _ (Reorder_swap _ _ _ _ _)).
    apply Reorder_rest, Reorder_nested, Reorder_swap. }
  split; [exact Hreorder |].
  now apply GetAllFieldValues_order_independent.
Defined.

(** *** Dotted paths *)

Lemma strings_Split_not_nil s sep : strings_Split s sep <> [].
Proof.
  destruct s as [|c s]; simpl; [discriminate |].
  destruct (Ascii.eqb c sep); [discriminate |].
  destruct (strings_Split s sep); discriminate.
Qed.

Lemma strings_Join_cons part parts sep :
  parts <> [] ->
  strings_Join (part :: parts) sep
  = part ++ sep ++ strings_Join parts sep.
Proof. destruct parts; [congruence | reflexivity]. Qed.

(** A part without the separator, then the separator, then the rest. *)
Lemma strings_Split_append part sep rest :
  has_byte sep part = false ->
  strings_Split (part ++ String sep rest) sep
  = part :: strings_Split rest sep.
Proof.
  induction part as [|c part IH]; simpl.
  - now rewrite Ascii.eqb_refl.
  - intros H. apply orb_false_iff in H. destruct H as [Hc Hpart].
    rewrite Hc. now rewrite (IH Hpart).
Qed.

Lemma strings_Split_no_separator s sep :
  has_byte sep s = false -> strings_Split s sep = [s].
Proof.
  induction s as [|c s IH]; simpl; [reflexivity |].
  intros H. apply orb_false_iff in H. destruct H as [Hc Hs].
  rewrite Hc. now rewrite (IH Hs).
Qed.

(** Joining the parts of a split with the separator gives the string
    back, there is at least one part, and no part contains the
    separator. *)
Lemma strings_Split_Join_round_trip (s : string) (sep : ascii) :
  strings_Join (strings_Split s sep) (String sep "") = s
  /\ strings_Split s sep <> []
  /\ Forall (fun part => has_byte sep part = false) (strings_Split s sep).
Proof.
  split; [| split; [apply strings_Split_not_nil |]].
  - induction s as [|c s IH]; [reflexivity |]. simpl.
    destruct (Ascii.eqb_spec c sep) as [-> | _].
    + rewrite strings_Join_cons by apply strings_Split_not_nil.
      simpl. now rewrite IH.
    + pose proof (strings_Split_not_nil s sep) as Hne.
      destruct (strings_Split s sep) as [|part parts]; [congruence |].
      destruct parts as [|part' parts].
      * simpl in *. now rewrite IH.
      * rewrite strings_Join_cons by discriminate.
        rewrite strings_Join_cons in IH by discriminate.
        rewrite <- IH. reflexivity.
  - induction s as [|c s IH]; simpl; [now repeat constructor |].
    destruct (Ascii.eqb c sep) eqn:Ec; [now constructor |].
    pose proof (strings_Split_not_nil s sep) as Hne.
    destruct (strings_Split s sep) as [|part parts]; [congruence |].
    inversion IH as [|? ? Hpart Hparts]; subst.
    constructor; [| assumption]. simpl. now rewrite Ec.
Qed.

(** Splitting the join of parts that do not contain the separator
    gives the parts back. *)
Lemma strings_Join_Split_round_trip (parts : list string) (sep : ascii) :
  parts <> [] ->
  Forall (fun part => has_byte sep part = false) parts ->
  strings_Split (strings_Join parts (String sep "")) sep = parts.
Proof.
  induction parts as [|part parts IH]; [congruence |].
  intros _ Hparts. inversion Hparts as [|? ? Hpart Hrest]; subst.
  destruct parts as [|part' parts].
  - simpl. now apply strings_Split_no_separator.
  - rewrite strings_Join_cons by discriminate.
    change (part ++ String sep "" ++ strings_Join (part' :: parts) (String sep ""))
      with (part ++ String sep (strings_Join (part' :: parts) (String sep ""))).
    rewrite strings_Split_append by assumption.
    rewrite IH; [reflexivity | discriminate | assumption].
Qed.

Lemma map_index_StoredUnder m key val :
  map_index m key = Some val -> StoredUnder key val m.
Proof.
  induction m as [|k v rest IH]; simpl; [discriminate |].
  destruct (String.eqb_spec k key) as [-> | _].
  - intros [= ->]. apply StoredUnder_here.
  - intros H. apply StoredUnder_later. now apply IH.
Qed.

Lemma map_index_nested m key nested name val :
  map_index m key = Some (VMap nested) ->
  StoredUnder name val nested -> StoredUnder name val m.
Proof.
  induction m as [|k v rest IH]; simpl; [discriminate |].
  destruct (k =? key).
  - intros [= ->]. apply StoredUnder_nested.
  - intros H Hn. apply StoredUnder_later. now apply IH.
Qed.

Lemma GetValue_loop_StoredUnder parts current val :
  GetValue_loop parts current = Some val ->
  StoredUnder (last parts "") val current.
Proof.
  revert current. induction parts as [|part rest IH]; intros current;
    [discriminate |].
  simpl GetValue_loop.
  destruct (map_index current part) as [v|] eqn:Eindex; [| discriminate].
  destruct rest as [|part' rest].
  - intros [= ->]. now apply map_index_StoredUnder.
  - destruct v; try discriminate. intros Hloop.
    apply (map_index_nested _ _ _ _ _ Eindex).
    apply (IH _ Hloop).
Qed.

(** X4: a path without a dot is looked up in the root mapping only. *)
Theorem GetValue_single_segment (config : Config) (path : string) :
  has_byte "." path = false ->
  GetValue config path = map_index (Config_Data config) path.
Proof.
  intros Hdot. unfold GetValue.
  rewrite (strings_Split_no_separator _ _ Hdot). simpl.
  now destruct (map_index (Config_Data config) path).
Qed.

(** X5: a path [key.rest] is resolved by looking [key] up in the root
    mapping and [rest] in the mapping found there; the lookup fails when
    [key] is absent or its value is not a mapping. *)
Theorem GetValue_descends (config : Config) (key rest : string) :
  has_byte "." key = false ->
  GetValue config (key ++ String "." rest)
  = match map_index (Config_Data config) key with
    | Some (VMap nested) =>
        GetValue (mkConfig nested (Config_FilePath config)) rest
    | _ => None
    end.
Proof.
  intros Hdot. unfold GetValue.
  rewrite (strings_Split_append _ _ _ Hdot). simpl GetValue_loop.
  pose proof (strings_Split_not_nil rest ".") as Hne.
  destruct (strings_Split rest ".") as [|part parts]; [congruence |].
  destruct (map_index (Config_Data config) key) as [v|]; [| reflexivity].
  destruct v; reflexivity.
Qed.

(** X6: what a dotted path resolves to is one of the candidates of the
    last segment of the path, and that segment is a field that exists. *)
Theorem GetValue_is_candidate (config : Config) (path : string) (val : Value) :
  GetValue config path = Some val ->
  let name := last (strings_Split path ".") "" in
  In val (GetAllFieldValues config name) /\ HasField config name = true.
Proof.
  intros Hget name.
  apply GetValue_loop_StoredUnder in Hget. fold name in Hget.
  assert (Hin : In val (GetAllFieldValues config name))
    by now apply collectFieldValues_StoredUnder.
  split; [assumption |].
  apply hasFieldRecursive_collect. intros Hnil.
  unfold GetAllFieldValues in Hin. now rewrite Hnil in Hin.
Qed.

(* ================================================================== *)
(** ** Further properties: the predicates *)
(* ================================================================== *)

(** A loop returns at the first element on which its body returns. *)
Lemma range_return_first {A R : Type} (body : A -> option R) (l : list A) r :
  range_return body l = Some r
  <-> exists before x after,
        l = (before ++ x :: after)%list
        /\ (forall y, In y before -> body y = None)
        /\ body x = Some r.
Proof.
  split.
  - induction l as [|a l IH]; simpl; [discriminate |].
    destruct (body a) eqn:Ea.
    + intros [= <-]. exists [], a, l.
      repeat split; [now intros y [] | assumption].
    + intros H. destruct (IH H) as (before & x & after & -> & Hnone & Hx).
      exists (a :: before), x, after. repeat split; [| assumption].
      intros y [<- | Hy]; auto.
  - intros (before & x & after & -> & Hnone & Hx).
    induction before as [|b before IH]; simpl.
    + now rewrite Hx.
    + rewrite (Hnone b) by now left.
      apply IH. intros y Hy. apply Hnone. now right.
Qed.

Lemma range_return_cases {A R : Type} (body : A -> option R) (l : list A) r :
  (forall x r', body x = Some r' -> r' = r) ->
  (range_return body l = Some r /\ exists x, In x l /\ body x = Some r)
  \/ (range_return body l = None /\ forall x, In x l -> body x = None).
Proof.
  intros Hconst. destruct (range_return body l) as [r'|] eqn:E.
  - left. pose proof (range_return_Some _ _ _ E) as (x & Hx & Hr).
    assert (r' = r) by eauto. subst r'. split; [reflexivity | eauto].
  - right. split; [reflexivity |]. now apply range_return_None.
Qed.

(** The outer loop of a predicate that reports the first element of [l]
    with a hit, at the location [name x]. *)
Lemma first_hit_finding {A : Type} (rule : Rule) (hit : A -> Prop)
  (name : A -> string) (body : A -> option (bool * string)) (l : list A)
  (f : Finding) :
  (forall x, (body x = Some (true, name x) /\ hit x)
             \/ (body x = None /\ ~ hit x)) ->
  CheckRule_result rule (Some (or_else (range_return body l) (false, "")))
  = Some f
  <-> exists before x after,
        l = (before ++ x :: after)%list
        /\ (forall y, In y before -> ~ hit y)
        /\ hit x
        /\ f = finding_of rule (name x).
Proof.
  intros Hcases. split.
  - destruct (range_return body l) as [[v loc]|] eqn:E; simpl;
      [| discriminate].
    apply range_return_first in E.
    destruct E as (before & x & after & -> & Hnone & Hx).
    destruct (Hcases x) as [[Hx' Hhit] | [Hx' _]]; [| congruence].
    rewrite Hx' in Hx. injection Hx as <- <-. simpl. intros [= <-].
    exists before, x, after. repeat split; try assumption.
    intros y Hy Hhity. destruct (Hcases y) as [[Hy' _] | [_ Hno]];
      [| contradiction].
    rewrite (Hnone y Hy) in Hy'. discriminate.
  - intros (before & x & after & -> & Hnone & Hhit & ->).
    replace (range_return body (before ++ x :: after))
      with (Some (true, name x)); [reflexivity |].
    symmetry. apply range_return_first. exists before, x, after.
    repeat split.
    + intros y Hy. destruct (Hcases y) as [[_ Hhity] | [Hy' _]];
        [| assumption].
      now destruct (Hnone y Hy).
    + destruct (Hcases x) as [[Hx _] | [_ Hno]]; [assumption | contradiction].
Qed.

Section PredicateProperties.

Variable regexp_MatchString : string -> string -> bool.
Variable fmt_Sprintv : Value -> string.

Notation CheckRule := (CheckRule regexp_MatchString fmt_Sprintv).

(** *** numeric_range *)

Lemma checkSingleNumeric_num_spec param check num :
  (forall r, checkSingleNumeric_num param check num = Some r -> r = (true, param))
  /\ (checkSingleNumeric_num param check num = Some (true, param)
      <-> (f64_lt num (Check_Min check) = true
           \/ f64_gt num (Check_Max check) = true)
          /\ (f64_ne (Check_Min check) 0 = true
              \/ f64_ne (Check_Max check) 0 = true
              \/ Check_Condition check = "any_value_exceeds")).
Proof.
  unfold checkSingleNumeric_num.
  destruct (f64_ne (Check_Min check) 0), (f64_ne (Check_Max check) 0),
    (f64_lt num (Check_Min check)), (f64_gt num (Check_Max check)),
    (String.eqb_spec (Check_Condition check) "any_value_exceeds");
    simpl; (split; [intros r Hr; now inversion Hr |]);
    (split; [intros Hr; try discriminate; tauto
            | intros Hc; try reflexivity; exfalso; intuition discriminate]).
Qed.

Lemma checkSingleNumeric_body_spec param check val :
  (forall r, checkSingleNumeric_body param check val = Some r -> r = (true, param))
  /\ (checkSingleNumeric_body param check val = Some (true, param)
      <-> out_of_range check val).
Proof.
  unfold out_of_range.
  destruct val; simpl;
    try (split; [discriminate |]; split;
         [discriminate | now intros (num & Hnum & _)]).
  all: match goal with
       | |- context [checkSingleNumeric_num ?p ?c ?num] =>
           destruct (checkSingleNumeric_num_spec p c num) as [Hconst Hnum]
       end.
  all: split; [exact Hconst |]; rewrite Hnum; split;
    [ intros [Hout Hactive]; eexists; split; [reflexivity | now split]
    | intros (num & [= <-] & Hout & Hactive); now split ].
Qed.

(** One parameter is reported exactly when one of its candidates is out
    of range. *)
Lemma checkSingleNumeric_cases param check config :
  let violates :=
    exists val, In val (GetAllFieldValues config param)
                /\ out_of_range check val in
  (checkSingleNumeric param check config = (true, param) /\ violates)
  \/ (checkSingleNumeric param check config = (false, "") /\ ~ violates).
Proof.
  intros violates. unfold checkSingleNumeric, checkSingleNumeric_values.
  subst violates.
  set (values := GetAllFieldValues config param).
  set (body := checkSingleNumeric_body param check).
  assert (Hconst : forall x r, body x = Some r -> r = (true, param)).
  { intros x. apply (proj1 (checkSingleNumeric_body_spec param check x)). }
  assert (Hbody : forall x, body x = Some (true, param) <-> out_of_range check x).
  { intros x. apply (proj2 (checkSingleNumeric_body_spec param check x)). }
  destruct (range_return_cases body values _ Hconst)
    as [[Hloop (x & Hin & Hx)] | [Hloop Hnone]]; rewrite Hloop.
  - left. destruct (len_slice values =? 0)%Z eqn:Elen.
    { apply len_slice_zero in Elen. rewrite Elen in Hin. destruct Hin. }
    split; [reflexivity |]. exists x. split; [assumption | now apply Hbody].
  - right. split; [now destruct (len_slice values =? 0)%Z |].
    intros (x & Hin & Hx). apply Hbody in Hx.
    rewrite (Hnone x Hin) in Hx. discriminate.
Qed.

(** X7: a numeric_range rule yields a Finding exactly when one of the
    parameters it names has a numeric candidate below Min or above Max,
    the test being made when a bound is non-zero or the Condition is
    "any_value_exceeds"; the location is the first such parameter. *)
Theorem numeric_range_first_violator rule config (f : Finding) :
  Check_Type (Rule_Check rule) = "numeric_range" ->
  let violates param :=
    exists val, In val (GetAllFieldValues config param)
                /\ out_of_range (Rule_Check rule) val in
  CheckRule rule config = Some f
  <-> exists before param after,
        numeric_targets (Rule_Check rule) = (before ++ param :: after)%list
        /\ (forall p, In p before -> ~ violates p)
        /\ violates param
        /\ f = finding_of rule param.
Proof.
  intros Htype violates.
  rewrite (CheckRule_numeric_range _ _ _ _ Htype).
  set (body := fun param =>
         checkNumericRange_body
           (checkSingleNumeric param (Rule_Check rule) config)).
  assert (Hcases : forall param,
             (body param = Some (true, param) /\ violates param)
             \/ (body param = None /\ ~ violates param)).
  { intros param. unfold body.
    destruct (checkSingleNumeric_cases param (Rule_Check rule) config)
      as [[-> Hv] | [-> Hv]]; [left | right]; now split. }
  rewrite <- (first_hit_finding rule violates (fun p => p) body
                (numeric_targets (Rule_Check rule)) f Hcases).
  unfold checkNumericRange, numeric_targets.
  destruct (Check_Parameter (Rule_Check rule) =? ""); simpl negb; cbv iota.
  - destruct (len_slice (Check_Parameters (Rule_Check rule)) >? 0)%Z eqn:Elen;
      [reflexivity |].
    apply len_slice_pos in Elen. now rewrite Elen.
  - simpl range_return. unfold body at 1.
    destruct (checkSingleNumeric_cases (Check_Parameter (Rule_Check rule))
                (Rule_Check rule) config) as [[-> _] | [-> _]]; reflexivity.
Qed.

(** *** missing_fields and conditional_missing *)

Lemma all_absent_cases config (fields : list string) :
  (range_return
     (fun field => if HasField config field then Some (false, "") else None)
     fields = None
   /\ forall field, In field fields -> HasField config field = false)
  \/ (range_return
        (fun field => if HasField config field then Some (false, "") else None)
        fields = Some (false, "")
      /\ exists field, In field fields /\ HasField config field = true).
Proof.
  set (body := fun field : string => _).
  assert (Hconst : forall x r, body x = Some r -> r = (false, "")).
  { intros x r. unfold body. destruct (HasField config x); congruence. }
  destruct (range_return_cases body fields _ Hconst)
    as [[-> (x & Hin & Hx)] | [-> Hnone]].
  - right. split; [reflexivity |]. exists x. split; [assumption |].
    unfold body in Hx. now destruct (HasField config x).
  - left. split; [reflexivity |]. intros field Hin.
    specialize (Hnone field Hin). unfold body in Hnone.
    now destruct (HasField config field).
Qed.

(** X8: a missing_fields rule yields a Finding exactly when none of the
    listed fields exists; its location is the comma-joined list. *)
Theorem missing_fields_all_absent rule config :
  Check_Type (Rule_Check rule) = "missing_fields" ->
  let fields := Check_Fields (Rule_Check rule) in
  ((forall field, In field fields -> HasField config field = false) ->
   CheckRule rule config = Some (finding_of rule (strings_Join fields ", ")))
  /\ ((exists field, In field fields /\ HasField config field = true) ->
      CheckRule rule config = None).
Proof.
  intros Htype fields.
  assert (Hdispatch : CheckRule rule config
            = CheckRule_result rule (Some (checkMissingFields rule config))).
  { unfold CheckRule. now rewrite Htype. }
  rewrite Hdispatch. unfold checkMissingFields. fold fields.
  destruct (all_absent_cases config fields)
    as [[-> Habsent] | [-> (x & Hin & Hx)]]; simpl; split; try reflexivity.
  - intros (x & Hin & Hx). rewrite (Habsent x Hin) in Hx. discriminate.
  - intros Habsent. rewrite (Habsent x Hin) in Hx. discriminate.
Qed.

(** X9: a conditional_missing rule yields a Finding exactly when some
    field of HasAny exists and no field of MissingAll does; its location
    is the comma-joined MissingAll list. *)
Theorem conditional_missing_spec rule config :
  Check_Type (Rule_Check rule) = "conditional_missing" ->
  let triggered :=
    (exists field, In field (Check_HasAny (Rule_Check rule))
                   /\ HasField config field = true)
    /\ (forall field, In field (Check_MissingAll (Rule_Check rule)) ->
          HasField config field = false) in
  (triggered ->
   CheckRule rule config
   = Some (finding_of rule
             (strings_Join (Check_MissingAll (Rule_Check rule)) ", ")))
  /\ (~ triggered -> CheckRule rule config = None).
Proof.
  intros Htype triggered.
  assert (Hdispatch : CheckRule rule config
            = CheckRule_result rule (Some (checkConditionalMissing rule config))).
  { unfold CheckRule. now rewrite Htype. }
  rewrite Hdispatch. unfold checkConditionalMissing. subst triggered.
  set (anyBody := fun field : string =>
                    if HasField config field then Some true else None).
  assert (Hconst : forall x r, anyBody x = Some r -> r = true).
  { intros x r. unfold anyBody. destruct (HasField config x); congruence. }
  destruct (range_return_cases anyBody (Check_HasAny (Rule_Check rule)) _ Hconst)
    as [[-> (x & Hin & Hx)] | [-> Hnone]]; simpl.
  - assert (Hpresent : HasField config x = true).
    { unfold anyBody in Hx. now destruct (HasField config x). }
    destruct (all_absent_cases config (Check_MissingAll (Rule_Check rule)))
      as [[-> Habsent] | [-> (y & Hiny & Hy)]]; simpl; split;
      try reflexivity.
    + intros Hnot. exfalso. apply Hnot. split; [eauto | assumption].
    + intros [_ Habsent]. rewrite (Habsent y Hiny) in Hy. discriminate.
  - split; [| reflexivity].
    intros [(x & Hin & Hx) _]. specialize (Hnone x Hin).
    unfold anyBody in Hnone. rewrite Hx in Hnone. discriminate.
Qed.

(** *** field_check *)

Lemma checkFieldCheck_values_cases field checkValues values :
  let hit :=
    exists val checkVal,
      In val values /\ In checkVal checkValues
      /\ fmt_Sprintv val = fmt_Sprintv checkVal in
  (checkFieldCheck_values fmt_Sprintv field checkValues values
   = Some (true, field) /\ hit)
  \/ (checkFieldCheck_values fmt_Sprintv field checkValues values = None
      /\ ~ hit).
Proof.
  intros hit. subst hit. unfold checkFieldCheck_values. cbv zeta.
  set (inner := fun val checkVal =>
         if fmt_Sprintv val =? fmt_Sprintv checkVal
         then Some (true, field) else None).
  set (body := fun val => range_return (inner val) checkValues).
  assert (Hinner : forall val checkVal r,
             inner val checkVal = Some r -> r = (true, field)).
  { intros val checkVal r. unfold inner.
    destruct (fmt_Sprintv val =? fmt_Sprintv checkVal); congruence. }
  assert (Hconst : forall x r, body x = Some r -> r = (true, field)).
  { intros x r Hr. apply range_return_Some in Hr.
    destruct Hr as (checkVal & _ & Hr). eauto. }
  match goal with
  | |- (_ = _ /\ ?P) \/ (_ = _ /\ ?Q) =>
      change ((range_return body values = Some (true, field) /\ P)
              \/ (range_return body values = None /\ Q))
  end.
  destruct (range_return_cases body values _ Hconst)
    as [[-> (val & Hin & Hval)] | [-> Hnone]].
  - left. split; [reflexivity |].
    apply range_return_Some in Hval. destruct Hval as (checkVal & Hc & Hr).
    exists val, checkVal. repeat split; try assumption.
    unfold inner in Hr. apply String.eqb_eq.
    now destruct (fmt_Sprintv val =? fmt_Sprintv checkVal).
  - right. split; [reflexivity |].
    intros (val & checkVal & Hin & Hc & Heq).
    specialize (Hnone val Hin). unfold body in Hnone.
    rewrite range_return_None in Hnone. specialize (Hnone checkVal Hc).
    unfold inner in Hnone. apply String.eqb_eq in Heq.
    rewrite Heq in Hnone. discriminate.
Qed.

(** X10: a field_check rule yields a Finding exactly when a candidate of
    a listed field renders as one of the listed values does; the
    location is the first listed field with such a candidate. *)
Theorem field_check_first_forbidden rule config (f : Finding) :
  Check_Type (Rule_Check rule) = "field_check" ->
  let forbidden field :=
    exists val checkVal,
      In val (GetAllFieldValues config field)
      /\ In checkVal (Check_Values (Rule_Check rule))
      /\ fmt_Sprintv val = fmt_Sprintv checkVal in
  CheckRule rule config = Some f
  <-> exists before field after,
        Check_Fields (Rule_Check rule) = (before ++ field :: after)%list
        /\ (forall y, In y before -> ~ forbidden y)
        /\ forbidden field
        /\ f = finding_of rule field.
Proof.
  intros Htype forbidden.
  assert (Hdispatch : CheckRule rule config
            = CheckRule_result rule
                (Some (checkFieldCheck fmt_Sprintv rule config))).
  { unfold CheckRule. now rewrite Htype. }
  rewrite Hdispatch. unfold checkFieldCheck.
  apply (first_hit_finding rule forbidden (fun field => field)).
  intros field. apply checkFieldCheck_values_cases.
Qed.

(** *** pattern_match *)

Lemma checkPatternMatch_values_cases field patterns values :
  let hit :=
    exists str pattern,
      In (VString str) values /\ In pattern patterns
      /\ regexp_MatchString pattern str = true in
  (checkPatternMatch_values regexp_MatchString field patterns values
   = Some (true, field) /\ hit)
  \/ (checkPatternMatch_values regexp_MatchString field patterns values = None
      /\ ~ hit).
Proof.
  intros hit. subst hit. unfold checkPatternMatch_values.
  set (inner := fun str pattern =>
         if regexp_MatchString pattern str then Some (true, field) else None).
  set (body := fun val =>
         match val with
         | VString str => range_return (inner str) patterns
         | _ => None
         end).
  assert (Hconst : forall x r, body x = Some r -> r = (true, field)).
  { intros x r Hr. destruct x; try discriminate. simpl in Hr.
    apply range_return_Some in Hr. destruct Hr as (pattern & _ & Hr).
    unfold inner in Hr.
    destruct (regexp_MatchString pattern s); congruence. }
  match goal with
  | |- (_ = _ /\ ?P) \/ (_ = _ /\ ?Q) =>
      change ((range_return body values = Some (true, field) /\ P)
              \/ (range_return body values = None /\ Q))
  end.
  destruct (range_return_cases body values _ Hconst)
    as [[-> (val & Hin & Hval)] | [-> Hnone]].
  - left. split; [reflexivity |].
    destruct val; try discriminate. simpl in Hval.
    apply range_return_Some in Hval. destruct Hval as (pattern & Hp & Hr).
    exists s, pattern. repeat split; try assumption.
    unfold inner in Hr. now destruct (regexp_MatchString pattern s).
  - right. split; [reflexivity |].
    intros (str & pattern & Hin & Hp & Hmatch).
    specialize (Hnone _ Hin). simpl in Hnone.
    rewrite range_return_None in Hnone. specialize (Hnone pattern Hp).
    unfold inner in Hnone. rewrite Hmatch in Hnone. discriminate.
Qed.

(** X11: a pattern_match rule with a non-empty Fields list yields a
    Finding exactly when a pattern matches a string candidate of a
    listed field; the location is the first listed field with such a
    candidate. *)
Theorem pattern_match_first_field rule config (f : Finding) :
  Check_Type (Rule_Check rule) = "pattern_match" ->
  Rule_Fields rule <> [] ->
  let matches field :=
    exists str pattern,
      In (VString str) (GetAllFieldValues config field)
      /\ In pattern (Check_Patterns (Rule_Check rule))
      /\ regexp_MatchString pattern str = true in
  CheckRule rule config = Some f
  <-> exists before field after,
        Rule_Fields rule = (before ++ field :: after)%list
        /\ (forall y, In y before -> ~ matches y)
        /\ matches field
        /\ f = finding_of rule field.
Proof.
  intros Htype Hfields matches.
  assert (Hdispatch : CheckRule rule config
            = CheckRule_result rule
                (Some (checkPatternMatch regexp_MatchString rule config))).
  { unfold CheckRule. now rewrite Htype. }
  rewrite Hdispatch. unfold checkPatternMatch.
  destruct (len_slice (Rule_Fields rule) >? 0)%Z eqn:Elen;
    [| now apply len_slice_pos in Elen].
  apply (first_hit_finding rule matches (fun field => field)).
  intros field. apply checkPatternMatch_values_cases.
Qed.

(** C10: a pattern_match rule with a non-empty Fields list tests only the
    string-typed candidates of the listed fields.  Its outcome is the
    same on any two Configs whose listed fields have the same
    string-typed candidates, whatever their candidates of other types
    are; a Finding it yields comes from a string-typed candidate that a
    pattern matches; and when no candidate is a string it yields no
    Finding. *)
Theorem pattern_match_tests_strings_only rule config :
  Check_Type (Rule_Check rule) = "pattern_match" ->
  Rule_Fields rule <> [] ->
  (forall config',
     (forall field, In field (Rule_Fields rule) ->
        filter is_string (GetAllFieldValues config field)
        = filter is_string (GetAllFieldValues config' field)) ->
     CheckRule rule config = CheckRule rule config')
  /\ (forall f, CheckRule rule config = Some f ->
        exists field str pattern,
          In field (Rule_Fields rule)
          /\ In (VString str) (GetAllFieldValues config field)
          /\ In pattern (Check_Patterns (Rule_Check rule))
          /\ regexp_MatchString pattern str = true
          /\ f = finding_of rule field)
  /\ ((forall field, In field (Rule_Fields rule) ->
         forall val, In val (GetAllFieldValues config field) ->
           is_string val = false) ->
      CheckRule rule config = None).
Proof.
  intros Htype Hfields.
  assert (Hdispatch : forall c, CheckRule rule c
            = CheckRule_result rule
                (Some (or_else
                   (range_return
                      (fun field =>
                         checkPatternMatch_values regexp_MatchString field
                           (Check_Patterns (Rule_Check rule))
                           (filter is_string (GetAllFieldValues c field)))
                      (Rule_Fields rule))
                   (false, "")))).
  { intros c. unfold CheckRule. rewrite Htype. simpl.
    unfold checkPatternMatch.
    destruct (len_slice (Rule_Fields rule) >? 0)%Z eqn:Elen;
      [| now apply len_slice_pos in Elen].
    rewrite (range_return_ext _
               (fun field =>
                  checkPatternMatch_values regexp_MatchString field
                    (Check_Patterns (Rule_Check rule))
                    (filter is_string (GetAllFieldValues c field)))
               (Rule_Fields rule)); [reflexivity |].
    intros field _. apply checkPatternMatch_values_strings. }
  split; [| split].
  - intros config' Hsame. rewrite (Hdispatch config), (Hdispatch config').
    rewrite (range_return_ext _
               (fun field =>
                  checkPatternMatch_values regexp_MatchString field
                    (Check_Patterns (Rule_Check rule))
                    (filter is_string (GetAllFieldValues config' field)))
               (Rule_Fields rule)); [reflexivity |].
    intros field Hfield. now rewrite (Hsame field Hfield).
  - intros f Hf. rewrite Hdispatch in Hf.
    destruct (range_return _ (Rule_Fields rule)) as [[v loc]|] eqn:E;
      [| discriminate].
    apply range_return_Some in E. destruct E as (field & Hfield & Hhit).
    destruct (checkPatternMatch_values_cases field
                (Check_Patterns (Rule_Check rule))
                (filter is_string (GetAllFieldValues config field)))
      as [[Hsome (str & pattern & Hin & Hp & Hmatch)] | [Hnone _]];
      [| congruence].
    rewrite Hsome in Hhit. injection Hhit as <- <-.
    simpl in Hf. injection Hf as <-.
    apply filter_In in Hin. destruct Hin as [Hin _].
    exists field, str, pattern. repeat split; assumption.
  - intros Hcandidates. rewrite Hdispatch.
    replace (range_return _ (Rule_Fields rule)) with (@None (bool * string));
      [reflexivity |].
    symmetry. apply range_return_None. intros field Hfield.
    now rewrite (filter_none _ _ (Hcandidates field Hfield)).
Qed.

(** X12: a pattern_match rule with an empty Fields list yields a Finding,
    located at "config content", exactly when one of its patterns
    matches the content corpus. *)
Theorem pattern_match_content_scope rule config :
  Check_Type (Rule_Check rule) = "pattern_match" ->
  Rule_Fields rule = [] ->
  let matches :=
    exists pattern,
      In pattern (Check_Patterns (Rule_Check rule))
      /\ regexp_MatchString pattern (GetAllContent config) = true in
  (matches -> CheckRule rule config = Some (finding_of rule "config content"))
  /\ (~ matches -> CheckRule rule config = None).
Proof.
  intros Htype Hfields matches. subst matches.
  assert (Hdispatch : CheckRule rule config
            = CheckRule_result rule
                (Some (checkPatternMatch regexp_MatchString rule config))).
  { unfold CheckRule. now rewrite Htype. }
  rewrite Hdispatch. unfold checkPatternMatch. rewrite Hfields.
  simpl len_slice. cbv iota. unfold checkPatternMatch_content.
  set (body := fun pattern : string =>
         if regexp_MatchString pattern (GetAllContent config)
         then Some (true, "config content") else None).
  assert (Hconst : forall x r, body x = Some r -> r = (true, "config content")).
  { intros x r. unfold body.
    destruct (regexp_MatchString x (GetAllContent config)); congruence. }
  destruct (range_return_cases body (Check_Patterns (Rule_Check rule)) _ Hconst)
    as [[-> (pattern & Hin & Hp)] | [-> Hnone]]; simpl; split;
    try reflexivity.
  - intros Hnot. exfalso. apply Hnot. exists pattern. split; [assumption |].
    unfold body in Hp.
    now destruct (regexp_MatchString pattern (GetAllContent config)).
  - intros (pattern & Hin & Hp). specialize (Hnone pattern Hin).
    unfold body in Hnone. rewrite Hp in Hnone. discriminate.
Qed.

(** *** Independence of the order of visit *)

(** X13: the outcome of a missing_field, missing_fields, field_exists or
    conditional_missing rule does not depend on the order in which the
    entries of the mappings are visited. *)
Theorem presence_rules_order_independent rule (m m' : Entries)
  (path path' : string) :
  In (Check_Type (Rule_Check rule)) presence_types ->
  Reorder m m' ->
  CheckRule rule (mkConfig m path) = CheckRule rule (mkConfig m' path').
Proof.
  intros Htype Hreorder.
  assert (Hfield : forall field,
             HasField (mkConfig m path) field
             = HasField (mkConfig m' path') field).
  { intros field. now apply hasFieldRecursive_Reorder. }
  assert (Hloop : forall (R : Type) (r : R) fields,
             range_return
               (fun field =>
                  if HasField (mkConfig m path) field then Some r else None)
               fields
             = range_return
                 (fun field =>
                    if HasField (mkConfig m' path') field then Some r else None)
                 fields).
  { intros R r fields. apply range_return_ext.
    intros field _. now rewrite Hfield. }
  unfold CheckRule.
  destruct Htype as [<- | [<- | [<- | [<- | []]]]]; simpl;
    unfold checkMissingField, checkMissingFields, checkFieldExists,
      checkConditionalMissing;
    rewrite ?Hfield, ?Hloop; reflexivity.
Qed.

(** A loop over candidates that looks into no mapping and whose every
    return is the same value. *)
Lemma candidates_loop_order_independent {R : Type}
  (body : Value -> option R) r (values values' : list Value) :
  (forall val val', SameCandidate val val' -> body val = body val') ->
  (forall val r', body val = Some r' -> r' = r) ->
  SameCandidates values values' ->
  range_return body values = range_return body values'.
Proof.
  intros Hmaps Hconst (rearranged & Hperm & Hsame).
  rewrite (range_return_Permutation body r values rearranged Hconst Hperm).
  clear Hperm. induction Hsame as [| val val' l l' Hval _ IH]; simpl; [reflexivity |].
  rewrite (Hmaps val val' Hval). now rewrite IH.
Qed.

Lemma checkSingleNumeric_values_loop param check values :
  checkSingleNumeric_values param check values
  = or_else (range_return (checkSingleNumeric_body param check) values)
      (false, "").
Proof.
  unfold checkSingleNumeric_values.
  destruct (len_slice values =? 0)%Z eqn:Elen; [| reflexivity].
  apply len_slice_zero in Elen. now rewrite Elen.
Qed.

(** X14: the outcome of a numeric_range rule, of a
    stop_sequence_complexity rule and of a pattern_match rule with a
    non-empty Fields list does not depend on the order in which the
    entries of the mappings are visited. *)
Theorem candidate_rules_order_independent rule (m m' : Entries)
  (path path' : string) :
  Check_Type (Rule_Check rule) = "numeric_range"
  \/ Check_Type (Rule_Check rule) = "stop_sequence_complexity"
  \/ (Check_Type (Rule_Check rule) = "pattern_match"
      /\ Rule_Fields rule <> []) ->
  Reorder m m' ->
  CheckRule rule (mkConfig m path) = CheckRule rule (mkConfig m' path').
Proof.
  intros Htype Hreorder.
  assert (Hperm : forall field,
             SameCandidates (GetAllFieldValues (mkConfig m path) field)
               (GetAllFieldValues (mkConfig m' path') field)).
  { intros field. now apply collectFieldValues_SameCandidates. }
  destruct Htype as [Htype | [Htype | [Htype Hfields]]].
  - (* numeric_range *)
    assert (Hsingle : forall param,
               checkSingleNumeric param (Rule_Check rule) (mkConfig m path)
               = checkSingleNumeric param (Rule_Check rule)
                   (mkConfig m' path')).
    { intros param. unfold checkSingleNumeric.
      rewrite !checkSingleNumeric_values_loop. f_equal.
      apply (candidates_loop_order_independent _ (true, param)).
      - intros val val' []; reflexivity.
      - intros val. apply (proj1 (checkSingleNumeric_body_spec _ _ val)).
      - apply Hperm. }
    rewrite !(CheckRule_numeric_range _ _ _ _ Htype). do 2 f_equal.
    unfold checkNumericRange. rewrite Hsingle.
    destruct (negb (Check_Parameter (Rule_Check rule) =? ""));
      [reflexivity |].
    destruct (len_slice (Check_Parameters (Rule_Check rule)) >? 0)%Z;
      [| reflexivity].
    f_equal. apply range_return_ext. intros param _. now rewrite Hsingle.
  - (* stop_sequence_complexity *)
    unfold CheckRule. rewrite Htype.
    cbn [String.eqb Ascii.eqb Bool.eqb]. do 2 f_equal.
    unfold checkStopSequenceComplexity, checkStopSequenceComplexity_values.
    f_equal.
    apply (candidates_loop_order_independent _
             (true, Check_Field (Rule_Check rule))).
    + intros val val' []; reflexivity.
    + intros val.
      apply (proj1 (checkStopSequence_body_spec regexp_MatchString _ _ val)).
    + apply Hperm.
  - (* pattern_match over fields *)
    unfold CheckRule. rewrite Htype.
    cbn [String.eqb Ascii.eqb Bool.eqb]. do 2 f_equal.
    unfold checkPatternMatch.
    destruct (len_slice (Rule_Fields rule) >? 0)%Z eqn:Elen;
      [| now apply len_slice_pos in Elen].
    f_equal. apply range_return_ext.
    intros field _. unfold checkPatternMatch_values.
    apply (candidates_loop_order_independent _ (true, field)).
    + intros val val' []; reflexivity.
    + intros val r Hr.
      destruct (checkPatternMatch_values_cases field
                  (Check_Patterns (Rule_Check rule)) [val])
        as [[Hone _] | [Hone _]];
        unfold checkPatternMatch_values in Hone; simpl in Hone;
        rewrite Hr in Hone; congruence.
    + apply Hperm.
Qed.

End PredicateProperties.

(** The integer candidate 12345 sits beside the string candidate
    "key-one".  Its rendering is made of digits, yet it is not tested:
    the outcome is the one of the Config without it, no Finding. *)
Lemma pattern_match_tests_strings_only_witness :
  CheckRule match_digits Sprintv_unused api_key_rule mixed_key_config
  = CheckRule match_digits Sprintv_unused api_key_rule text_key_config
  /\ CheckRule match_digits Sprintv_unused api_key_rule text_key_config
     = None.
Proof.
  split; [| reflexivity].
  destruct (pattern_match_tests_strings_only match_digits Sprintv_unused
              api_key_rule mixed_key_config) as (Hsame & _ & _).
  - reflexivity.
  - discriminate.
  - apply Hsame. intros field [<- | []]. reflexivity.
Defined.

(* ================================================================== *)
(** ** Further properties: the content corpus *)
(* ================================================================== *)

Lemma string_app_assoc (a b c : string) : (a ++ b) ++ c = a ++ b ++ c.
Proof. induction a as [|x a IH]; simpl; [reflexivity | now rewrite IH]. Qed.

Lemma string_app_nil_r (a : string) : a ++ "" = a.
Proof. induction a as [|x a IH]; simpl; [reflexivity | now rewrite IH]. Qed.

(** The two walks only append to what has been written. *)
Lemma collectContent_items_app items content :
  collectContent_items items content
  = content ++ collectContent_items items "".
Proof.
  revert content. induction items as [|item items IH]; intros content; simpl.
  - now rewrite string_app_nil_r.
  - destruct item; try apply IH.
    rewrite IH. symmetry. rewrite IH. symmetry.
    now rewrite !string_app_assoc.
Qed.

Lemma collectContent_app data content :
  collectContent data content = content ++ collectContent data "".
Proof.
  revert content.
  induction data as [|key val rest IHval IHrest] using Entries_nested_ind;
    intros content; simpl.
  - now rewrite string_app_nil_r.
  - rewrite IHrest. symmetry. rewrite IHrest. symmetry.
    destruct val; try (now rewrite ?string_app_assoc).
    + rewrite collectContent_items_app. now rewrite !string_app_assoc.
    + rewrite (IHval _ eq_refl). now rewrite !string_app_assoc.
Qed.

Lemma collectContent_items_holds items str :
  In (VString str) items ->
  exists before after,
    collectContent_items items "" = before ++ str ++ " " ++ after.
Proof.
  induction items as [|item items IH]; [intros [] |].
  intros [-> | Hin].
  - simpl. rewrite collectContent_items_app.
    exists "", (collectContent_items items ""). simpl.
    now rewrite string_app_assoc.
  - destruct (IH Hin) as (before & after & Hrest).
    destruct item; simpl; try (now exists before, after).
    rewrite collectContent_items_app, Hrest.
    exists (s ++ " " ++ before), after. now rewrite !string_app_assoc.
Qed.

(** X15: every string stored under a key, and every string element of a
    sequence stored under a key, of the root mapping or of a mapping
    reached through mapping values, is in the content corpus, followed
    by a space. *)
Theorem GetAllContent_holds_strings (config : Config) (name str : string) :
  StoredUnder name (VString str) (Config_Data config)
  \/ (exists items,
        StoredUnder name (VSeq items) (Config_Data config)
        /\ In (VString str) items) ->
  exists before after,
    GetAllContent config = before ++ str ++ " " ++ after.
Proof.
  unfold GetAllContent. generalize (Config_Data config) as data. intros data.
  assert (Hgen : forall val,
             StoredUnder name val data ->
             (val = VString str
              \/ exists items, val = VSeq items /\ In (VString str) items) ->
             exists before after,
               collectContent data "" = before ++ str ++ " " ++ after).
  { intros val Hstored Hval.
    induction Hstored as [rest | key nested rest _ IH | key v rest _ IH].
    - simpl. rewrite collectContent_app.
      destruct Hval as [-> | (items & -> & Hin)].
      + exists "", (collectContent rest ""). simpl.
        now rewrite string_app_assoc.
      + rewrite collectContent_items_app. simpl.
        destruct (collectContent_items_holds items str Hin)
          as (before & after & ->).
        exists before, (after ++ collectContent rest "").
        now rewrite !string_app_assoc.
    - destruct IH as (before & after & Hnested).
      simpl. rewrite collectContent_app.
      rewrite (collectContent_app nested), Hnested. simpl.
      exists before, (after ++ collectContent rest "").
      now rewrite !string_app_assoc.
    - destruct IH as (before & after & Hrest).
      simpl. rewrite collectContent_app, Hrest.
      exists (match v with
              | VString s => s ++ " "
              | VMap n => collectContent n ""
              | VSeq items => collectContent_items items ""
              | _ => ""
              end ++ before), after.
      destruct v; simpl; rewrite ?string_app_assoc; reflexivity. }
  intros [Hstr | (items & Hseq & Hin)].
  - apply (Hgen _ Hstr). now left.
  - apply (Hgen _ Hseq). right. eauto.
Qed.

(* ================================================================== *)
(** ** Further properties: scanning *)
(* ================================================================== *)

Section ScanProperties.

Variable regexp_MatchString : string -> string -> bool.
Variable fmt_Sprintv : Value -> string.
Variable ParseConfigFile : string -> result Config.
Variable NewScanner : string -> result Scanner.
Variable json_Encode : list ScanResult -> result unit.

Notation CheckRule := (CheckRule regexp_MatchString fmt_Sprintv).
Notation ScanConfig := (ScanConfig regexp_MatchString fmt_Sprintv).
Notation ScanFile :=
  (ScanFile regexp_MatchString fmt_Sprintv ParseConfigFile).
Notation runScan_files :=
  (runScan_files regexp_MatchString fmt_Sprintv ParseConfigFile).
Notation runScan :=
  (runScan regexp_MatchString fmt_Sprintv ParseConfigFile NewScanner
     json_Encode).

Lemma ScanConfig_loop config rules findings :
  fold_left
    (fun findings rule => ScanConfig_step findings (CheckRule rule config))
    rules findings
  = (findings
     ++ flat_map
          (fun rule =>
             match CheckRule rule config with
             | Some f => [f]
             | None => []
             end) rules)%list.
Proof.
  revert findings. induction rules as [|rule rules IH]; intros findings; simpl.
  - now rewrite app_nil_r.
  - rewrite IH. destruct (CheckRule rule config); simpl;
      now rewrite <- ?app_assoc.
Qed.

(** X16: the findings of a RuleSet are the findings of its first rules
    followed by the findings of its other rules: a rule's outcome does
    not depend on the rules around it. *)
Theorem ScanConfig_concatenates (version : string) (categories : list string)
  (rules1 rules2 : list Rule) (config : Config) :
  ScanConfig (mkScanner (mkRulesFile version (rules1 ++ rules2) categories))
    config
  = (ScanConfig (mkScanner (mkRulesFile version rules1 categories)) config
     ++ ScanConfig (mkScanner (mkRulesFile version rules2 categories)) config)%list.
Proof.
  unfold ScanConfig. simpl.
  rewrite !ScanConfig_loop. simpl. now rewrite flat_map_app.
Qed.

Lemma CheckRule_Some_finding_of rule config f :
  CheckRule rule config = Some f ->
  exists location, f = finding_of rule location.
Proof.
  unfold CheckRule.
  match goal with
  | |- CheckRule_result rule ?o = _ -> _ => destruct o as [[violated loc]|]
  end; simpl; [| discriminate].
  destruct violated; simpl; [| discriminate].
  intros [= <-]. now exists loc.
Qed.

(** X17: a scan reports the Findings of the rules that are violated, one
    for each and in the order of the RuleSet; every Finding carries the
    ID of its rule. *)
Theorem ScanConfig_findings (s : Scanner) (config : Config) :
  let rules := RulesFile_Rules (Scanner_rules s) in
  (forall f, In f (ScanConfig s config)
             <-> exists rule, In rule rules /\ CheckRule rule config = Some f)
  /\ map Finding_RuleID (ScanConfig s config)
     = map Rule_ID
         (filter
            (fun rule =>
               match CheckRule rule config with
               | Some _ => true
               | None => false
               end) rules)
  /\ List.length (ScanConfig s config) <= List.length rules.
Proof.
  intros rules. unfold ScanConfig. fold rules.
  rewrite ScanConfig_loop. simpl app.
  generalize rules as l. clear rules. intros l. repeat split.
  - intros Hin. apply in_flat_map in Hin. destruct Hin as (rule & Hrule & Hf).
    exists rule. split; [assumption |].
    destruct (CheckRule rule config) as [f'|]; [| destruct Hf].
    destruct Hf as [<- | []]. reflexivity.
  - intros (rule & Hrule & Hf). apply in_flat_map.
    exists rule. split; [assumption |]. rewrite Hf. now left.
  - induction l as [|rule l IH]; simpl; [reflexivity |].
    destruct (CheckRule rule config) as [f|] eqn:E; simpl; [| exact IH].
    destruct (CheckRule_Some_finding_of _ _ _ E) as (location & ->).
    simpl. now rewrite IH.
  - induction l as [|rule l IH]; simpl; [lia |].
    rewrite length_app. destruct (CheckRule rule config); simpl; lia.
Qed.

(** *** The command line *)

Lemma runScan_flags_files_gen n :
  forall args flags0 flags,
    List.length args <= n ->
    runScan_flags args flags0 = Ok flags ->
    exists files,
      Flags_configFiles flags = (Flags_configFiles flags0 ++ files)%list
      /\ forall file, In file files ->
           In file args /\ file <> "--rules" /\ file <> "--format".
Proof.
  induction n as [|n IH]; intros args flags0 flags Hlen.
  - destruct args; [| simpl in Hlen; lia]. simpl. intros [= <-].
    exists []. split; [now rewrite app_nil_r | now intros file []].
  - destruct args as [|arg rest]; simpl.
    { intros [= <-]. exists [].
      split; [now rewrite app_nil_r | now intros file []]. }
    simpl in Hlen.
    destruct (String.eqb_spec arg "--rules") as [-> | Hrules];
      [| destruct (String.eqb_spec arg "--format") as [-> | Hformat]].
    + destruct rest as [|value rest']; [discriminate |]. intros Hrun.
      apply IH in Hrun; [| simpl in Hlen; lia].
      destruct Hrun as (files & Hfiles & Hin). exists files.
      split; [exact Hfiles |]. intros file Hfile.
      destruct (Hin file Hfile) as (Hargs & Hne). split; [| exact Hne].
      right. now right.
    + destruct rest as [|value rest']; [discriminate |]. intros Hrun.
      apply IH in Hrun; [| simpl in Hlen; lia].
      destruct Hrun as (files & Hfiles & Hin). exists files.
      split; [exact Hfiles |]. intros file Hfile.
      destruct (Hin file Hfile) as (Hargs & Hne). split; [| exact Hne].
      right. now right.
    + intros Hrun. apply IH in Hrun; [| lia].
      destruct Hrun as (files & Hfiles & Hin). simpl in Hfiles.
      exists (arg :: files). split.
      * rewrite Hfiles. now rewrite <- app_assoc.
      * intros file [<- | Hfile]; [split; [now left | now split] |].
        destruct (Hin file Hfile) as (Hargs & Hne). split; [now right | exact Hne].
Qed.

(** X18: the config files [runScan] scans are arguments of the command
    line, none of them the flag "--rules" or "--format". *)
Theorem runScan_flags_config_files (args : list string) (flags : Flags) :
  runScan_flags args (mkFlags "" "" []) = Ok flags ->
  forall file, In file (Flags_configFiles flags) ->
    In file args /\ file <> "--rules" /\ file <> "--format".
Proof.
  intros Hrun file Hfile.
  destruct (runScan_flags_files_gen (List.length args) args _ _ (le_n _) Hrun)
    as (files & Hfiles & Hin).
  simpl in Hfiles. rewrite Hfiles in Hfile. now apply Hin.
Qed.

(** X19: when no argument is a flag, every argument is a config file, in
    the order given, and no rules file or format is set. *)
Theorem runScan_flags_without_flags (args : list string) (flags0 : Flags) :
  (forall arg, In arg args -> arg <> "--rules" /\ arg <> "--format") ->
  runScan_flags args flags0
  = Ok (mkFlags (Flags_rulesFile flags0) (Flags_outputFormat flags0)
          (Flags_configFiles flags0 ++ args)%list).
Proof.
  revert flags0. induction args as [|arg rest IH]; intros flags0 Hargs; simpl.
  - rewrite app_nil_r. now destruct flags0.
  - destruct (Hargs arg (or_introl eq_refl)) as [Hrules Hformat].
    apply String.eqb_neq in Hrules, Hformat. rewrite Hrules, Hformat.
    rewrite IH by (intros a Ha; apply Hargs; now right).
    simpl. now rewrite <- app_assoc.
Qed.

(** The loop over the files ends normally exactly when every file is
    scanned without error. *)
Lemma runScan_files_Ok s files allResults hasIssues out :
  runScan_files s files allResults hasIssues = Ok out
  <-> exists results,
        Forall2 (fun file result => ScanFile s file = Ok result) files results
        /\ out = ((allResults ++ results)%list,
                  hasIssues
                  || existsb
                       (fun result =>
                          (len_slice (ScanResult_Findings result) >? 0)%Z)
                       results).
Proof.
  revert allResults hasIssues.
  induction files as [|file files IH]; intros allResults hasIssues; simpl.
  - split.
    + intros [= <-]. exists []. split; [constructor |].
      now rewrite app_nil_r, orb_false_r.
    + intros (results & Hall & ->). inversion Hall; subst. simpl.
      now rewrite app_nil_r, orb_false_r.
  - destruct (ScanFile s file) as [result | err] eqn:Escan.
    + rewrite IH. split.
      * intros (results & Hall & ->). exists (result :: results).
        split; [now constructor |]. rewrite <- app_assoc. simpl.
        f_equal.
        destruct (len_slice (ScanResult_Findings result) >? 0)%Z;
          [now rewrite orb_true_r | reflexivity].
      * intros (results & Hall & ->).
        inversion Hall as [|? r ? results' Hr Hrest]; subst.
        rewrite Escan in Hr. injection Hr as <-.
        exists results'. split; [assumption |].
        rewrite <- app_assoc. simpl. f_equal.
        destruct (len_slice (ScanResult_Findings result) >? 0)%Z;
          [now rewrite orb_true_r | reflexivity].
    + split; [discriminate |].
      intros (results & Hall & _).
      inversion Hall as [|? r ? results' Hr Hrest]; subst. congruence.
Qed.

Lemma no_issues_iff (results : list ScanResult) :
  existsb (fun result => (len_slice (ScanResult_Findings result) >? 0)%Z)
    results = false
  <-> forall result, In result results -> ScanResult_Findings result = [].
Proof.
  induction results as [|r results IH]; simpl.
  - split; [now intros _ result [] | reflexivity].
  - rewrite orb_false_iff, IH, len_slice_pos. split.
    + intros [Hr Hrest] result [<- | Hin]; auto.
    + intros H. split; [apply H; now left |].
      intros result Hin. apply H. now right.
Qed.

Lemma Forall2_and_right {A B : Type} (P : A -> B -> Prop) (Q : B -> Prop)
  (l : list A) (l' : list B) :
  Forall2 (fun a b => P a b /\ Q b) l l'
  <-> Forall2 P l l' /\ forall b, In b l' -> Q b.
Proof.
  split.
  - induction 1 as [|a b l l' [HP HQ] _ [IH1 IH2]].
    + split; [constructor | now intros b []].
    + split; [now constructor |]. intros b' [<- | Hin]; auto.
  - intros [HP HQ]. induction HP as [|a b l l' Hab _ IH]; constructor.
    + split; [assumption | apply HQ; now left].
    + apply IH. intros b' Hin. apply HQ. now right.
Qed.

(** X20: [runScan] exits with code 0 exactly when the flags are well
    formed, at least one config file is named, the rules load, every
    config file is scanned without error and without a Finding, and,
    under "--format json", the JSON encoder does not fail; in every
    other case it exits with code 1. *)
Theorem runScan_exit_code (args : list string) :
  (Outcome_exit (runScan args) = 0%Z \/ Outcome_exit (runScan args) = 1%Z)
  /\ (Outcome_exit (runScan args) = 0%Z
      <-> exists flags s results,
            runScan_flags args (mkFlags "" "" []) = Ok flags
            /\ Flags_configFiles flags <> []
            /\ NewScanner
                 (if Flags_rulesFile flags =? "" then "rules.yaml"
                  else Flags_rulesFile flags) = Ok s
            /\ Forall2
                 (fun file result =>
                    ScanFile s file = Ok result
                    /\ ScanResult_Findings result = [])
                 (Flags_configFiles flags) results
            /\ (Flags_outputFormat flags = "json" ->
                exists done, json_Encode results = Ok done)).
Proof.
  unfold runScan.
  destruct (len_slice args =? 0)%Z eqn:Eargs.
  { apply len_slice_zero in Eargs. subst args. simpl.
    split; [now right |]. split; [discriminate |].
    intros (flags & s & results & [= <-] & Hfiles & _).
    exfalso. now apply Hfiles. }
  destruct (runScan_flags args (mkFlags "" "" [])) as [flags | message].
  2: { simpl. split; [now right |]. split; [discriminate |].
       intros (flags & s & results & Hflags & _). discriminate. }
  destruct (len_slice (Flags_configFiles flags) =? 0)%Z eqn:Efiles.
  { apply len_slice_zero in Efiles. simpl.
    split; [now right |]. split; [discriminate |].
    intros (flags' & s & results & [= <-] & Hfiles & _).
    exfalso. now apply Hfiles. }
  cbv zeta.
  destruct (NewScanner _) as [s | err] eqn:Escanner.
  2: { simpl. split; [now right |]. split; [discriminate |].
       intros (flags' & s & results & [= <-] & _ & Hs & _).
       rewrite Escanner in Hs. discriminate. }
  assert (Hsame : forall files results results',
             Forall2 (fun file result => ScanFile s file = Ok result)
               files results ->
             Forall2 (fun file result => ScanFile s file = Ok result)
               files results' ->
             results' = results).
  { intros files results results' Hall. revert results'.
    induction Hall as [|file r files results Hr _ IH]; intros results' Hall';
      inversion Hall' as [|? r' ? rs' Hr' Hrest]; subst; [reflexivity |].
    assert (r' = r) by congruence. subst r'. f_equal. now apply IH. }
  destruct (runScan_files s (Flags_configFiles flags) [] false)
    as [[allResults hasIssues] | message] eqn:Erun.
  2: { simpl. split; [now right |]. split; [discriminate |].
       intros (flags' & s' & results & [= <-] & _ & Hs & Hall & _).
       rewrite Escanner in Hs. injection Hs as <-.
       apply Forall2_and_right in Hall. destruct Hall as [Hall _].
       assert (Hok : runScan_files s (Flags_configFiles flags) [] false
                     = Ok (([] ++ results)%list,
                           false
                           || existsb
                                (fun result =>
                                   (len_slice (ScanResult_Findings result) >? 0)%Z)
                                results)).
       { apply runScan_files_Ok. now exists results. }
       rewrite Erun in Hok. discriminate. }
  apply runScan_files_Ok in Erun. destruct Erun as (results & Hall & Hout).
  injection Hout as -> ->. simpl app. simpl orb.
  assert (Hformat :
            ((if Flags_outputFormat flags =? "" then "text"
              else Flags_outputFormat flags) =? "json") = true
            <-> Flags_outputFormat flags = "json").
  { destruct (String.eqb_spec (Flags_outputFormat flags) "") as [-> | _].
    - split; discriminate.
    - apply String.eqb_eq. }
  destruct ((if Flags_outputFormat flags =? "" then "text"
             else Flags_outputFormat flags) =? "json") eqn:Ejson.
  - (* the JSON report *)
    assert (Hjson : Flags_outputFormat flags = "json") by now apply Hformat.
    destruct (json_Encode results) as [done | err] eqn:Eencode; simpl.
    + destruct (existsb _ results) eqn:Eissues.
      * split; [now right |]. split; [discriminate |].
        intros (flags' & s' & results' & [= <-] & _ & Hs & Hall' & _).
        rewrite Escanner in Hs. injection Hs as <-.
        apply Forall2_and_right in Hall'. destruct Hall' as [Hall' Hnone].
        rewrite (Hsame _ _ _ Hall Hall') in Hnone.
        apply no_issues_iff in Hnone. congruence.
      * split; [now left |]. split; [| reflexivity]. intros _.
        exists flags, s, results. repeat split.
        -- intros Hnil. rewrite Hnil in Efiles. discriminate.
        -- exact Escanner.
        -- apply Forall2_and_right. split; [assumption |].
           now apply no_issues_iff.
        -- intros _. now exists done.
    + split; [now right |]. split; [discriminate |].
      intros (flags' & s' & results' & [= <-] & _ & Hs & Hall' & Hencode).
      rewrite Escanner in Hs. injection Hs as <-.
      apply Forall2_and_right in Hall'. destruct Hall' as [Hall' _].
      rewrite (Hsame _ _ _ Hall Hall') in Hencode.
      destruct (Hencode Hjson) as (done & Hdone). congruence.
  - (* the text report *)
    assert (Hjson : Flags_outputFormat flags <> "json").
    { intros H. apply Hformat in H. congruence. }
    simpl. destruct (existsb _ results) eqn:Eissues.
    + split; [now right |]. split; [discriminate |].
      intros (flags' & s' & results' & [= <-] & _ & Hs & Hall' & _).
      rewrite Escanner in Hs. injection Hs as <-.
      apply Forall2_and_right in Hall'. destruct Hall' as [Hall' Hnone].
      rewrite (Hsame _ _ _ Hall Hall') in Hnone.
      apply no_issues_iff in Hnone. congruence.
    + split; [now left |]. split; [| reflexivity]. intros _.
      exists flags, s, results. repeat split.
      * intros Hnil. rewrite Hnil in Efiles. discriminate.
      * exact Escanner.
      * apply Forall2_and_right. split; [assumption |].
        now apply no_issues_iff.
      * intros H. contradiction.
Qed.

(** X21: the first config file that cannot be parsed ends the run: the
    error is written to standard error, no report is made of the files
    scanned before it, and the exit code is 1. *)
Theorem runScan_aborts_on_parse_failure (args : list string) (flags : Flags)
  (s : Scanner) (before after : list string) (file err : string) :
  runScan_flags args (mkFlags "" "" []) = Ok flags ->
  Flags_configFiles flags = (before ++ file :: after)%list ->
  NewScanner
    (if Flags_rulesFile flags =? "" then "rules.yaml"
     else Flags_rulesFile flags) = Ok s ->
  (forall f, In f before -> exists config, ParseConfigFile f = Ok config) ->
  ParseConfigFile file = Err err ->
  runScan args
  = exit_with_error
      ("Error scanning " ++ file ++ ": failed to parse config file: "
       ++ err ++ newline).
Proof.
  intros Hflags Hfiles Hscanner Hbefore Hfile.
  unfold runScan.
  destruct (len_slice args =? 0)%Z eqn:Eargs.
  { apply len_slice_zero in Eargs. subst args. simpl in Hflags.
    injection Hflags as <-. simpl in Hfiles. now destruct before. }
  rewrite Hflags.
  destruct (len_slice (Flags_configFiles flags) =? 0)%Z eqn:Efiles.
  { apply len_slice_zero in Efiles. rewrite Efiles in Hfiles.
    now destruct before. }
  cbv zeta. rewrite Hscanner, Hfiles.
  assert (Hloop : forall allResults hasIssues,
             runScan_files s (before ++ file :: after) allResults hasIssues
             = Err ("Error scanning " ++ file
                    ++ ": failed to parse config file: " ++ err ++ newline)).
  { clear Hfiles. induction before as [|f before IH];
      intros allResults hasIssues; simpl.
    - unfold ScanFile. now rewrite Hfile.
    - destruct (Hbefore f (or_introl eq_refl)) as (config & Hparse).
      unfold ScanFile at 1. rewrite Hparse.
      apply IH. intros f' Hin. apply Hbefore. now right. }
  now rewrite Hloop.
Qed.

End ScanProperties.

(* ================================================================== *)
(** ** The further properties on concrete inputs *)
(* ================================================================== *)

Lemma strings_Join_Split_round_trip_witness :
  strings_Split (strings_Join ["nested"; "api_key"] ".") "."
  = ["nested"; "api_key"].
Proof.
  apply strings_Join_Split_round_trip; [discriminate |].
  repeat constructor.
Defined.

Lemma GetValue_single_segment_witness :
  GetValue (config_of nested_data) "temperature"
  = map_index nested_data "temperature".
Proof. apply GetValue_single_segment. reflexivity. Defined.

Lemma GetValue_descends_witness :
  GetValue (config_of nested_data) "nested.api_key"
  = GetValue (config_of (ECons "api_key" (VString "sk-test") ENil)) "api_key".
Proof.
  apply (GetValue_descends (config_of nested_data) "nested" "api_key").
  reflexivity.
Defined.

Lemma GetValue_is_candidate_witness :
  In (VString "sk-test") (GetAllFieldValues (config_of nested_data) "api_key")
  /\ HasField (config_of nested_data) "api_key" = true.
Proof.
  apply (GetValue_is_candidate (config_of nested_data) "nested.api_key").
  reflexivity.
Defined.

Lemma numeric_range_first_violator_witness :
  CheckRule match_everything Sprintv_unused
    (rule_with (numeric_range_check "temperature" 0 1 "") [])
    temperature_config
  = Some (finding_of (rule_with (numeric_range_check "temperature" 0 1 "") [])
            "temperature").
Proof.
  apply numeric_range_first_violator; [reflexivity |].
  exists [], "temperature", []. split; [reflexivity |].
  split; [now intros p [] |]. split; [| reflexivity].
  exists (VFloat64 1.5). split; [now left |].
  exists 1.5%float. split; [reflexivity |].
  split; [right; reflexivity | right; left; reflexivity].
Defined.

Lemma missing_fields_all_absent_witness :
  CheckRule match_everything Sprintv_unused
    (rule_with (missing_fields_check ["rate_limit"; "rpm"; "tpm"]) [])
    model_config
  = Some (finding_of
            (rule_with (missing_fields_check ["rate_limit"; "rpm"; "tpm"]) [])
            "rate_limit, rpm, tpm").
Proof.
  apply (missing_fields_all_absent match_everything Sprintv_unused
           (rule_with (missing_fields_check ["rate_limit"; "rpm"; "tpm"]) [])
           model_config eq_refl).
  intros field [<- | [<- | [<- | []]]]; reflexivity.
Defined.

Lemma conditional_missing_spec_witness :
  CheckRule match_everything Sprintv_unused
    (rule_with (conditional_missing_check ["model"] ["rate_limit"]) [])
    model_config
  = Some (finding_of
            (rule_with (conditional_missing_check ["model"] ["rate_limit"]) [])
            "rate_limit").
Proof.
  apply (conditional_missing_spec match_everything Sprintv_unused
           (rule_with (conditional_missing_check ["model"] ["rate_limit"]) [])
           model_config eq_refl).
  split.
  - exists "model". split; [now left | reflexivity].
  - intros field [<- | []]. reflexivity.
Defined.

Lemma field_check_first_forbidden_witness :
  CheckRule match_everything Sprintv_scalars
    (rule_with (forbidden_values_check ["model"] [VString "gpt-4"]) [])
    model_config
  = Some (finding_of
            (rule_with (forbidden_values_check ["model"] [VString "gpt-4"]) [])
            "model").
Proof.
  apply field_check_first_forbidden; [reflexivity |].
  exists [], "model", []. split; [reflexivity |].
  split; [now intros y [] |]. split; [| reflexivity].
  exists (VString "gpt-4"), (VString "gpt-4").
  split; [now left |]. split; [now left | reflexivity].
Defined.

Lemma pattern_match_first_field_witness :
  CheckRule match_everything Sprintv_unused api_key_rule
    (config_of nested_data)
  = Some (finding_of api_key_rule "api_key").
Proof.
  apply pattern_match_first_field; [reflexivity | discriminate |].
  exists [], "api_key", []. split; [reflexivity |].
  split; [now intros y [] |]. split; [| reflexivity].
  exists "sk-test", "[0-9]+".
  split; [now left |]. split; [now left | reflexivity].
Defined.

Lemma pattern_match_content_scope_witness :
  CheckRule match_everything Sprintv_unused
    (rule_with (pattern_match_check ["gpt"]) []) model_config
  = Some (finding_of (rule_with (pattern_match_check ["gpt"]) [])
            "config content").
Proof.
  apply (pattern_match_content_scope match_everything Sprintv_unused
           (rule_with (pattern_match_check ["gpt"]) []) model_config
           eq_refl eq_refl).
  exists "gpt". split; [now left | reflexivity].
Defined.

Lemma presence_rules_order_independent_witness :
  CheckRule match_everything Sprintv_unused
    (rule_with (field_check_of "field_exists" "api_key") [])
    (mkConfig nested_data "a.json")
  = CheckRule match_everything Sprintv_unused
      (rule_with (field_check_of "field_exists" "api_key") [])
      (mkConfig nested_data_reordered "b.json").
Proof.
  apply presence_rules_order_independent.
  - simpl. tauto.
  - apply Reorder_swap.
Defined.

Lemma candidate_rules_order_independent_witness :
  CheckRule match_everything Sprintv_unused
    (rule_with (numeric_range_check "temperature" 0 0.5 "") [])
    (mkConfig nested_data "a.json")
  = CheckRule match_everything Sprintv_unused
      (rule_with (numeric_range_check "temperature" 0 0.5 "") [])
      (mkConfig nested_data_reordered "b.json").
Proof.
  apply candidate_rules_order_independent.
  - left. reflexivity.
  - apply Reorder_swap.
Defined.

Lemma GetAllContent_holds_strings_witness :
  exists before after,
    GetAllContent model_config = before ++ "gpt-4" ++ " " ++ after.
Proof.
  apply (GetAllContent_holds_strings model_config "model" "gpt-4").
  left. apply StoredUnder_here.
Defined.

Lemma runScan_flags_config_files_witness :
  Forall
    (fun file =>
       In file
          ["--rules"; "custom.yaml"; "a.json"; "--format"; "json"; "b.yaml"]
       /\ file <> "--rules" /\ file <> "--format")
    ["a.json"; "b.yaml"].
Proof.
  apply Forall_forall.
  apply (runScan_flags_config_files
           ["--rules"; "custom.yaml"; "a.json"; "--format"; "json"; "b.yaml"]
           (mkFlags "custom.yaml" "json" ["a.json"; "b.yaml"])).
  reflexivity.
Defined.

Lemma runScan_flags_without_flags_witness :
  runScan_flags ["a.json"; "b.yaml"] (mkFlags "" "" [])
  = Ok (mkFlags "" "" ["a.json"; "b.yaml"]).
Proof.
  apply (runScan_flags_without_flags ["a.json"; "b.yaml"] (mkFlags "" "" [])).
  intros arg [<- | [<- | []]]; split; discriminate.
Defined.

Lemma runScan_aborts_on_parse_failure_witness :
  runScan match_everything Sprintv_unused example_ParseConfigFile
    example_NewScanner example_json_Encode
    ["good.json"; "missing.json"; "other.json"]
  = exit_with_error
      ("Error scanning missing.json: failed to parse config file: "
       ++ "failed to read file: no such file or directory" ++ newline).
Proof.
  apply (runScan_aborts_on_parse_failure match_everything Sprintv_unused
           example_ParseConfigFile example_NewScanner example_json_Encode
           ["good.json"; "missing.json"; "other.json"]
           (mkFlags "" "" ["good.json"; "missing.json"; "other.json"])
           example_scanner ["good.json"] ["other.json"] "missing.json").
  - reflexivity.
  - reflexivity.
  - reflexivity.
  - intros f [<- | []]. eexists. reflexivity.
  - reflexivity.
Defined.

(* ================================================================== *)
(** ** Evaluation over the heap only reads its inputs *)
(* ================================================================== *)

Section HeapFrame.

Local Open Scope list_scope.

(** *** Heaps that grow *)

Lemma extends_refl h : extends h h.
Proof. exists []. now rewrite app_nil_r. Qed.

Lemma extends_trans h1 h2 h3 : extends h1 h2 -> extends h2 h3 -> extends h1 h3.
Proof.
  intros [fresh1 ->] [fresh2 ->]. exists (fresh1 ++ fresh2).
  now rewrite app_assoc.
Qed.

Lemma extends_app h fresh : extends h (h ++ fresh).
Proof. now exists fresh. Qed.

Lemma extends_preserved h h' : extends h h' -> preserved h h'.
Proof.
  intros [fresh ->] p o Hp. rewrite nth_error_app1; [assumption |].
  apply nth_error_Some. congruence.
Qed.

Lemma preserved_trans h1 h2 h3 :
  preserved h1 h2 -> preserved h2 h3 -> preserved h1 h3.
Proof. intros H12 H23 p o Hp. auto. Qed.

(** The object allocated last is the one at address [length h]. *)
Lemma nth_error_last (h : Heap.heap) (o : Heap.Object) :
  nth_error (h ++ [o]) (List.length h) = Some o.
Proof. rewrite nth_error_app2, Nat.sub_diag by lia. reflexivity. Qed.

Lemma update_last (h : Heap.heap) (o o' : Heap.Object) :
  Heap.update (h ++ [o]) (List.length h) o' = h ++ [o'].
Proof.
  unfold Heap.update.
  rewrite skipn_all2 by (rewrite length_app; simpl; lia).
  rewrite firstn_app, Nat.sub_diag, firstn_all. simpl.
  now rewrite app_nil_r.
Qed.

(** A store does change the heap: an object of [h] that is overwritten
    is not preserved. *)
Lemma store_not_preserved (h : Heap.heap) p o o' :
  nth_error h p = Some o -> o' <> o ->
  exists h', Heap.store p o' h = Some (tt, h') /\ ~ preserved h h'.
Proof.
  intros Hp Hne. exists (Heap.update h p o'). unfold Heap.store. rewrite Hp.
  split; [reflexivity |]. intros Hpres. specialize (Hpres p o Hp).
  unfold Heap.update in Hpres.
  assert (Hlen : p < List.length h) by (apply nth_error_Some; congruence).
  rewrite nth_error_app2 in Hpres by (rewrite length_firstn; lia).
  rewrite length_firstn, Nat.min_l, Nat.sub_diag in Hpres by lia.
  simpl in Hpres. congruence.
Qed.

(** *** What the heap holds is kept when it grows *)

Lemma holds_preserved {X : Type} (view : Heap.View X) h h' r (l : list X) :
  preserved h h' -> holds view h r l -> holds view h' r l.
Proof.
  intros Hpres. destruct r as [p|]; simpl; [| trivial].
  intros (o & Hp & Hview). exists o. split; [now apply Hpres | assumption].
Qed.

Lemma repr_preserved h h' :
  preserved h h' ->
  (forall item val, repr_value h item val -> repr_value h' item val)
  /\ (forall array items, repr_items h array items -> repr_items h' array items)
  /\ (forall table m, repr_entries h table m -> repr_entries h' table m).
Proof.
  intros Hpres. apply repr_mutind; intros; try constructor; try assumption.
  - apply (repr_VSeq _ _ array); [| assumption].
    apply (holds_preserved _ h); assumption.
  - apply (repr_VMap _ _ table); [| assumption].
    apply (holds_preserved _ h); assumption.
Qed.

Lemma repr_value_preserved h h' item val :
  preserved h h' -> repr_value h item val -> repr_value h' item val.
Proof. intros Hpres. apply (repr_preserved h h' Hpres). Qed.

Lemma repr_items_preserved h h' array items :
  preserved h h' -> repr_items h array items -> repr_items h' array items.
Proof. intros Hpres. apply (repr_preserved h h' Hpres). Qed.

Lemma repr_entries_preserved h h' table m :
  preserved h h' -> repr_entries h table m -> repr_entries h' table m.
Proof. intros Hpres. apply (repr_preserved h h' Hpres). Qed.

Lemma Forall2_weaken {A B : Type} (P Q : A -> B -> Prop) l l' :
  (forall a b, P a b -> Q a b) -> Forall2 P l l' -> Forall2 Q l l'.
Proof. intros HPQ. induction 1; constructor; auto. Qed.

Lemma repr_values_preserved h h' r l :
  preserved h h' -> repr_values h r l -> repr_values h' r l.
Proof.
  intros Hpres (array & Hholds & Hitems). exists array.
  split; [apply (holds_preserved _ h) | apply (repr_items_preserved h)];
    assumption.
Qed.

Lemma repr_condition_preserved h h' hc c :
  preserved h h' -> repr_condition h hc c -> repr_condition h' hc c.
Proof.
  intros Hpres (Hparam & Hop & Hval).
  repeat split; try assumption. apply (repr_value_preserved h); assumption.
Qed.

Lemma repr_conditions_preserved h h' r l :
  preserved h h' -> repr_conditions h r l -> repr_conditions h' r l.
Proof.
  intros Hpres (array & Hholds & Hitems). exists array.
  split; [apply (holds_preserved _ h); assumption |].
  apply (Forall2_weaken (repr_condition h)); [| assumption].
  intros hc c. now apply repr_condition_preserved.
Qed.

Lemma repr_check_preserved h h' hc c :
  preserved h h' -> repr_check h hc c -> repr_check h' hc c.
Proof.
  intros Hpres H. unfold repr_check, repr_strings in *.
  repeat match goal with
         | H : _ /\ _ |- _ => destruct H
         end.
  repeat match goal with
         | |- _ /\ _ => split
         end; try assumption;
    first [ apply (holds_preserved _ h); assumption
          | apply (repr_value_preserved h); assumption
          | apply (repr_conditions_preserved h); assumption
          | apply (repr_values_preserved h); assumption ].
Qed.

Lemma repr_rule_preserved h h' hr rule :
  preserved h h' -> repr_rule h hr rule -> repr_rule h' hr rule.
Proof.
  intros Hpres H. unfold repr_rule, repr_strings in *.
  repeat match goal with
         | H : _ /\ _ |- _ => destruct H
         end.
  repeat match goal with
         | |- _ /\ _ => split
         end; try assumption;
    first [ apply (holds_preserved _ h); assumption
          | apply (repr_check_preserved h); assumption ].
Qed.

Lemma repr_finding_preserved h h' hf f :
  preserved h h' -> repr_finding h hf f -> repr_finding h' hf f.
Proof.
  intros Hpres H. unfold repr_finding, repr_strings in *.
  repeat match goal with
         | H : _ /\ _ |- _ => destruct H
         end.
  repeat split; try assumption. apply (holds_preserved _ h); assumption.
Qed.

Lemma repr_config_preserved h h' config cfg :
  preserved h h' -> repr_config h config cfg -> repr_config h' config cfg.
Proof.
  intros Hpres (hc & table & Hp & Hpath & Hholds & Hentries).
  exists hc, table. repeat split; try assumption.
  - now apply Hpres.
  - apply (holds_preserved _ h); assumption.
  - apply (repr_entries_preserved h); assumption.
Qed.

Lemma repr_scanner_preserved h h' s sc :
  preserved h h' -> repr_scanner h s sc -> repr_scanner h' s sc.
Proof.
  intros Hpres (hs & array & Hp & Hversion & Hholds & Hrules & Hcats).
  exists hs, array. repeat split; try assumption.
  - now apply Hpres.
  - apply (holds_preserved _ h); assumption.
  - apply (Forall2_weaken (repr_rule h)); [| assumption].
    intros hr rule. now apply repr_rule_preserved.
  - apply (holds_preserved _ h); assumption.
Qed.

Lemma repr_items_Forall2 h array items :
  repr_items h array items <-> Forall2 (repr_value h) array items.
Proof.
  split; induction 1; constructor; assumption.
Qed.

Lemma repr_items_length h array items :
  repr_items h array items -> List.length array = List.length items.
Proof. induction 1; simpl; congruence. Qed.

Lemma repr_items_snoc h array items item val :
  repr_items h array items -> repr_value h item val ->
  repr_items h (array ++ [item]) (items ++ [val]).
Proof.
  intros Hitems Hval. induction Hitems; simpl.
  - constructor; [assumption | constructor].
  - constructor; assumption.
Qed.

(** *** Reading a map or a slice *)

Lemma elements_holds {X : Type} (view : Heap.View X) h r (l : list X) :
  holds view h r l -> Heap.elements view r h = Some (l, h).
Proof.
  destruct r as [p|]; simpl.
  - intros (o & Hp & Hview). unfold Heap.bind, Heap.load. rewrite Hp, Hview.
    reflexivity.
  - now intros ->.
Qed.

Lemma len_holds {X : Type} (view : Heap.View X) h r (l : list X) :
  holds view h r l -> Heap.len view r h = Some (len_slice l, h).
Proof.
  intros Hholds. unfold Heap.len, Heap.bind.
  now rewrite (elements_holds _ _ _ _ Hholds).
Qed.

Lemma index_holds {X : Type} (view : Heap.View X) h r (l : list X) i x :
  holds view h r l -> nth_error l i = Some x ->
  Heap.index view r i h = Some (x, h).
Proof.
  intros Hholds Hi. unfold Heap.index, Heap.bind.
  rewrite (elements_holds _ _ _ _ Hholds). now rewrite Hi.
Qed.

Lemma skipn_cons {X : Type} (l : list X) a x rest :
  skipn a l = x :: rest -> nth_error l a = Some x /\ skipn (S a) l = rest.
Proof.
  revert l. induction a as [|a IH]; intros l; simpl.
  - now intros ->.
  - destruct l as [|y l]; [discriminate |]. intros H.
    destruct (IH l H) as [Hnth Hskip]. split; [assumption |].
    destruct l; [destruct a; discriminate | exact Hskip].
Qed.

(** *** Loops, with an invariant on what is left to visit *)

Lemma for_return_suffix {X R : Type} (l : list X)
  (body : nat -> Heap.Run (option R))
  (Inv : list X -> Heap.heap -> Prop)
  (Post : option R -> Heap.heap -> Prop) :
  (forall a x rest h, nth_error l a = Some x -> Inv (x :: rest) h ->
     exists o h', body a h = Some (o, h')
       /\ match o with
          | Some r => Post (Some r) h'
          | None => Inv rest h'
          end) ->
  (forall h, Inv [] h -> Post None h) ->
  forall suf a h, skipn a l = suf -> Inv suf h ->
    exists o h',
      Heap.for_return body (seq a (List.length suf)) h = Some (o, h')
      /\ Post o h'.
Proof.
  intros Hbody Hend suf.
  induction suf as [|x rest IH]; intros a h Hskip Hinv; simpl.
  - exists None, h. split; [reflexivity | now apply Hend].
  - apply skipn_cons in Hskip. destruct Hskip as [Hnth Hskip].
    destruct (Hbody a x rest h Hnth Hinv) as (o & h' & Hrun & Ho).
    unfold Heap.bind. rewrite Hrun. destruct o as [r|].
    + exists (Some r), h'. split; [reflexivity | assumption].
    + now apply IH.
Qed.

Lemma for_fold_suffix {X S : Type} (l : list X)
  (step : S -> nat -> Heap.Run S)
  (Inv : list X -> S -> Heap.heap -> Prop) :
  (forall a x rest s h, nth_error l a = Some x -> Inv (x :: rest) s h ->
     exists s' h', step s a h = Some (s', h') /\ Inv rest s' h') ->
  forall suf a s h, skipn a l = suf -> Inv suf s h ->
    exists s' h',
      Heap.for_fold step (seq a (List.length suf)) s h = Some (s', h')
      /\ Inv [] s' h'.
Proof.
  intros Hstep suf.
  induction suf as [|x rest IH]; intros a s h Hskip Hinv; simpl.
  - exists s, h. split; [reflexivity | assumption].
  - apply skipn_cons in Hskip. destruct Hskip as [Hnth Hskip].
    destruct (Hstep a x rest s h Hnth Hinv) as (s' & h' & Hrun & Hs').
    unfold Heap.bind. rewrite Hrun. now apply IH.
Qed.

Lemma range_return_spec {X R : Type} (view : Heap.View X) (r : Heap.Ref)
  (l : list X) (body : X -> Heap.Run (option R))
  (Inv : list X -> Heap.heap -> Prop)
  (Post : option R -> Heap.heap -> Prop) :
  (forall suf h, Inv suf h -> holds view h r l) ->
  (forall x rest h, Inv (x :: rest) h ->
     exists o h', body x h = Some (o, h')
       /\ match o with
          | Some r => Post (Some r) h'
          | None => Inv rest h'
          end) ->
  (forall h, Inv [] h -> Post None h) ->
  forall h, Inv l h ->
    exists o h', Heap.range_return view r body h = Some (o, h') /\ Post o h'.
Proof.
  intros Hholds Hbody Hend h Hinv.
  unfold Heap.range_return, Heap.bind.
  rewrite (elements_holds _ _ _ _ (Hholds _ _ Hinv)).
  apply (for_return_suffix l _ Inv Post); try assumption; [| reflexivity].
  intros a x rest h1 Hnth Hinv1.
  rewrite (index_holds _ _ _ _ _ _ (Hholds _ _ Hinv1) Hnth).
  now apply Hbody.
Qed.

Lemma range_fold_spec {X S : Type} (view : Heap.View X) (r : Heap.Ref)
  (l : list X) (step : S -> X -> Heap.Run S)
  (Inv : list X -> S -> Heap.heap -> Prop) :
  (forall suf s h, Inv suf s h -> holds view h r l) ->
  (forall x rest s h, Inv (x :: rest) s h ->
     exists s' h', step s x h = Some (s', h') /\ Inv rest s' h') ->
  forall s h, Inv l s h ->
    exists s' h',
      Heap.range_fold view r step s h = Some (s', h') /\ Inv [] s' h'.
Proof.
  intros Hholds Hstep s h Hinv.
  unfold Heap.range_fold, Heap.bind.
  rewrite (elements_holds _ _ _ _ (Hholds _ _ _ Hinv)).
  apply (for_fold_suffix l _ Inv); try assumption; [| reflexivity].
  intros a x rest s1 h1 Hnth Hinv1.
  rewrite (index_holds _ _ _ _ _ _ (Hholds _ _ _ Hinv1) Hnth).
  now apply Hstep.
Qed.

(** *** Computations that only read what they found *)

Lemma reads_ret {A : Type} h (a : A) (Q : A -> Heap.heap -> Prop) :
  (forall h1, extends h h1 -> Q a h1) -> reads h (Heap.ret a) Q.
Proof.
  intros HQ h1 Hext. exists a, h1.
  split; [reflexivity |]. split; [apply extends_refl | now apply HQ].
Qed.

Lemma returns_ret {A : Type} h (a : A) : returns h (Heap.ret a) a.
Proof. now apply reads_ret. Qed.

Lemma reads_rebase {A : Type} h h' (m : Heap.Run A) Q :
  extends h h' -> reads h m Q -> reads h' m Q.
Proof.
  intros Hext Hm h1 Hext1. apply Hm. now apply (extends_trans _ h').
Qed.

Lemma reads_bind {A B : Type} h (m : Heap.Run A) (k : A -> Heap.Run B)
  (P : A -> Heap.heap -> Prop) (Q : B -> Heap.heap -> Prop) :
  reads h m P ->
  (forall a h1, extends h h1 -> P a h1 -> reads h1 (k a) Q) ->
  reads h (Heap.bind m k) Q.
Proof.
  intros Hm Hk h1 Hext1. unfold Heap.bind.
  destruct (Hm h1 Hext1) as (a & h2 & -> & Hext2 & HP).
  destruct (Hk a h2 (extends_trans _ _ _ Hext1 Hext2) HP h2 (extends_refl h2))
    as (b & h3 & Hrun & Hext3 & HQ).
  exists b, h3. split; [assumption |].
  split; [now apply (extends_trans _ h2) | assumption].
Qed.

Lemma returns_bind {A B : Type} h (m : Heap.Run A) (k : A -> Heap.Run B)
  a (Q : B -> Heap.heap -> Prop) :
  returns h m a -> reads h (k a) Q -> reads h (Heap.bind m k) Q.
Proof.
  intros Hm Hk. apply (reads_bind h m k (fun a' _ => a' = a)); [assumption |].
  intros a' h1 Hext ->. now apply (reads_rebase h).
Qed.

Lemma reads_weaken {A : Type} h (m : Heap.Run A)
  (P Q : A -> Heap.heap -> Prop) :
  reads h m P -> (forall a h1, extends h h1 -> P a h1 -> Q a h1) ->
  reads h m Q.
Proof.
  intros Hm HPQ h1 Hext1.
  destruct (Hm h1 Hext1) as (a & h2 & Hrun & Hext2 & HP).
  exists a, h2. split; [assumption |]. split; [assumption |].
  apply HPQ; [now apply (extends_trans _ h1) | assumption].
Qed.

Lemma returns_eq {A : Type} h (m : Heap.Run A) a a' :
  returns h m a -> a = a' -> returns h m a'.
Proof. now intros Hm <-. Qed.

Lemma returns_elements {X : Type} (view : Heap.View X) h r (l : list X) :
  holds view h r l -> returns h (Heap.elements view r) l.
Proof.
  intros Hholds h1 Hext. exists l, h1.
  rewrite (elements_holds view h1 r l).
  - split; [reflexivity |]. split; [apply extends_refl | reflexivity].
  - apply (holds_preserved _ h); [now apply extends_preserved | assumption].
Qed.

Lemma returns_len {X : Type} (view : Heap.View X) h r (l : list X) :
  holds view h r l -> returns h (Heap.len view r) (len_slice l).
Proof.
  intros Hholds. unfold Heap.len.
  apply (returns_bind _ _ _ l); [now apply returns_elements |].
  apply returns_ret.
Qed.

Lemma returns_Join h r l sep :
  holds Heap.strings h r l -> returns h (Heap.Join r sep) (strings_Join l sep).
Proof.
  intros Hholds. unfold Heap.Join.
  apply (returns_bind _ _ _ l); [now apply returns_elements |].
  apply returns_ret.
Qed.

(** A loop whose body only reads computes what the loop over the
    elements the slice holds computes. *)
Lemma returns_range_return {X X' R : Type} h (view : Heap.View X) r
  (l : list X) (l' : list X') (rel : X -> X' -> Prop)
  (bodyH : X -> Heap.Run (option R)) (body : X' -> option R) :
  holds view h r l -> Forall2 rel l l' ->
  (forall x x', rel x x' -> returns h (bodyH x) (body x')) ->
  returns h (Heap.range_return view r bodyH) (range_return body l').
Proof.
  intros Hholds Hrel Hbody h1 Hext1.
  destruct (range_return_spec view r l bodyH
              (fun suf h2 =>
                 extends h1 h2
                 /\ exists suf', Forall2 rel suf suf'
                      /\ range_return body suf' = range_return body l')
              (fun o h2 => extends h1 h2 /\ o = range_return body l'))
    with (h := h1) as (o & h2 & Hrun & Hext2 & Ho).
  - intros suf h2 [Hext2 _]. apply (holds_preserved _ h); [| assumption].
    apply extends_preserved. now apply (extends_trans _ h1).
  - intros x rest h2 (Hext2 & suf' & Hsuf & Hfinal).
    inversion Hsuf as [| x0 x' rest0 rest' Hx Hrest]; subst.
    destruct (Hbody x x' Hx h2 (extends_trans _ _ _ Hext1 Hext2))
      as (o & h3 & Hrun & Hext3 & ->).
    exists (body x'), h3. split; [assumption |].
    simpl in Hfinal. destruct (body x') as [res|].
    + split; [now apply (extends_trans _ h2) | assumption].
    + split; [now apply (extends_trans _ h2) |]. now exists rest'.
  - intros h2 (Hext2 & suf' & Hsuf & Hfinal).
    inversion Hsuf; subst. split; [assumption | exact Hfinal].
  - split; [apply extends_refl |]. now exists l'.
  - exists o, h2. repeat split; assumption.
Qed.

(** The same for a loop that updates local variables; the variables
    of the two loops are related by [relS], which may speak of the
    objects allocated so far. *)
Lemma reads_range_fold {X X' S S' : Type} h (view : Heap.View X) r
  (l : list X) (l' : list X') (rel : X -> X' -> Prop)
  (relS : S -> S' -> Heap.heap -> Prop)
  (stepH : S -> X -> Heap.Run S) (step : S' -> X' -> S') st st' :
  holds view h r l -> Forall2 rel l l' ->
  (forall s s' h1 x x', extends h h1 -> relS s s' h1 -> rel x x' ->
     reads h1 (stepH s x) (fun s2 h2 => relS s2 (step s' x') h2)) ->
  (forall h1, extends h h1 -> relS st st' h1) ->
  reads h (Heap.range_fold view r stepH st)
    (fun s2 h2 => relS s2 (fold_left step l' st') h2).
Proof.
  intros Hholds Hrel Hstep Hstart h1 Hext1.
  destruct (range_fold_spec view r l stepH
              (fun suf s h2 =>
                 extends h1 h2
                 /\ exists suf' s', Forall2 rel suf suf'
                      /\ relS s s' h2
                      /\ fold_left step suf' s' = fold_left step l' st'))
    with (s := st) (h := h1) as (s2 & h2 & Hrun & Hext2 & Hs2).
  - intros suf s h2 [Hext2 _]. apply (holds_preserved _ h); [| assumption].
    apply extends_preserved. now apply (extends_trans _ h1).
  - intros x rest s h2 (Hext2 & suf' & s' & Hsuf & Hs & Hfinal).
    inversion Hsuf as [| x0 x' rest0 rest' Hx Hrest]; subst.
    destruct (Hstep s s' h2 x x' (extends_trans _ _ _ Hext1 Hext2) Hs Hx
                h2 (extends_refl h2))
      as (s2 & h3 & Hrun & Hext3 & Hs2).
    exists s2, h3. split; [assumption |].
    split; [now apply (extends_trans _ h2) |].
    exists rest', (step s' x'). repeat split; assumption.
  - split; [apply extends_refl |]. exists l', st'.
    split; [assumption |]. split; [now apply Hstart | reflexivity].
  - destruct Hs2 as (suf' & s' & Hsuf & Hs & Hfinal).
    inversion Hsuf; subst. simpl in Hfinal. subst s'.
    exists s2, h2. repeat split; assumption.
Qed.

Lemma returns_range_fold {X X' S : Type} h (view : Heap.View X) r
  (l : list X) (l' : list X') (rel : X -> X' -> Prop)
  (stepH : S -> X -> Heap.Run S) (step : S -> X' -> S) st :
  holds view h r l -> Forall2 rel l l' ->
  (forall s x x', rel x x' -> returns h (stepH s x) (step s x')) ->
  returns h (Heap.range_fold view r stepH st) (fold_left step l' st).
Proof.
  intros Hholds Hrel Hstep.
  apply (reads_range_fold h view r l l' rel (fun s s' _ => s = s'));
    try assumption; [| reflexivity].
  intros s s' h1 x x' Hext -> Hx. apply (reads_rebase h); [assumption |].
  apply (reads_weaken _ _ _ _ (Hstep s' x x' Hx)). now intros a h2 _ ->.
Qed.

End HeapFrame.

Section HeapWalks.

Local Open Scope list_scope.

(** *** The walks of parser.go *)

Lemma returns_hasFieldRecursive h field stack : forall data table m,
  holds Heap.entries h data table -> repr_entries h table m ->
  depth_entries m < stack ->
  returns h (Heap.hasFieldRecursive stack data field)
    (hasFieldRecursive m field).
Proof.
  induction stack as [|stack IH]; intros data table m Hholds Hentries Hdepth;
    [lia |].
  cbn [Heap.hasFieldRecursive].
  apply (reads_bind _ _ _
           (fun o _ => or_else o false = hasFieldRecursive m field)).
  2: { intros o h1 _ <-. apply returns_ret. }
  intros h1 Hext1.
  apply (range_return_spec Heap.entries data table _
           (fun suf h2 =>
              extends h1 h2
              /\ exists m', repr_entries h suf m'
                   /\ depth_entries m' <= stack
                   /\ hasFieldRecursive m' field = hasFieldRecursive m field)
           (fun o h2 =>
              extends h1 h2
              /\ or_else o false = hasFieldRecursive m field)).
  - intros suf h2 [Hext2 _]. apply (holds_preserved _ h); [| assumption].
    apply extends_preserved. now apply (extends_trans _ h1).
  - intros [key item] rest h2 (Hext2 & m' & Hm' & Hd & Hfinal).
    inversion Hm' as [| key0 item0 val table0 rest' Hval Hrest]; subst.
    simpl in Hfinal. cbn [depth_entries depth] in Hd.
    destruct (key =? field) eqn:Ekey.
    { exists (Some true), h2. split; [reflexivity |].
      split; [assumption | exact Hfinal]. }
    inversion Hval as [ | | | | | | | r array items Hr Hitems
                        | r table' n Hr Hn ]; subst;
      try (exists None, h2; split; [reflexivity |];
           split; [assumption |]; exists rest';
           split; [assumption |]; split; [lia | exact Hfinal]).
    cbn [depth] in Hd.
    destruct (IH r table' n Hr Hn ltac:(lia) h2
                (extends_trans _ _ _ Hext1 Hext2))
      as (found & h3 & Hrun & Hext3 & ->).
    unfold Heap.bind. rewrite Hrun.
    destruct (hasFieldRecursive n field).
    + exists (Some true), h3. split; [reflexivity |].
      split; [now apply (extends_trans _ h2) | exact Hfinal].
    + exists None, h3. split; [reflexivity |].
      split; [now apply (extends_trans _ h2) |]. exists rest'.
      split; [assumption |]. split; [lia | exact Hfinal].
  - intros h2 (Hext2 & m' & Hm' & _ & Hfinal). inversion Hm'; subst.
    split; [assumption | exact Hfinal].
  - split; [apply extends_refl |]. exists m.
    split; [assumption |]. split; [lia | reflexivity].
Qed.

Lemma load_Config_holds h config hc :
  nth_error h config = Some (Heap.OConfig hc) ->
  returns h (Heap.load_Config config) hc.
Proof.
  intros Hp h1 Hext1. exists hc, h1.
  unfold Heap.load_Config, Heap.bind, Heap.load.
  rewrite (extends_preserved _ _ Hext1 _ _ Hp).
  split; [reflexivity |]. split; [apply extends_refl | reflexivity].
Qed.

Lemma returns_HasField h config cfg stack field :
  repr_config h config cfg -> depth_entries (Config_Data cfg) < stack ->
  returns h (Heap.HasField stack config field) (HasField cfg field).
Proof.
  intros (hc & table & Hp & _ & Hholds & Hentries) Hdepth.
  unfold Heap.HasField.
  apply (returns_bind _ _ _ hc); [now apply load_Config_holds |].
  now apply (returns_hasFieldRecursive _ _ _ _ table).
Qed.

Lemma append_last (h : Heap.heap) array item :
  Heap.append (List.length h) item (h ++ [Heap.OInterfaces array])
  = Some (tt, h ++ [Heap.OInterfaces (array ++ [item])]).
Proof.
  unfold Heap.append, Heap.load_interfaces, Heap.bind, Heap.load, Heap.store.
  rewrite nth_error_last. unfold Heap.ret. rewrite nth_error_last.
  now rewrite update_last.
Qed.

Lemma WriteString_last (h : Heap.heap) content str :
  Heap.WriteString (List.length h) str (h ++ [Heap.OBuilder content])
  = Some (tt, h ++ [Heap.OBuilder (content ++ str)%string]).
Proof.
  unfold Heap.WriteString, Heap.load_builder, Heap.bind, Heap.load, Heap.store.
  rewrite nth_error_last. unfold Heap.ret. rewrite nth_error_last.
  now rewrite update_last.
Qed.

(** The walk stores to the slice it appends to and to nothing else, and
    leaves in it the candidates the functional walk collects. *)
Lemma collectFieldValues_heap h field stack :
  forall data table m array values,
  holds Heap.entries h data table -> repr_entries h table m ->
  depth_entries m < stack ->
  repr_items h array values ->
  exists array',
    Heap.collectFieldValues stack data field (List.length h)
      (h ++ [Heap.OInterfaces array])
    = Some (tt, h ++ [Heap.OInterfaces array'])
    /\ repr_items h array' (collectFieldValues m field values).
Proof.
  induction stack as [|stack IH];
    intros data table m array values Hholds Hentries Hdepth Harray; [lia |].
  cbn [Heap.collectFieldValues]. unfold Heap.range.
  destruct (range_fold_spec Heap.entries data table
              (fun (_ : unit) '(key, val) =>
                 Heap.bind
                   (if key =? field
                    then Heap.append (List.length h) val else Heap.ret tt)
                   (fun _ =>
                      match val with
                      | Heap.IMap nested =>
                          Heap.collectFieldValues stack nested field
                            (List.length h)
                      | _ => Heap.ret tt
                      end))
              (fun suf _ h2 =>
                 exists m' arr vals,
                   repr_entries h suf m'
                   /\ depth_entries m' <= stack
                   /\ h2 = h ++ [Heap.OInterfaces arr]
                   /\ repr_items h arr vals
                   /\ collectFieldValues m' field vals
                      = collectFieldValues m field values))
    with (s := tt) (h := h ++ [Heap.OInterfaces array])
    as ([] & h2 & Hrun & m' & arr & vals & Hm' & _ & -> & Harr & Hfinal).
  - intros suf _ h2 (_ & arr & _ & _ & _ & -> & _).
    apply (holds_preserved _ h); [| assumption].
    apply extends_preserved, extends_app.
  - intros [key item] rest [] h2
      (m' & arr & vals & Hm' & Hd & -> & Harr & Hfinal).
    inversion Hm' as [| key0 item0 val table0 rest' Hval Hrest]; subst.
    simpl in Hfinal. cbn [depth_entries depth] in Hd. unfold Heap.bind.
    assert (Hhere :
      (if key =? field
       then Heap.append (List.length h) item else Heap.ret tt)
        (h ++ [Heap.OInterfaces arr])
      = Some (tt, h ++ [Heap.OInterfaces
                          (if key =? field then arr ++ [item] else arr)])).
    { destruct (key =? field); [apply append_last | reflexivity]. }
    rewrite Hhere.
    assert (Harr' :
      repr_items h (if key =? field then arr ++ [item] else arr)
        (if key =? field then vals ++ [val] else vals)).
    { destruct (key =? field); [now apply repr_items_snoc | assumption]. }
    inversion Hval as [ | | | | | | | r array0 items Hr Hitems
                        | r table' n Hr Hn ]; subst;
      try (exists tt; eexists; split; [reflexivity |];
           exists rest'; eexists; eexists;
           split; [eassumption |]; split; [lia |];
           split; [reflexivity |]; split; [exact Harr' | exact Hfinal]).
    cbn [depth] in Hd.
    destruct (IH r table' n _ _ Hr Hn ltac:(lia) Harr')
      as (arr2 & Hrun & Harr2).
    rewrite Hrun. exists tt. eexists. split; [reflexivity |].
    exists rest', arr2. eexists.
    split; [eassumption |]. split; [lia |].
    split; [reflexivity |]. split; [exact Harr2 | exact Hfinal].
  - exists m, array, values. repeat split; try assumption. lia.
  - inversion Hm'; subst. simpl in Hfinal. subst vals.
    exists arr. split; assumption.
Qed.

Lemma reads_GetAllFieldValues h config cfg stack field :
  repr_config h config cfg -> depth_entries (Config_Data cfg) < stack ->
  reads h (Heap.GetAllFieldValues stack config field)
    (fun r h' => repr_values h' r (GetAllFieldValues cfg field)).
Proof.
  intros (hc & table & Hp & _ & Hholds & Hentries) Hdepth h1 Hext1.
  pose proof (extends_preserved _ _ Hext1) as Hpres.
  unfold Heap.GetAllFieldValues, Heap.bind.
  destruct (load_Config_holds h config hc Hp h1 Hext1)
    as (hc' & h1' & Hrun & _ & ->).
  assert (h1' = h1) as ->.
  { unfold Heap.load_Config, Heap.bind, Heap.load in Hrun.
    rewrite (Hpres _ _ Hp) in Hrun. now injection Hrun. }
  rewrite Hrun. unfold Heap.new.
  destruct (collectFieldValues_heap h1 field stack (Heap.Config_Data hc)
              table (Config_Data cfg) [] [])
    as (array & Hwalk & Harray); try assumption.
  - apply (holds_preserved _ h); assumption.
  - apply (repr_entries_preserved h); assumption.
  - constructor.
  - rewrite Hwalk.
    exists (Some (List.length h1)), (h1 ++ [Heap.OInterfaces array]).
    split; [reflexivity |]. split; [apply extends_app |].
    exists array. split.
    + simpl. exists (Heap.OInterfaces array).
      split; [apply nth_error_last | reflexivity].
    + apply (repr_items_preserved h1); [| exact Harray].
      apply extends_preserved, extends_app.
Qed.

Lemma collectContent_items_heap h (r : Heap.Ref) array items content :
  holds Heap.interfaces h r array -> repr_items h array items ->
  Heap.range Heap.interfaces r
    (fun item =>
       match item with
       | Heap.IString str =>
           Heap.bind (Heap.WriteString (List.length h) str)
             (fun _ => Heap.WriteString (List.length h) " ")
       | _ => Heap.ret tt
       end)
    (h ++ [Heap.OBuilder content])
  = Some (tt, h ++ [Heap.OBuilder (collectContent_items items content)]).
Proof.
  intros Hholds Hitems. unfold Heap.range.
  destruct (range_fold_spec Heap.interfaces r array
              (fun (_ : unit) item =>
                 match item with
                 | Heap.IString str =>
                     Heap.bind (Heap.WriteString (List.length h) str)
                       (fun _ => Heap.WriteString (List.length h) " ")
                 | _ => Heap.ret tt
                 end)
              (fun suf _ h2 =>
                 exists items' written,
                   repr_items h suf items'
                   /\ h2 = h ++ [Heap.OBuilder written]
                   /\ collectContent_items items' written
                      = collectContent_items items content))
    with (s := tt) (h := h ++ [Heap.OBuilder content])
    as ([] & h2 & Hrun & items' & written & Hitems' & -> & Hfinal).
  - intros suf _ h2 (_ & written & _ & -> & _).
    apply (holds_preserved _ h); [| assumption].
    apply extends_preserved, extends_app.
  - intros item rest [] h2 (items' & written & Hitems' & -> & Hfinal).
    inversion Hitems' as [| item0 val array0 rest' Hval Hrest]; subst.
    inversion Hval; subst; simpl in Hfinal;
      try (exists tt; eexists; split; [reflexivity |];
           exists rest', written; repeat split; assumption).
    unfold Heap.bind. rewrite !WriteString_last.
    exists tt. eexists. split; [reflexivity |].
    exists rest'. eexists. split; [eassumption |].
    split; [reflexivity | exact Hfinal].
  - exists items, content. repeat split. assumption.
  - inversion Hitems'; subst. simpl in Hfinal. subst written. exact Hrun.
Qed.

Lemma collectContent_heap h stack : forall data table m content,
  holds Heap.entries h data table -> repr_entries h table m ->
  depth_entries m < stack ->
  Heap.collectContent stack data (List.length h)
    (h ++ [Heap.OBuilder content])
  = Some (tt, h ++ [Heap.OBuilder (collectContent m content)]).
Proof.
  induction stack as [|stack IH];
    intros data table m content Hholds Hentries Hdepth; [lia |].
  cbn [Heap.collectContent]. unfold Heap.range at 1.
  match goal with
  | |- Heap.range_fold _ _ ?step _ _ = _ =>
      destruct (range_fold_spec Heap.entries data table step
                  (fun suf _ h2 =>
                     exists m' written,
                       repr_entries h suf m'
                       /\ depth_entries m' <= stack
                       /\ h2 = h ++ [Heap.OBuilder written]
                       /\ collectContent m' written
                          = collectContent m content))
        with (s := tt) (h := h ++ [Heap.OBuilder content])
        as ([] & h2 & Hrun & m' & written & Hm' & _ & -> & Hfinal)
  end.
  - intros suf _ h2 (_ & written & _ & _ & -> & _).
    apply (holds_preserved _ h); [| assumption].
    apply extends_preserved, extends_app.
  - intros [key item] rest [] h2 (m' & written & Hm' & Hd & -> & Hfinal).
    inversion Hm' as [| key0 item0 val table0 rest' Hval Hrest]; subst.
    simpl in Hfinal. cbn [depth_entries depth] in Hd.
    inversion Hval as [ | | | | | | | r array0 items Hr Hitems
                        | r table' n Hr Hn ]; subst;
      try (exists tt; eexists; split; [reflexivity |];
           exists rest', written;
           split; [assumption |]; split; [lia |];
           split; [reflexivity | exact Hfinal]).
    + unfold Heap.bind. rewrite !WriteString_last.
      exists tt. eexists. split; [reflexivity |].
      exists rest'. eexists. split; [eassumption |]. split; [lia |].
      split; [reflexivity | exact Hfinal].
    + rewrite (collectContent_items_heap h r array0 items written Hr Hitems).
      exists tt. eexists. split; [reflexivity |].
      exists rest'. eexists. split; [eassumption |]. split; [lia |].
      split; [reflexivity | exact Hfinal].
    + cbn [depth] in Hd.
      rewrite (IH r table' n written Hr Hn ltac:(lia)).
      exists tt. eexists. split; [reflexivity |].
      exists rest'. eexists. split; [eassumption |]. split; [lia |].
      split; [reflexivity | exact Hfinal].
  - exists m, content. repeat split; try assumption. lia.
  - inversion Hm'; subst. simpl in Hfinal. subst written. exact Hrun.
Qed.

Lemma returns_GetAllContent h config cfg stack :
  repr_config h config cfg -> depth_entries (Config_Data cfg) < stack ->
  returns h (Heap.GetAllContent stack config) (GetAllContent cfg).
Proof.
  intros (hc & table & Hp & _ & Hholds & Hentries) Hdepth h1 Hext1.
  pose proof (extends_preserved _ _ Hext1) as Hpres.
  unfold Heap.GetAllContent, Heap.bind.
  unfold Heap.load_Config, Heap.bind, Heap.load.
  rewrite (Hpres _ _ Hp). unfold Heap.ret at 1. unfold Heap.new.
  rewrite (collectContent_heap h1 stack (Heap.Config_Data hc) table
             (Config_Data cfg) "").
  - unfold Heap.load_builder, Heap.bind, Heap.load. rewrite nth_error_last.
    eexists. eexists. split; [reflexivity |].
    split; [apply extends_app | reflexivity].
  - apply (holds_preserved _ h); assumption.
  - apply (repr_entries_preserved h); assumption.
  - assumption.
Qed.

End HeapWalks.

Section HeapPredicates.

Local Open Scope list_scope.

Variable regexp_MatchString : string -> string -> bool.
Variable fmt_Sprintv : Value -> string.

Notation CheckRule := (CheckRule regexp_MatchString fmt_Sprintv).

(** *** Formatting a value *)

Lemma fold_left_snoc {X : Type} (l read : list X) :
  fold_left (fun read x => read ++ [x]) l read = read ++ l.
Proof.
  revert read. induction l as [|x l IH]; intros read; simpl.
  - now rewrite app_nil_r.
  - rewrite IH. now rewrite <- app_assoc.
Qed.

Lemma Entries_of_list_entries_list m : Entries_of_list (entries_list m) = m.
Proof.
  induction m as [|key val rest IHval IHrest] using Entries_nested_ind;
    simpl; [reflexivity |]. now rewrite IHrest.
Qed.

Lemma repr_items_depth h array items n :
  repr_items h array items -> list_max (map depth items) <= n ->
  Forall2 (fun item val => repr_value h item val /\ depth val <= n)
    array items.
Proof.
  induction 1 as [| item val array items Hval _ IH]; intros Hn;
    constructor;
    change (Nat.max (depth val) (list_max (map depth items)) <= n) in Hn.
  - split; [assumption | lia].
  - apply IH. lia.
Qed.

Lemma repr_entries_depth h table m n :
  repr_entries h table m -> depth_entries m <= n ->
  Forall2
    (fun (entry : string * Heap.Interface) (entry' : string * Value) =>
       fst entry = fst entry'
       /\ repr_value h (snd entry) (snd entry')
       /\ depth (snd entry') <= n)
    table (entries_list m).
Proof.
  induction 1 as [| key item val table rest Hval _ IH];
    cbn [depth_entries entries_list]; intros Hn; constructor.
  - cbn [fst snd]. repeat split; [assumption | lia].
  - apply IH. lia.
Qed.

Lemma returns_read_value h stack : forall item val,
  repr_value h item val -> depth val < stack ->
  returns h (Heap.read_value stack item) val.
Proof.
  induction stack as [|stack IH]; intros item val Hval Hdepth; [lia |].
  inversion Hval as [ | | | | | | | r array items Hr Hitems
                      | r table m Hr Hm ]; subst;
    cbn [Heap.read_value]; try apply returns_ret;
    cbn [depth] in Hdepth.
  - apply (returns_bind _ _ _ items); [| apply returns_ret].
    apply (returns_eq _ _ (fold_left (fun read v => read ++ [v]) items []));
      [| apply fold_left_snoc].
    apply (returns_range_fold h Heap.interfaces r array items
             (fun item val => repr_value h item val /\ depth val <= stack - 1));
      [assumption | apply repr_items_depth; [assumption | lia] |].
    intros read x x' [Hx Hd].
    apply (returns_bind _ _ _ x'); [apply IH; [assumption | lia] |].
    apply returns_ret.
  - apply (returns_bind _ _ _ (entries_list m)).
    2: { rewrite Entries_of_list_entries_list. apply returns_ret. }
    apply (returns_eq _ _
             (fold_left (fun read entry => read ++ [entry])
                (entries_list m) []));
      [| apply fold_left_snoc].
    apply (returns_range_fold h Heap.entries r table (entries_list m)
             (fun entry entry' =>
                fst entry = fst entry'
                /\ repr_value h (snd entry) (snd entry')
                /\ depth (snd entry') <= stack - 1));
      [assumption | apply repr_entries_depth; [assumption | lia] |].
    intros read [key x] [key' x'] (Hkey & Hx & Hd). simpl in Hkey, Hx, Hd.
    subst key'.
    apply (returns_bind _ _ _ x'); [apply IH; [assumption | lia] |].
    apply returns_ret.
Qed.

Lemma returns_Sprintv h stack item val :
  repr_value h item val -> depth val < stack ->
  returns h (Heap.Sprintv fmt_Sprintv stack item) (fmt_Sprintv val).
Proof.
  intros Hval Hdepth. unfold Heap.Sprintv.
  apply (returns_bind _ _ _ val); [now apply returns_read_value |].
  apply returns_ret.
Qed.

(** *** The candidates are no deeper than the tree *)

Lemma StoredUnder_depth name val m :
  StoredUnder name val m -> depth val <= depth_entries m.
Proof.
  induction 1 as [rest | key nested rest _ IH | key v rest _ IH];
    cbn [depth_entries depth]; lia.
Qed.

Lemma GetAllFieldValues_depth cfg field :
  Forall (fun val => depth val <= depth_entries (Config_Data cfg))
    (GetAllFieldValues cfg field).
Proof.
  apply Forall_forall. intros val Hval.
  apply (StoredUnder_depth field). now apply collectFieldValues_StoredUnder.
Qed.

Lemma Forall2_refl_eq {X : Type} (l : list X) : Forall2 eq l l.
Proof. induction l; constructor; auto. Qed.

Lemma Forall2_and_Forall {X Y : Type} (P : X -> Y -> Prop) (Q : Y -> Prop)
  l l' :
  Forall2 P l l' -> Forall Q l' -> Forall2 (fun x y => P x y /\ Q y) l l'.
Proof.
  induction 1 as [| x y l l' Hxy _ IH]; intros HQ; constructor;
    inversion HQ; subst; auto.
Qed.

(** A loop over a slice of strings. *)
Lemma returns_range_strings {R : Type} h r l
  (bodyH : string -> Heap.Run (option R)) (body : string -> option R) :
  holds Heap.strings h r l ->
  (forall x, returns h (bodyH x) (body x)) ->
  returns h (Heap.range_return Heap.strings r bodyH) (range_return body l).
Proof.
  intros Hholds Hbody.
  apply (returns_range_return h Heap.strings r l l eq);
    [assumption | apply Forall2_refl_eq |].
  intros x x' <-. apply Hbody.
Qed.

(** *** The predicates *)

Section Predicates.

Variable h : Heap.heap.
Variable config : Heap.Ptr.
Variable cfg : Config.
Variable stack : nat.
Hypothesis Hconfig : repr_config h config cfg.
Hypothesis Hstack : depth_entries (Config_Data cfg) < stack.

Ltac destruct_check H :=
  destruct H as (Htype & Hparam & Hparams & Hfield & Hfields & Hpatterns
                 & Hop & Hvalue & Hmin & Hmax & Hcond & Hconds & Hreq
                 & Hany & Hall & Hvalues & Hmaxseq & Hmaxlen).

Ltac destruct_rule H :=
  destruct H as (Hid & Hname & Hseverity & Hcategory & Hdescription
                 & Hcheck & Hrecommendation & Hreferences & Hrulefields).

Lemma returns_HasField' field :
  returns h (Heap.HasField stack config field) (HasField cfg field).
Proof. now apply returns_HasField. Qed.

Lemma reads_candidates {A : Type} field (k : Heap.Ref -> Heap.Run A)
  (Q : A -> Heap.heap -> Prop) :
  (forall r h1 array,
     extends h h1 -> holds Heap.interfaces h1 r array ->
     Forall2 (fun item val => repr_value h1 item val /\ depth val < stack)
       array (GetAllFieldValues cfg field) ->
     reads h1 (k r) Q) ->
  reads h (Heap.bind (Heap.GetAllFieldValues stack config field) k) Q.
Proof.
  intros Hk.
  apply (reads_bind _ _ _ _ _
           (reads_GetAllFieldValues h config cfg stack field Hconfig Hstack)).
  intros r h1 Hext1 (array & Hholds & Hitems).
  apply (Hk r h1 array); try assumption.
  apply Forall2_and_Forall; [now apply repr_items_Forall2 |].
  apply (Forall_impl _ (P := fun val =>
           depth val <= depth_entries (Config_Data cfg)));
    [intros val Hval; lia | apply GetAllFieldValues_depth].
Qed.

Lemma Forall2_length_slice {X Y : Type} (P : X -> Y -> Prop) l l' :
  Forall2 P l l' -> len_slice l = len_slice l'.
Proof.
  intros H. unfold len_slice. now rewrite (Forall2_length H).
Qed.

Lemma checkSingleNumeric_body_repr h1 param hcheck check item val :
  repr_check h hcheck check -> repr_value h1 item val ->
  Heap.checkSingleNumeric_body param hcheck item
  = checkSingleNumeric_body param check val.
Proof.
  intros Hcheck Hval. destruct_check Hcheck.
  inversion Hval; subst; simpl; try reflexivity;
    unfold Heap.checkSingleNumeric_num, checkSingleNumeric_num;
    now rewrite Hmin, Hmax, Hcond.
Qed.

Lemma returns_checkSingleNumeric param hcheck check :
  repr_check h hcheck check ->
  returns h (Heap.checkSingleNumeric stack param hcheck config)
    (checkSingleNumeric param check cfg).
Proof.
  intros Hcheck.
  unfold Heap.checkSingleNumeric, checkSingleNumeric,
    checkSingleNumeric_values.
  apply reads_candidates. intros r h1 array Hext1 Hholds Hitems.
  apply (returns_bind _ _ _ (len_slice array)); [now apply returns_len |].
  rewrite <- (Forall2_length_slice _ _ _ Hitems).
  destruct (len_slice array =? 0)%Z; [apply returns_ret |].
  apply (returns_bind _ _ _
           (range_return (checkSingleNumeric_body param check)
              (GetAllFieldValues cfg param))); [| apply returns_ret].
  apply (returns_range_return h1 Heap.interfaces r array _ _ _ _
           Hholds Hitems).
  intros item val [Hval _].
  apply (returns_eq _ _ (Heap.checkSingleNumeric_body param hcheck item));
    [apply returns_ret | now apply (checkSingleNumeric_body_repr h1)].
Qed.

Lemma returns_checkNumericRange hrule rule :
  repr_rule h hrule rule ->
  returns h (Heap.checkNumericRange stack hrule config)
    (checkNumericRange rule cfg).
Proof.
  intros Hrule. destruct_rule Hrule. pose proof Hcheck as Hcheck'.
  destruct_check Hcheck.
  unfold Heap.checkNumericRange, checkNumericRange. cbv zeta.
  rewrite Hparam.
  destruct (negb (Check_Parameter (Rule_Check rule) =? ""));
    [now apply returns_checkSingleNumeric |].
  apply (returns_bind _ _ _ (len_slice (Check_Parameters (Rule_Check rule))));
    [now apply returns_len |].
  destruct (len_slice (Check_Parameters (Rule_Check rule)) >? 0)%Z.
  - apply (returns_bind _ _ _
             (range_return
                (fun param =>
                   checkNumericRange_body
                     (checkSingleNumeric param (Rule_Check rule) cfg))
                (Check_Parameters (Rule_Check rule))));
      [| apply returns_ret].
    apply returns_range_strings; [assumption |]. intros param.
    apply (returns_bind _ _ _
             (checkSingleNumeric param (Rule_Check rule) cfg));
      [now apply returns_checkSingleNumeric | apply returns_ret].
  - apply (returns_bind _ _ _ None); apply returns_ret.
Qed.

Lemma returns_checkMissingField hrule rule :
  repr_rule h hrule rule ->
  returns h (Heap.checkMissingField stack hrule config)
    (checkMissingField rule cfg).
Proof.
  intros Hrule. destruct_rule Hrule. destruct_check Hcheck.
  unfold Heap.checkMissingField, checkMissingField. cbv zeta. rewrite Hfield.
  apply (returns_bind _ _ _ (HasField cfg (Check_Field (Rule_Check rule))));
    [apply returns_HasField' | apply returns_ret].
Qed.

Lemma returns_checkFieldExists hrule rule :
  repr_rule h hrule rule ->
  returns h (Heap.checkFieldExists stack hrule config)
    (checkFieldExists rule cfg).
Proof.
  intros Hrule. destruct_rule Hrule. destruct_check Hcheck.
  unfold Heap.checkFieldExists, checkFieldExists. cbv zeta. rewrite Hfield.
  apply (returns_bind _ _ _ (HasField cfg (Check_Field (Rule_Check rule))));
    [apply returns_HasField' | apply returns_ret].
Qed.

(** The loop of the predicates that stop at the first field present. *)
Lemma returns_first_present {R : Type} r l (found : R) :
  holds Heap.strings h r l ->
  returns h
    (Heap.range_return Heap.strings r
       (fun field =>
          Heap.bind (Heap.HasField stack config field)
            (fun present => Heap.ret (if present then Some found else None))))
    (range_return
       (fun field => if HasField cfg field then Some found else None) l).
Proof.
  intros Hholds. apply returns_range_strings; [assumption |]. intros field.
  apply (returns_bind _ _ _ (HasField cfg field));
    [apply returns_HasField' | apply returns_ret].
Qed.

Lemma returns_checkMissingFields hrule rule :
  repr_rule h hrule rule ->
  returns h (Heap.checkMissingFields stack hrule config)
    (checkMissingFields rule cfg).
Proof.
  intros Hrule. destruct_rule Hrule. destruct_check Hcheck.
  unfold Heap.checkMissingFields, checkMissingFields.
  eapply returns_bind; [exact (returns_first_present _ _ _ Hfields) |].
  destruct (range_return _ (Check_Fields (Rule_Check rule))) as [res|]; simpl;
    [apply returns_ret |].
  eapply returns_bind; [apply returns_Join; eassumption | apply returns_ret].
Qed.

Lemma returns_checkConditionalMissing hrule rule :
  repr_rule h hrule rule ->
  returns h (Heap.checkConditionalMissing stack hrule config)
    (checkConditionalMissing rule cfg).
Proof.
  intros Hrule. destruct_rule Hrule. destruct_check Hcheck.
  unfold Heap.checkConditionalMissing, checkConditionalMissing.
  eapply returns_bind; [exact (returns_first_present _ _ _ Hany) |].
  cbv zeta. destruct (negb (or_else _ false)); [apply returns_ret |].
  eapply returns_bind; [exact (returns_first_present _ _ _ Hall) |].
  destruct (range_return _ (Check_MissingAll (Rule_Check rule))) as [res|];
    simpl; [apply returns_ret |].
  eapply returns_bind; [apply returns_Join; eassumption | apply returns_ret].
Qed.

Lemma returns_checkStopSequence_body h1 field hcheck check item val :
  repr_check h hcheck check -> repr_value h1 item val ->
  returns h1 (Heap.checkStopSequence_body field hcheck item)
    (checkStopSequence_body field check val).
Proof.
  intros Hcheck Hval. destruct_check Hcheck.
  inversion Hval as [ | | | | | | | r array items Hr Hitems
                      | r table m Hr Hm ]; subst;
    unfold Heap.checkStopSequence_body, checkStopSequence_body;
    rewrite ?Hmaxseq, ?Hmaxlen; try apply returns_ret.
  pose proof (repr_items_length _ _ _ Hitems) as Hlen.
  apply (returns_bind _ _ _
           ((Check_MaxSequences check >? 0)%Z
            && (len_slice items >? Check_MaxSequences check)%Z)).
  { destruct (Check_MaxSequences check >? 0)%Z; simpl; [| apply returns_ret].
    apply (returns_bind _ _ _ (len_slice array)); [now apply returns_len |].
    unfold len_slice. rewrite Hlen. apply returns_ret. }
  destruct ((Check_MaxSequences check >? 0)%Z
            && (len_slice items >? Check_MaxSequences check)%Z);
    [apply returns_ret |].
  destruct (Check_MaxLength check >? 0)%Z; [| apply returns_ret].
  unfold checkStopSequence_items.
  apply (returns_range_return h1 Heap.interfaces r array items
           (repr_value h1)); [assumption | now apply repr_items_Forall2 |].
  intros x x' Hx. inversion Hx; subst; apply returns_ret.
Qed.

Lemma returns_checkStopSequenceComplexity hrule rule :
  repr_rule h hrule rule ->
  returns h (Heap.checkStopSequenceComplexity stack hrule config)
    (checkStopSequenceComplexity rule cfg).
Proof.
  intros Hrule. destruct_rule Hrule. pose proof Hcheck as Hcheck'.
  destruct_check Hcheck.
  unfold Heap.checkStopSequenceComplexity, checkStopSequenceComplexity,
    checkStopSequenceComplexity_values. cbv zeta. rewrite Hfield.
  apply reads_candidates. intros r h1 array Hext1 Hholds Hitems.
  eapply returns_bind; [| apply returns_ret].
  apply (returns_range_return h1 Heap.interfaces r array _ _ _ _
           Hholds Hitems).
  intros item val [Hval _]. now apply returns_checkStopSequence_body.
Qed.

Lemma returns_checkPatternMatch hrule rule :
  repr_rule h hrule rule ->
  returns h (Heap.checkPatternMatch regexp_MatchString stack hrule config)
    (checkPatternMatch regexp_MatchString rule cfg).
Proof.
  intros Hrule. destruct_rule Hrule. destruct_check Hcheck.
  unfold Heap.checkPatternMatch, checkPatternMatch. cbv zeta.
  apply (returns_bind _ _ _ (len_slice (Rule_Fields rule)));
    [now apply returns_len |].
  destruct (len_slice (Rule_Fields rule) >? 0)%Z.
  - eapply returns_bind; [| apply returns_ret].
    apply returns_range_strings; [assumption |]. intros field.
    unfold checkPatternMatch_values.
    apply reads_candidates. intros r h1 array Hext1 Hholds Hitems.
    apply (returns_range_return h1 Heap.interfaces r array _ _ _ _
             Hholds Hitems).
    intros item val [Hval _].
    inversion Hval; subst; try apply returns_ret.
    apply returns_range_strings.
    + apply (holds_preserved _ h); [now apply extends_preserved | assumption].
    + intros pattern. apply returns_ret.
  - apply (returns_bind _ _ _ (GetAllContent cfg));
      [now apply returns_GetAllContent |].
    unfold checkPatternMatch_content.
    eapply returns_bind; [| apply returns_ret].
    apply returns_range_strings; [assumption |].
    intros pattern. apply returns_ret.
Qed.

Lemma toFloat_repr h1 item val :
  repr_value h1 item val -> Heap.toFloat item = toFloat val.
Proof. intros Hval. inversion Hval; reflexivity. Qed.

Lemma returns_checkCondition_body h1 hcond cond item val :
  repr_condition h1 hcond cond ->
  depth (Condition_Value cond) < stack ->
  repr_value h1 item val -> depth val < stack ->
  returns h1 (Heap.checkCondition_body fmt_Sprintv stack hcond item)
    (checkCondition_body fmt_Sprintv cond val).
Proof.
  intros (Hparam & Hop & Hvalue) Hdc Hval Hdv.
  unfold Heap.checkCondition_body, checkCondition_body. cbv zeta.
  rewrite Hop.
  destruct (Condition_Operator cond =? "greater_than").
  { rewrite (toFloat_repr _ _ _ Hval), (toFloat_repr _ _ _ Hvalue).
    apply returns_ret. }
  destruct (Condition_Operator cond =? "not_equals").
  { eapply returns_bind; [exact (returns_Sprintv _ _ _ _ Hval Hdv) |].
    eapply returns_bind; [exact (returns_Sprintv _ _ _ _ Hvalue Hdc) |].
    apply returns_ret. }
  destruct (Condition_Operator cond =? "equals").
  { eapply returns_bind; [exact (returns_Sprintv _ _ _ _ Hval Hdv) |].
    eapply returns_bind; [exact (returns_Sprintv _ _ _ _ Hvalue Hdc) |].
    apply returns_ret. }
  apply returns_ret.
Qed.

Lemma returns_checkCondition hcond cond :
  repr_condition h hcond cond ->
  depth (Condition_Value cond) < stack ->
  returns h (Heap.checkCondition fmt_Sprintv stack hcond config)
    (checkCondition fmt_Sprintv cond cfg).
Proof.
  intros Hcond Hdc. pose proof Hcond as (Hparam & _ & _).
  unfold Heap.checkCondition, checkCondition, checkCondition_values.
  rewrite Hparam.
  apply reads_candidates. intros r h1 array Hext1 Hholds Hitems.
  apply (returns_bind _ _ _ (len_slice array)); [now apply returns_len |].
  rewrite <- (Forall2_length_slice _ _ _ Hitems).
  destruct (len_slice array =? 0)%Z; [apply returns_ret |].
  eapply returns_bind; [| apply returns_ret].
  apply (returns_range_return h1 Heap.interfaces r array _ _ _ _
           Hholds Hitems).
  intros item val [Hval Hdv].
  apply returns_checkCondition_body; try assumption.
  apply (repr_condition_preserved h); [| assumption].
  now apply extends_preserved.
Qed.

Lemma Forall_list_max {X : Type} (f : X -> nat) (l : list X) n :
  list_max (map f l) < n -> Forall (fun x => f x < n) l.
Proof.
  induction l as [|x l IH]; intros Hn; constructor;
    change (Nat.max (f x) (list_max (map f l)) < n) in Hn.
  - lia.
  - apply IH. lia.
Qed.

Lemma returns_checkCombinedConditions hrule rule :
  repr_rule h hrule rule -> depth_rule rule < stack ->
  returns h (Heap.checkCombinedConditions fmt_Sprintv stack hrule config)
    (checkCombinedConditions fmt_Sprintv rule cfg).
Proof.
  intros Hrule Hdepth. destruct_rule Hrule. destruct_check Hcheck.
  destruct Hconds as (array & Hholds & Hitems).
  unfold Heap.checkCombinedConditions, checkCombinedConditions.
  apply (returns_bind _ _ _
           (fold_left
              (fun st condition =>
                 checkCombinedConditions_step st condition
                   (checkCondition fmt_Sprintv condition cfg))
              (Check_Conditions (Rule_Check rule)) (0%Z, []))).
  - apply (returns_range_fold h Heap.conditions _ array
             (Check_Conditions (Rule_Check rule))
             (fun hcond cond =>
                repr_condition h hcond cond
                /\ depth (Condition_Value cond) < stack)).
    + assumption.
    + apply Forall2_and_Forall; [assumption |].
      apply Forall_list_max. unfold depth_rule in Hdepth. lia.
    + intros st hcond cond [Hrepr Hdc].
      apply (returns_bind _ _ _ (checkCondition fmt_Sprintv cond cfg));
        [now apply returns_checkCondition |].
      apply (returns_eq _ _
               (Heap.checkCombinedConditions_step st hcond
                  (checkCondition fmt_Sprintv cond cfg)));
        [apply returns_ret |].
      destruct Hrepr as (Hcp & _ & _).
      unfold Heap.checkCombinedConditions_step, checkCombinedConditions_step.
      now rewrite Hcp.
  - unfold checkCombinedConditions_require.
    destruct (fold_left _ (Check_Conditions (Rule_Check rule)) (0%Z, []))
      as [metCount locations].
    cbv zeta. rewrite Hreq.
    destruct (Check_Require (Rule_Check rule) =? "all").
    { apply (returns_bind _ _ _ (len_slice array));
        [now apply returns_len |].
      rewrite (Forall2_length_slice _ _ _ Hitems). apply returns_ret. }
    repeat match goal with
           | |- context [if ?b then _ else _] => destruct b
           end; apply returns_ret.
Qed.

Lemma returns_checkFieldCheck hrule rule :
  repr_rule h hrule rule -> depth_rule rule < stack ->
  returns h (Heap.checkFieldCheck fmt_Sprintv stack hrule config)
    (checkFieldCheck fmt_Sprintv rule cfg).
Proof.
  intros Hrule Hdepth. destruct_rule Hrule. destruct_check Hcheck.
  destruct Hvalues as (forbidden & Hforbidden & Hfitems).
  unfold Heap.checkFieldCheck, checkFieldCheck.
  eapply returns_bind; [| apply returns_ret].
  apply returns_range_strings; [assumption |]. intros field.
  unfold checkFieldCheck_values.
  apply reads_candidates. intros r h1 array Hext1 Hholds Hitems.
  pose proof (extends_preserved _ _ Hext1) as Hpres.
  apply (returns_range_return h1 Heap.interfaces r array _ _ _ _
           Hholds Hitems).
  intros item val [Hval Hdv]. cbv zeta.
  eapply returns_bind; [exact (returns_Sprintv _ _ _ _ Hval Hdv) |].
  apply (returns_range_return h1 Heap.interfaces _ forbidden
           (Check_Values (Rule_Check rule))
           (fun item val => repr_value h1 item val /\ depth val < stack)).
  - apply (holds_preserved _ h); assumption.
  - apply Forall2_and_Forall.
    + apply repr_items_Forall2. apply (repr_items_preserved h); assumption.
    + apply Forall_list_max. unfold depth_rule in Hdepth. lia.
  - intros checkVal checkVal' [Hcv Hdcv].
    eapply returns_bind;
      [exact (returns_Sprintv _ _ _ _ Hcv Hdcv) | apply returns_ret].
Qed.

Lemma returns_case (m : Heap.Run (bool * string)) res :
  returns h m res -> returns h (Heap.case m) (Some res).
Proof.
  intros Hm. unfold Heap.case.
  eapply returns_bind; [exact Hm | apply returns_ret].
Qed.

(** [CheckRule] reads the Config and the Rule, and allocates the Finding
    it returns. *)
Lemma reads_CheckRule hrule rule :
  repr_rule h hrule rule -> depth_rule rule < stack ->
  reads h (Heap.CheckRule regexp_MatchString fmt_Sprintv stack hrule config)
    (fun o h' => repr_outcome h' o (CheckRule rule cfg)).
Proof.
  intros Hrule Hdepth. pose proof Hrule as Hrule'.
  destruct_rule Hrule. destruct_check Hcheck.
  unfold Heap.CheckRule, CheckRule. cbv zeta. rewrite Htype.
  match goal with
  | |- reads _ _ (fun o h' => repr_outcome h' o (CheckRule_result rule ?res)) =>
      apply (returns_bind _ _ _ res)
  end.
  { repeat match goal with
           | |- context [Check_Type (Rule_Check rule) =? ?kind] =>
               destruct (Check_Type (Rule_Check rule) =? kind)
           end;
    first [ apply returns_ret
          | apply returns_case;
            first [ now apply returns_checkPatternMatch
                  | now apply returns_checkNumericRange
                  | now apply returns_checkMissingField
                  | now apply returns_checkMissingFields
                  | now apply returns_checkFieldExists
                  | now apply returns_checkCombinedConditions
                  | now apply returns_checkConditionalMissing
                  | now apply returns_checkFieldCheck
                  | now apply returns_checkStopSequenceComplexity ] ]. }
  match goal with
  | |- reads _ _ (fun o h' => repr_outcome h' o (CheckRule_result rule ?res)) =>
      destruct res as [[violated location]|]
  end; simpl; [| now apply reads_ret].
  destruct violated; simpl; [| now apply reads_ret].
  intros h1 Hext1. unfold Heap.bind, Heap.new, Heap.ret.
  exists (Some (List.length h1)).
  exists (h1 ++ [Heap.OFinding (Heap.finding_of hrule location)]).
  split; [reflexivity |]. split; [apply extends_app |].
  simpl. exists (Heap.finding_of hrule location).
  split; [apply nth_error_last |].
  unfold repr_finding, Heap.finding_of, finding_of; simpl.
  repeat split; try assumption.
  apply (holds_preserved _ h); [| assumption].
  apply extends_preserved. apply (extends_trans _ h1);
    [assumption | apply extends_app].
Qed.

Lemma reads_ScanConfig s sc :
  repr_scanner h s sc ->
  Forall (fun rule => depth_rule rule < stack)
    (RulesFile_Rules (Scanner_rules sc)) ->
  reads h (Heap.ScanConfig regexp_MatchString fmt_Sprintv stack s config)
    (fun findings h' =>
       Forall2 (repr_finding h') findings
         (ScanConfig regexp_MatchString fmt_Sprintv sc cfg)).
Proof.
  intros (hs & array & Hp & _ & Hholds & Hrules & _) Hdepth.
  unfold Heap.ScanConfig, ScanConfig.
  apply (returns_bind _ _ _ hs).
  { intros h1 Hext1. exists hs, h1.
    unfold Heap.load_Scanner, Heap.bind, Heap.load.
    rewrite (extends_preserved _ _ Hext1 _ _ Hp).
    split; [reflexivity |]. split; [apply extends_refl | reflexivity]. }
  apply (reads_range_fold h Heap.rules _ array
           (RulesFile_Rules (Scanner_rules sc))
           (fun hrule rule => repr_rule h hrule rule /\ depth_rule rule < stack)
           (fun findings findings' h' =>
              Forall2 (repr_finding h') findings findings')).
  - assumption.
  - now apply Forall2_and_Forall.
  - intros findings findings' h1 hrule rule Hext1 Hfindings [Hrule Hd].
    apply (reads_bind _ _ _ _ _
             (reads_rebase h h1 _ _ Hext1
                (reads_CheckRule hrule rule Hrule Hd))).
    intros o h2 Hext2 Hout.
    assert (Hkept : forall h3, extends h2 h3 ->
              Forall2 (repr_finding h3) findings findings').
    { intros h3 Hext3.
      apply (Forall2_weaken (repr_finding h1)); [| assumption].
      intros hf f. apply repr_finding_preserved, extends_preserved.
      now apply (extends_trans _ h2). }
    destruct o as [p|], (CheckRule rule cfg) as [f|]; simpl in Hout;
      try contradiction.
    + destruct Hout as (hf & Hp' & Hf).
      intros h3 Hext3. pose proof (extends_preserved _ _ Hext3) as Hpres3.
      exists (findings ++ [hf]), h3.
      unfold Heap.bind, Heap.load_Finding, Heap.bind, Heap.load.
      rewrite (Hpres3 _ _ Hp'). split; [reflexivity |].
      split; [apply extends_refl |]. simpl.
      apply Forall2_app; [now apply Hkept |].
      constructor; [| constructor].
      apply (repr_finding_preserved h2); assumption.
    + apply reads_ret. intros h3 Hext3. simpl. now apply Hkept.
  - intros h1 _. constructor.
Qed.

End Predicates.

End HeapPredicates.

Section HeapTheorem.

Variable regexp_MatchString : string -> string -> bool.
Variable fmt_Sprintv : Value -> string.

Notation CheckRule := (CheckRule regexp_MatchString fmt_Sprintv).

(** C9: evaluation only reads its inputs.  On a heap where the maps of
    the Config's tree and the slices of the Rule are objects a store
    could change, and with room on the stack for the depth of the tree
    and of the values the rule has formatted, [CheckRule] does not
    panic and returns the Finding the rule yields; every object of the
    heap is afterwards at its address and unchanged, so the Config's
    data tree is the same tree and the Rule the same rule.  So does
    [ScanConfig] for a whole RuleSet, whose rules the Scanner holds. *)
Theorem evaluation_is_read_only (stack : nat) (h : Heap.heap)
  (config : Heap.Ptr) (cfg : Config) :
  repr_config h config cfg ->
  depth_entries (Config_Data cfg) < stack ->
  (forall hrule rule,
      repr_rule h hrule rule -> depth_rule rule < stack ->
      exists finding h',
        Heap.CheckRule regexp_MatchString fmt_Sprintv stack hrule config h
        = Some (finding, h')
        /\ repr_outcome h' finding (CheckRule rule cfg)
        /\ preserved h h'
        /\ repr_config h' config cfg
        /\ repr_rule h' hrule rule)
  /\ (forall s sc,
        repr_scanner h s sc ->
        Forall (fun rule => depth_rule rule < stack)
          (RulesFile_Rules (Scanner_rules sc)) ->
        exists findings h',
          Heap.ScanConfig regexp_MatchString fmt_Sprintv stack s config h
          = Some (findings, h')
          /\ Forall2 (repr_finding h') findings
               (ScanConfig regexp_MatchString fmt_Sprintv sc cfg)
          /\ preserved h h'
          /\ repr_config h' config cfg
          /\ repr_scanner h' s sc).
Proof.
  intros Hconfig Hstack. split.
  - intros hrule rule Hrule Hdepth.
    destruct (reads_CheckRule regexp_MatchString fmt_Sprintv h config cfg
                stack Hconfig Hstack hrule rule Hrule Hdepth h
                (extends_refl h))
      as (finding & h' & Hrun & Hext & Hout).
    pose proof (extends_preserved _ _ Hext) as Hpres.
    exists finding, h'. split; [exact Hrun |]. split; [exact Hout |].
    split; [exact Hpres |].
    split; [now apply (repr_config_preserved h)
           | now apply (repr_rule_preserved h)].
  - intros s sc Hscanner Hdepth.
    destruct (reads_ScanConfig regexp_MatchString fmt_Sprintv h config cfg
                stack Hconfig Hstack s sc Hscanner Hdepth h
                (extends_refl h))
      as (findings & h' & Hrun & Hext & Hout).
    pose proof (extends_preserved _ _ Hext) as Hpres.
    exists findings, h'. split; [exact Hrun |]. split; [exact Hout |].
    split; [exact Hpres |].
    split; [now apply (repr_config_preserved h)
           | now apply (repr_scanner_preserved h)].
Qed.

End HeapTheorem.

Lemma repr_example_config : repr_config example_heap 2 nested_sampling_config.
Proof.
  exists (Heap.mkConfig (Some 1) "config.json").
  eexists. split; [reflexivity |]. split; [reflexivity |].
  split; [eexists; split; reflexivity |].
  repeat constructor.
  apply (repr_VMap _ _
           [("top_p", Heap.IFloat64 0.9375); ("top_k", Heap.IInt 100)]).
  - eexists. split; reflexivity.
  - repeat constructor.
Qed.

Lemma repr_example_sampling_rule :
  repr_rule example_heap (heap_rule_of sampling_rule (Some 3)) sampling_rule.
Proof.
  unfold repr_rule, repr_check, repr_strings, repr_values, repr_conditions.
  simpl.
  repeat match goal with
         | |- _ /\ _ => split
         end; try reflexivity; try constructor.
  - eexists. split; [eexists; split; reflexivity |].
    repeat constructor.
  - exists []. split; [reflexivity | constructor].
Qed.

Lemma repr_example_stop_rule :
  repr_rule example_heap (heap_rule_of (stop_rule 1 0) None) (stop_rule 1 0).
Proof.
  unfold repr_rule, repr_check, repr_strings, repr_values, repr_conditions.
  simpl.
  repeat match goal with
         | |- _ /\ _ => split
         end; try reflexivity; try constructor.
  - exists []. split; [reflexivity | constructor].
  - exists []. split; [reflexivity | constructor].
Qed.

Lemma repr_example_scanner : repr_scanner example_heap 5 example_scanner.
Proof.
  eexists. eexists. split; [reflexivity |]. split; [reflexivity |].
  split; [eexists; split; reflexivity |]. split; [| reflexivity].
  constructor; [apply repr_example_sampling_rule |].
  constructor; [apply repr_example_stop_rule | constructor].
Qed.

(** The sampling rule is evaluated on a Config whose tree has a nested
    mapping: the call returns a Finding and leaves the six objects of
    the heap as they were; so does the scan with the two rules of the
    Scanner. *)
Lemma evaluation_is_read_only_witness :
  (exists finding h',
      Heap.CheckRule match_everything Sprintv_unused 2
        (heap_rule_of sampling_rule (Some 3)) 2 example_heap
      = Some (finding, h')
      /\ repr_outcome h' finding
           (CheckRule match_everything Sprintv_unused sampling_rule
              nested_sampling_config)
      /\ preserved example_heap h'
      /\ repr_config h' 2 nested_sampling_config
      /\ repr_rule h' (heap_rule_of sampling_rule (Some 3)) sampling_rule)
  /\ (exists findings h',
        Heap.ScanConfig match_everything Sprintv_unused 2 5 2 example_heap
        = Some (findings, h')
        /\ Forall2 (repr_finding h') findings
             (ScanConfig match_everything Sprintv_unused example_scanner
                nested_sampling_config)
        /\ preserved example_heap h'
        /\ repr_config h' 2 nested_sampling_config
        /\ repr_scanner h' 5 example_scanner).
Proof.
  destruct (evaluation_is_read_only match_everything Sprintv_unused
              2 example_heap 2 nested_sampling_config
              repr_example_config)
    as [Hrule Hscan].
  - vm_compute. lia.
  - split.
    + apply Hrule; [apply repr_example_sampling_rule | vm_compute; lia].
    + apply Hscan; [apply repr_example_scanner |].
      repeat (constructor; [vm_compute; lia |]). constructor.
Defined.

(** The run of the witness, computed: the objects allocated are the
    three slices of candidates and the Finding.  With room for one call
    only, the walk cannot enter the nested mapping. *)
Lemma CheckRule_example_heap :
  Heap.CheckRule match_everything Sprintv_unused 2
    (heap_rule_of sampling_rule (Some 3)) 2 example_heap
  = Some (Some 9,
          (example_heap
             ++ [ Heap.OInterfaces [Heap.IFloat64 1.5];
                  Heap.OInterfaces [Heap.IFloat64 0.9375];
                  Heap.OInterfaces [Heap.IInt 100];
                  Heap.OFinding
                    (Heap.finding_of (heap_rule_of sampling_rule (Some 3))
                       "temperature, top_p, top_k") ])%list)
  /\ Heap.CheckRule match_everything Sprintv_unused 1
       (heap_rule_of sampling_rule (Some 3)) 2 example_heap
     = None.
Proof. split; vm_compute; reflexivity. Qed.
